(** * A minimal parallel task runner on top of graphlib

    Shallow embedding of [graphlib_task_runner_min.py]: the [Task] dataclass,
    the [run] function, and the parts of the Python standard library that
    [run] drives ([graphlib.TopologicalSorter], the thread pool's [submit]
    and [as_completed]).

    Idea of the program: get_ready() -> submit all -> wait -> done() -> repeat. *)

From Stdlib Require Import ZArith Lia.
From stdpp Require Import gmap strings list fin_maps fin_sets relations.

Open Scope string_scope.
Open Scope list_scope.
Open Scope nat_scope.

(* stdpp's solvers clear hypotheses that are already gone *)
Set Warnings "-clear-no-such-hyp".

(** ** Python values, exceptions and results *)

(** [object]: what an action may return. *)
Inductive object : Type :=
  | PyNone
  | PyInt (z : Z)
  | PyStr (s : string).

Inductive exception : Type :=
  | CycleError (msg : string) (cycle : list string)
  | ValueError (msg : string)
  | KeyError (key : string)
  | Exception (msg : string).

(** Outcome of a computation that may raise.  [OutOfFuel] is the artefact of
    bounding the [while] loops; the theorems below show it is never produced
    by [run]. *)
Inductive result (A : Type) : Type :=
  | Ok (a : A)
  | Raise (e : exception)
  | OutOfFuel.
Arguments Ok {A} a.
Arguments Raise {A} e.
Arguments OutOfFuel {A}.

Definition bind {A B} (r : result A) (k : A → result B) : result B :=
  match r with
  | Ok a => k a
  | Raise e => Raise e
  | OutOfFuel => OutOfFuel
  end.

Notation "'let!' x ':=' r 'in' k" := (bind r (λ x, k))
  (at level 10, x name, r at level 100, k at level 200).

(** ** Insertion-ordered dictionaries

    A Python [dict] iterates in insertion order; assigning to an existing key
    keeps the key's position. *)
Record dict (V : Type) : Type := Dict {
  dkeys : list string;
  ditems : gmap string V;
}.
Arguments Dict {V} dkeys ditems.
Arguments dkeys {V} d.
Arguments ditems {V} d.

Definition dict_empty {V} : dict V := Dict [] ∅.

Definition dict_get {V} (k : string) (d : dict V) : option V := ditems d !! k.

Definition dict_set {V} (k : string) (v : V) (d : dict V) : dict V :=
  match ditems d !! k with
  | Some _ => Dict (dkeys d) (<[k := v]> (ditems d))
  | None => Dict (dkeys d ++ [k]) (<[k := v]> (ditems d))
  end.

(** Mutation of the object stored under [k] (a no-op when [k] is absent). *)
Definition dict_alter {V} (f : V → V) (k : string) (d : dict V) : dict V :=
  Dict (dkeys d) (alter f k (ditems d)).

Definition dict_values {V} (d : dict V) : list V :=
  omap (λ k, ditems d !! k) (dkeys d).

Definition dict_items {V} (d : dict V) : list (string * V) :=
  omap (λ k, (λ v, (k, v)) <$> ditems d !! k) (dkeys d).

(** ** graphlib

    [TopologicalSorter] of the standard library (Lib/graphlib.py), with the
    methods [run] calls: the constructor, [prepare], [is_active],
    [get_ready] and [done]. *)

Module graphlib.

Definition NODE_OUT : Z := (-1)%Z.
Definition NODE_DONE : Z := (-2)%Z.

Record NodeInfo : Type := mkNodeInfo {
  node : string;
  (* Number of predecessors, generally >= 0; NODE_OUT once returned by
     get_ready, NODE_DONE once marked by done. *)
  npredecessors : Z;
  successors : list string;
}.

Definition set_npredecessors (z : Z) (i : NodeInfo) : NodeInfo :=
  mkNodeInfo (node i) z (successors i).

Definition add_npredecessors (z : Z) (i : NodeInfo) : NodeInfo :=
  mkNodeInfo (node i) (npredecessors i + z)%Z (successors i).

Definition append_successor (s : string) (i : NodeInfo) : NodeInfo :=
  mkNodeInfo (node i) (npredecessors i) (successors i ++ [s]).

Record TopologicalSorter : Type := mkSorter {
  node2info : dict NodeInfo;
  ready_nodes : option (list string);   (* None until prepare() *)
  npassedout : nat;
  nfinished : nat;
}.

(** [_get_nodeinfo]: creates the entry when it is missing.  The returned
    object is the one stored under [n]; callers mutate it with [dict_alter]. *)
Definition get_nodeinfo (n : string) (n2i : dict NodeInfo) : dict NodeInfo :=
  match dict_get n n2i with
  | Some _ => n2i
  | None => dict_set n (mkNodeInfo n 0 []) n2i
  end.

(** The two edge-creating steps of [add]. *)
Definition add_edges (n : string) (predecessors : list string)
    (n2i : dict NodeInfo) : dict NodeInfo :=
  let n2i := get_nodeinfo n n2i in
  let n2i := dict_alter (add_npredecessors (Z.of_nat (length predecessors))) n n2i in
  foldl (λ n2i pred, dict_alter (append_successor n) pred (get_nodeinfo pred n2i))
        n2i predecessors.

Definition add (n : string) (predecessors : list string)
    (ts : TopologicalSorter) : result TopologicalSorter :=
  match ready_nodes ts with
  | Some _ => Raise (ValueError "Nodes cannot be added after a call to prepare()")
  | None =>
      Ok (mkSorter (add_edges n predecessors (node2info ts))
                   (ready_nodes ts) (npassedout ts) (nfinished ts))
  end.

(** [TopologicalSorter(graph)]: [add(node, *predecessors)] for every item, the
    predecessors unpacked in the set's iteration order. *)
Fixpoint add_all (graph_items : list (string * gset string))
    (ts : TopologicalSorter) : result TopologicalSorter :=
  match graph_items with
  | [] => Ok ts
  | (n, preds) :: rest => let! ts' := add n (elements preds) ts in add_all rest ts'
  end.

Definition init (graph : dict (gset string)) : result TopologicalSorter :=
  add_all (dict_items graph) (mkSorter dict_empty None 0 0).

(** *** Cycle detection: [_find_cycle]

    The Python lists [stack] and [itstack] grow at the end; here the top of
    each stack is the head of the list.  An iterator over a successor list is
    the list of elements it has not produced yet. *)
Record dfs : Type := mkDfs {
  stack : list string;
  itstack : list (list string);
  seen : gset string;
  node2stacki : gmap string nat;
}.

(** The inner [while stack: ... else: break] loop: pops exhausted entries
    until the topmost iterator yields a node; [None] is the [else] branch. *)
Fixpoint backtrack (stk : list string) (its : list (list string))
    (n2s : gmap string nat) (sn : gset string) : option string * dfs :=
  match stk, its with
  | top :: stk', it :: its' =>
      match it with
      | nxt :: it' => (Some nxt, mkDfs (top :: stk') (it' :: its') sn n2s)
      | [] => backtrack stk' its' (delete top n2s) sn
      end
  | _, _ => (None, mkDfs stk its sn n2s)
  end.

(** The [while True] loop started at [n]; returns the cycle found, if any,
    together with the search state. *)
Fixpoint explore (fuel : nat) (n2i : dict NodeInfo) (n : string) (s : dfs)
    : result (option (list string) * dfs) :=
  match fuel with
  | O => OutOfFuel
  | S fuel' =>
      if decide (n ∈ seen s) then
        match node2stacki s !! n with
        | Some i => Ok (Some (drop i (rev (stack s)) ++ [n]), s)
        | None =>
            match backtrack (stack s) (itstack s) (node2stacki s) (seen s) with
            | (Some n', s') => explore fuel' n2i n' s'
            | (None, s') => Ok (None, s')
            end
        end
      else
        match dict_get n n2i with
        | None => Raise (KeyError n)
        | Some info =>
            match backtrack (n :: stack s) (successors info :: itstack s)
                            (<[n := length (stack s)]> (node2stacki s))
                            ({[n]} ∪ seen s) with
            | (Some n', s') => explore fuel' n2i n' s'
            | (None, s') => Ok (None, s')
            end
        end
  end.

(** The [for node in n2i] loop. *)
Fixpoint find_cycle_from (fuel : nat) (n2i : dict NodeInfo)
    (roots : list string) (s : dfs) : result (option (list string)) :=
  match roots with
  | [] => Ok None
  | n :: rest =>
      if decide (n ∈ seen s) then find_cycle_from fuel n2i rest s
      else
        let! r := explore fuel n2i n s in
        match r with
        | (Some cycle, _) => Ok (Some cycle)
        | (None, s') => find_cycle_from fuel n2i rest s'
        end
  end.

(** Total number of successor entries: no [while True] loop runs longer than
    one round per entry, plus one. *)
Definition nedges (n2i : dict NodeInfo) : nat :=
  sum_list (map (λ i, length (successors i)) (dict_values n2i)).

Definition find_cycle (ts : TopologicalSorter) : result (option (list string)) :=
  find_cycle_from (S (nedges (node2info ts))) (node2info ts)
                  (dkeys (node2info ts)) (mkDfs [] [] ∅ ∅).

(** [[i.node for i in self._node2info.values() if i.npredecessors == 0]] *)
Definition initial_ready (n2i : dict NodeInfo) : list string :=
  map node (filter (λ i, npredecessors i = 0%Z) (dict_values n2i)).

Definition prepare (ts : TopologicalSorter) : result TopologicalSorter :=
  match ready_nodes ts with
  | Some _ => Raise (ValueError "cannot prepare() more than once")
  | None =>
      let ts' := mkSorter (node2info ts) (Some (initial_ready (node2info ts)))
                          (npassedout ts) (nfinished ts) in
      let! cycle := find_cycle ts' in
      match cycle with
      | Some (c :: cs) => Raise (CycleError "nodes are in a cycle" (c :: cs))
      | _ => Ok ts'
      end
  end.

(** The marking loop of [get_ready]: [n2i[node].npredecessors = _NODE_OUT]. *)
Fixpoint mark_out (ready : list string) (n2i : dict NodeInfo)
    : result (dict NodeInfo) :=
  match ready with
  | [] => Ok n2i
  | n :: rest =>
      match dict_get n n2i with
      | None => Raise (KeyError n)
      | Some _ => mark_out rest (dict_alter (set_npredecessors NODE_OUT) n n2i)
      end
  end.

Definition get_ready (ts : TopologicalSorter)
    : result (list string * TopologicalSorter) :=
  match ready_nodes ts with
  | None => Raise (ValueError "prepare() must be called first")
  | Some ready =>
      let! n2i := mark_out ready (node2info ts) in
      Ok (ready, mkSorter n2i (Some []) (npassedout ts + length ready) (nfinished ts))
  end.

Definition is_active (ts : TopologicalSorter) : result bool :=
  match ready_nodes ts with
  | None => Raise (ValueError "prepare() must be called first")
  | Some ready =>
      Ok (bool_decide (nfinished ts < npassedout ts)
          || bool_decide (ready ≠ []))
  end.

(** The successor loop of [done]: decrement, and collect the nodes that reach
    zero.  A successor missing from the dictionary is a [KeyError]. *)
Fixpoint release (succs : list string) (n2i : dict NodeInfo)
    (ready : list string) : result (dict NodeInfo * list string) :=
  match succs with
  | [] => Ok (n2i, ready)
  | s :: rest =>
      match dict_get s n2i with
      | None => Raise (KeyError s)
      | Some info =>
          let n2i' := dict_alter (add_npredecessors (-1)%Z) s n2i in
          if decide ((npredecessors info - 1)%Z = 0%Z)
          then release rest n2i' (ready ++ [s])
          else release rest n2i' ready
      end
  end.

(** [done(node)] for a single node, as [run] calls it. *)
Definition done (n : string) (ts : TopologicalSorter) : result TopologicalSorter :=
  match ready_nodes ts with
  | None => Raise (ValueError "prepare() must be called first")
  | Some ready =>
      match dict_get n (node2info ts) with
      | None => Raise (ValueError "node was not added using add()")
      | Some nodeinfo =>
          let stat := npredecessors nodeinfo in
          if decide (stat ≠ NODE_OUT) then
            if decide (0 ≤ stat)%Z
            then Raise (ValueError "node was not passed out (still not ready)")
            else if decide (stat = NODE_DONE)
            then Raise (ValueError "node was already marked done")
            else Raise (Exception "AssertionError: unknown status")
          else
            let n2i := dict_alter (set_npredecessors NODE_DONE) n (node2info ts) in
            let! r := release (successors nodeinfo) n2i ready in
            Ok (mkSorter r.1 (Some r.2) (npassedout ts) (S (nfinished ts)))
      end
  end.

End graphlib.

(** ** The task runner *)

(** What an action observes of the outside world when it runs (clock,
    randomness, ...). *)
Definition Env : Type := nat.

Inductive outcome : Type :=
  | Returns (v : object)
  | Raises (e : exception).

(** [type Action = Callable[[], object]] *)
Definition Action : Type := Env → outcome.

Record Task : Type := mkTask {
  name : string;
  action : Action;
  deps : gset string;
}.

(** A future of the pool, identified with what its [result()] will do. *)
Definition Future : Type := outcome.

(** One execution environment: what each task's action observes, the order
    in which [as_completed] hands back the futures of a batch (any
    permutation of them), and the number of processors the machine reports.
    An action runs at most once in a run and the batches of a run are
    pairwise disjoint, so functions of the task name and of the batch
    describe every possible execution. *)
Record world : Type := mkWorld {
  env : string → Env;
  as_completed : list (Future * string) → list (Future * string);
  as_completed_perm : ∀ futs, as_completed futs ≡ₚ futs;
  cpu_count : option positive;          (* processors reported by [os] *)
}.

Inductive line : Type :=
  | RunLine (n : string)                (* run  {name} *)
  | DoneLine (n : string)               (* done {name} *)
  | RanTasks (ran : list string)        (* ran tasks: {ran} *)
  | DoneTasks (done : list string).     (* done tasks: {done} *)

(** Calls observed on the sorter and on the pool.  [Submit n] is the dispatch
    of the action of the task named [n]: the pool runs each submitted action
    exactly once, also when [run] is left by an exception (the [with] block
    waits for them). *)
Inductive event : Type :=
  | GetReady (ready : list string)      (* ts.get_ready() returned [ready] *)
  | Submit (n : string)                 (* pool.submit(by_name[n].action) *)
  | Done (n : string).                  (* ts.done(n) *)

Record state : Type := mkState {
  ts : graphlib.TopologicalSorter;
  ran : list string;
  done : list string;
  results : gmap string object;
  stdout : list line;
  trace : list event;
}.

Definition set_ts (ts' : graphlib.TopologicalSorter) (st : state) : state :=
  mkState ts' (ran st) (done st) (results st) (stdout st) (trace st).
Definition print (l : line) (st : state) : state :=
  mkState (ts st) (ran st) (done st) (results st) (stdout st ++ [l]) (trace st).
Definition emit (e : event) (st : state) : state :=
  mkState (ts st) (ran st) (done st) (results st) (stdout st) (trace st ++ [e]).
Definition ran_append (n : string) (st : state) : state :=
  mkState (ts st) (ran st ++ [n]) (done st) (results st) (stdout st) (trace st).
Definition done_append (n : string) (st : state) : state :=
  mkState (ts st) (ran st) (done st ++ [n]) (results st) (stdout st) (trace st).
Definition set_result (n : string) (v : object) (st : state) : state :=
  mkState (ts st) (ran st) (done st) (<[n := v]> (results st)) (stdout st) (trace st).

(** [by_name = {t.name: t for t in tasks}] *)
Definition by_name_of (tasks : list Task) : gmap string Task :=
  foldl (λ m t, <[name t := t]> m) ∅ tasks.

(** [{t.name: set(t.deps) for t in tasks}] *)
Definition graph_of (tasks : list Task) : dict (gset string) :=
  foldl (λ d t, dict_set (name t) (deps t) d) dict_empty tasks.

(** [ThreadPoolExecutor(max_workers=max_workers)]: the number of workers.
    Without [max_workers] it is [min(32, (cpu_count or 1) + 4)]. *)
Definition ThreadPoolExecutor (max_workers : option Z) (cpus : option positive)
    : result Z :=
  let n := match max_workers with
           | None => Z.min 32 (Z.pos (default 1%positive cpus) + 4)
           | Some n => n
           end in
  if decide (n ≤ 0)%Z then Raise (ValueError "max_workers must be greater than 0")
  else Ok n.

(** [for name in ready: ...] *)
Fixpoint submit_all (w : world) (by_name : gmap string Task)
    (ready : list string) (futs : list (Future * string)) (st : state)
    : state * result (list (Future * string)) :=
  match ready with
  | [] => (st, Ok futs)
  | n :: rest =>
      let st := ran_append n (print (RunLine n) st) in
      match by_name !! n with
      | None => (st, Raise (KeyError n))
      | Some t =>
          submit_all w by_name rest (futs ++ [(action t (env w n), n)])
                     (emit (Submit n) st)
      end
  end.

(** [for fut in as_completed(futs): ...] over the futures in completion
    order, each paired with [futs[fut]]; [fut.result()] re-raises what the
    action raised. *)
Fixpoint collect (completed : list (Future * string)) (st : state)
    : state * result unit :=
  match completed with
  | [] => (st, Ok tt)
  | (fut, n) :: rest =>
      match fut with
      | Raises e => (st, Raise e)
      | Returns v =>
          let st := done_append n (print (DoneLine n) (set_result n v st)) in
          match graphlib.done n (ts st) with
          | Ok ts' => collect rest (emit (Done n) (set_ts ts' st))
          | Raise e => (st, Raise e)
          | OutOfFuel => (st, OutOfFuel)
          end
      end
  end.

(** [while ts.is_active(): ...] *)
Fixpoint run_loop (fuel : nat) (w : world) (by_name : gmap string Task)
    (st : state) : state * result unit :=
  match fuel with
  | O => (st, OutOfFuel)
  | S fuel' =>
      match graphlib.is_active (ts st) with
      | Ok false => (st, Ok tt)
      | Ok true =>
          match graphlib.get_ready (ts st) with
          | Ok (ready, ts') =>
              let st := emit (GetReady ready) (set_ts ts' st) in
              match submit_all w by_name ready [] st with
              | (st, Ok futs) =>
                  match collect (as_completed w futs) st with
                  | (st, Ok _) => run_loop fuel' w by_name st
                  | (st, r) => (st, r)
                  end
              | (st, Raise e) => (st, Raise e)
              | (st, OutOfFuel) => (st, OutOfFuel)
              end
          | Raise e => (st, Raise e)
          | OutOfFuel => (st, OutOfFuel)
          end
      | Raise e => (st, Raise e)
      | OutOfFuel => (st, OutOfFuel)
      end
  end.

(** What a call of [run] does: the lines printed, the calls made, and the
    returned mapping or the exception that leaves [run]. *)
Record execution : Type := mkExecution {
  printed : list line;
  events : list event;
  returned : result (gmap string object);
}.

(** Graph construction: [TopologicalSorter({...})] followed by [prepare()]. *)
Definition construct (tasks : list Task) : result graphlib.TopologicalSorter :=
  let! ts0 := graphlib.init (graph_of tasks) in graphlib.prepare ts0.

(** [run(tasks, *, max_workers=None)].  [tasks] is traversed twice (once
    for [by_name], once for the graph), hence a list. *)
Definition run (tasks : list Task) (max_workers : option Z) (w : world)
    : execution :=
  let by_name := by_name_of tasks in
  match construct tasks with
  | Ok ts1 =>
      match ThreadPoolExecutor max_workers (cpu_count w) with
      | Ok _ =>
          let fuel := S (length (dkeys (graphlib.node2info ts1))) in
          match run_loop fuel w by_name (mkState ts1 [] [] ∅ [] []) with
          | (st, Ok _) =>
              mkExecution (stdout st ++ [RanTasks (ran st); DoneTasks (done st)])
                          (trace st) (Ok (results st))
          | (st, Raise e) => mkExecution (stdout st) (trace st) (Raise e)
          | (st, OutOfFuel) => mkExecution (stdout st) (trace st) OutOfFuel
          end
      | Raise e => mkExecution [] [] (Raise e)
      | OutOfFuel => mkExecution [] [] OutOfFuel
      end
  | Raise e => mkExecution [] [] (Raise e)
  | OutOfFuel => mkExecution [] [] OutOfFuel
  end.

(** *** Sample tasks and worlds *)

(** Actions as [sleep_task] builds them: whatever they observe, they end the
    same way. *)
Definition const_action (o : outcome) : Action := λ _, o.
Definition ok_task (n : string) (ds : list string) : Task :=
  mkTask n (const_action (Returns (PyStr n))) (list_to_set ds).
Definition failing_task (n : string) (ds : list string) : Task :=
  mkTask n (const_action (Raises (Exception n))) (list_to_set ds).

(** Futures complete in submission order / in reverse submission order. *)
Definition fifo : world :=
  mkWorld (λ _, 0) id (λ futs, reflexivity futs) (Some 4%positive).
Definition lifo : world :=
  mkWorld (λ _, 1) (@rev _) (λ futs, symmetry (Permutation_rev futs)) None.

(** The DAG of the [__main__] block. *)
Definition example_dag : list Task :=
  [ ok_task "A" []; ok_task "B" []; ok_task "D" [];
    ok_task "C" ["B"; "D"]; ok_task "E" ["A"; "B"]; ok_task "G" ["D"];
    ok_task "F" ["A"; "C"; "G"]; ok_task "I" ["B"; "F"]; ok_task "M" ["F"];
    ok_task "J" ["C"; "M"]; ok_task "H" ["E"; "I"];
    ok_task "K" ["J"]; ok_task "L" ["A"; "C"; "J"];
    ok_task "N" ["D"; "K"] ].


(** ** Notions used in the statements *)

(** The dependency graph that [run] hands to the sorter, as a plain map. *)
Definition task_graph (tasks : list Task) : gmap string (gset string) :=
  deps <$> by_name_of tasks.

Definition gdeps (G : gmap string (gset string)) (n : string) : gset string :=
  default ∅ (G !! n).

(** Every name that occurs in the graph, as a key or as a dependency. *)
Definition gnodes (G : gmap string (gset string)) : gset string :=
  dom G ∪ ⋃ ((map_to_list G).*2).

Definition task_deps (tasks : list Task) : string → gset string :=
  gdeps (task_graph tasks).
Definition task_nodes (tasks : list Task) : gset string :=
  gnodes (task_graph tasks).

Definition declared (tasks : list Task) (n : string) : Prop :=
  is_Some (by_name_of tasks !! n).

(** [depends_on tasks n d]: the task run under the name [n] lists [d] among
    its dependencies. *)
Definition depends_on (tasks : list Task) (n d : string) : Prop :=
  d ∈ task_deps tasks n.

Definition acyclic (tasks : list Task) : Prop :=
  ∀ n, ¬ tc (depends_on tasks) n n.
Definition cyclic (tasks : list Task) : Prop :=
  ∃ n, tc (depends_on tasks) n n.

(** Every dependency names a declared task. *)
Definition closed (tasks : list Task) : Prop :=
  ∀ n d, depends_on tasks n d → declared tasks d.

Definition unique_names (tasks : list Task) : Prop :=
  NoDup (name <$> tasks).

Definition valid_max_workers (max_workers : option Z) : Prop :=
  match max_workers with
  | None => True
  | Some n => (0 < n)%Z
  end.

(** The task run under the name [n] returns [v] / raises [e] in world [w]. *)
Definition returns (tasks : list Task) (w : world) (n : string) (v : object) : Prop :=
  ∃ t, by_name_of tasks !! n = Some t ∧ action t (env w n) = Returns v.
Definition raises (tasks : list Task) (w : world) (n : string) (e : exception) : Prop :=
  ∃ t, by_name_of tasks !! n = Some t ∧ action t (env w n) = Raises e.

(** No action fails in world [w]. *)
Definition all_succeed (tasks : list Task) (w : world) : Prop :=
  ∀ t, t ∈ tasks → ∃ v, action t (env w (name t)) = Returns v.

(** The outcome of an action does not depend on what it observes. *)
Definition deterministic (tasks : list Task) : Prop :=
  ∀ t, t ∈ tasks → ∀ e e', action t e = action t e'.

(** Projections of the event trace. *)
Definition submitted (evs : list event) : list string :=
  omap (λ e, match e with Submit n => Some n | _ => None end) evs.
Definition completed (evs : list event) : list string :=
  omap (λ e, match e with Done n => Some n | _ => None end) evs.
Definition drained (evs : list event) : list (gset string) :=
  omap (λ e, match e with GetReady r => Some (list_to_set r) | _ => None end) evs.

(** The ready set once the tasks of [D] are done: the nodes outside [D] all of
    whose dependencies lie in [D]. *)
Definition ready_set (tasks : list Task) (D : gset string) : gset string :=
  filter (λ m, (m ∉ D) ∧ (task_deps tasks m ⊆ D)) (task_nodes tasks).

(** The layers of the graph: layer k holds the tasks all of whose
    dependencies lie in layers before k. *)
Fixpoint layers_from (fuel : nat) (tasks : list Task) (D : gset string)
    : list (gset string) :=
  match fuel with
  | O => []
  | S fuel' =>
      let R := ready_set tasks D in
      if decide (R = ∅) then [] else R :: layers_from fuel' tasks (D ∪ R)
  end.
Definition layers (tasks : list Task) : list (gset string) :=
  layers_from (size (task_nodes tasks)) tasks ∅.

(** [ready_batch tasks D R]: [R] enumerates, without repetition, the ready
    set for [D], and is not empty. *)
Definition ready_batch (tasks : list Task) (D : gset string) (R : list string) : Prop :=
  R ≠ [] ∧ NoDup R ∧ ∀ m, m ∈ R ↔ m ∈ ready_set tasks D.

(** Behaviour of the scheduling loop from the moment the tasks of [D] are
    done: the events it produces and how it ends ([Ok D'] when it leaves the
    loop normally with the tasks of [D'] done). *)
Inductive loop_spec (tasks : list Task) (w : world)
    : gset string → list event → result (gset string) → Prop :=
  | loop_stop D :
      ready_set tasks D = ∅ →
      loop_spec tasks w D [] (Ok D)
  | loop_key_error D R pre x post :
      ready_batch tasks D R →
      R = pre ++ x :: post →
      Forall (declared tasks) pre →
      ¬ declared tasks x →
      loop_spec tasks w D (GetReady R :: map Submit pre) (Raise (KeyError x))
  | loop_failure D R pi pre n post e :
      ready_batch tasks D R →
      Forall (declared tasks) R →
      pi ≡ₚ R →
      pi = pre ++ n :: post →
      Forall (λ m, ∃ v, returns tasks w m v) pre →
      raises tasks w n e →
      loop_spec tasks w D (GetReady R :: map Submit R ++ map Done pre) (Raise e)
  | loop_round D R pi evs r :
      ready_batch tasks D R →
      pi ≡ₚ R →
      Forall (λ m, ∃ v, returns tasks w m v) R →
      loop_spec tasks w (D ∪ list_to_set R) evs r →
      loop_spec tasks w D (GetReady R :: map Submit R ++ map Done pi ++ evs) r.

(** The mapping [run] returns when the tasks of [D] are done. *)
Definition results_for (tasks : list Task) (w : world) (D : gset string)
    (results : gmap string object) : Prop :=
  ∀ n, match results !! n with
       | Some v => n ∈ D ∧ returns tasks w n v
       | None => (n ∉ D)
       end.

(** Keeps, for each name, the last descriptor carrying it, at the position of
    the name's first occurrence. *)
Definition last_wins (tasks : list Task) : list Task :=
  omap (λ n, by_name_of tasks !! n) (dkeys (graph_of tasks)).

(** The successors recorded for [n], and the edge relation they induce. *)
Definition succ_of (n2i : dict graphlib.NodeInfo) (n : string) : list string :=
  match ditems n2i !! n with
  | Some i => graphlib.successors i
  | None => []
  end.
Definition successor_set (ts : graphlib.TopologicalSorter) (n : string) : gset string :=
  list_to_set (succ_of (graphlib.node2info ts) n).
Definition edge (n2i : dict graphlib.NodeInfo) (n m : string) : Prop :=
  m ∈ succ_of n2i n.
Definition initial_ready_set (ts : graphlib.TopologicalSorter) : gset string :=
  list_to_set (default [] (graphlib.ready_nodes ts)).

(** *** Scenarios *)

(** [A], [B -> A], [C] independent; [A] fails. *)
Definition failure_scenario : list Task :=
  [ failing_task "A" []; ok_task "B" ["A"]; ok_task "C" [] ].

(** [B] depends on a name that no task carries. *)
Definition unknown_dependency_scenario : list Task :=
  [ ok_task "A" []; ok_task "B" ["X"] ].

(** [A] depends on [B], [B] depends on [A]. *)
Definition cycle_scenario : list Task :=
  [ ok_task "A" ["B"]; ok_task "B" ["A"] ].

(** Two descriptors named [A], with different actions. *)
Definition duplicate_scenario : list Task :=
  [ mkTask "A" (const_action (Returns (PyInt 1))) ∅;
    mkTask "A" (const_action (Returns (PyInt 2))) ∅ ].

(** [A] and [B] are roots, [C] depends on [A] only. *)
Definition race_scenario : list Task :=
  [ ok_task "A" []; ok_task "B" []; ok_task "C" ["A"] ].

(** [A] and [B] are roots, [C] depends on both. *)
Definition join_scenario : list Task :=
  [ ok_task "A" []; ok_task "B" []; ok_task "C" ["A"; "B"] ].

(** ** Invariants used in the proofs *)

(** The key list of a dictionary enumerates its entries without repetition. *)
Definition dict_wf {V} (d : dict V) : Prop :=
  NoDup (dkeys d) ∧ ∀ k, k ∈ dkeys d ↔ is_Some (ditems d !! k).

(** [n2i] holds the static structure of graph [G]: one entry per node, whose
    successor list enumerates the nodes depending on it. *)
Definition structure_ok (G : gmap string (gset string))
    (n2i : dict graphlib.NodeInfo) : Prop :=
  dict_wf n2i ∧
  (∀ n, is_Some (ditems n2i !! n) ↔ n ∈ gnodes G) ∧
  (∀ n i, ditems n2i !! n = Some i →
     graphlib.node i = n ∧ NoDup (graphlib.successors i) ∧
     ∀ m, m ∈ graphlib.successors i ↔ n ∈ gdeps G m).

(** The value of [npredecessors] of node [n] when the nodes of [D] are done,
    those of [P] are passed out, and the nodes of [pend] still await the
    decrement for a node that was just added to [D]. *)
Definition status (G : gmap string (gset string)) (D P : gset string)
    (pend : list string) (n : string) : Z :=
  if decide (n ∈ D) then graphlib.NODE_DONE
  else if decide (n ∈ P) then graphlib.NODE_OUT
  else Z.of_nat (size (gdeps G n ∖ D) + (if decide (n ∈ pend) then 1 else 0)).

Definition sorter_inv (G : gmap string (gset string)) (D P : gset string)
    (pend : list string) (n2i : dict graphlib.NodeInfo) (ready : list string) : Prop :=
  structure_ok G n2i ∧
  (∀ n i, ditems n2i !! n = Some i → graphlib.npredecessors i = status G D P pend n) ∧
  NoDup ready ∧
  (∀ m, m ∈ ready ↔
        m ∈ gnodes G ∧ (m ∉ D) ∧ (m ∉ P) ∧ gdeps G m ⊆ D ∧ (m ∉ pend)) ∧
  D ## P ∧
  (∀ m, m ∈ D ∪ P → m ∈ gnodes G ∧ gdeps G m ⊆ D).

(** What [TopologicalSorter(graph)] establishes before [prepare]. *)
Definition init_ok (G : gmap string (gset string))
    (n2i : dict graphlib.NodeInfo) : Prop :=
  structure_ok G n2i ∧
  ∀ n i, ditems n2i !! n = Some i →
         graphlib.npredecessors i = Z.of_nat (size (gdeps G n)).

(** *** Invariants of the cycle search *)

(** Nodes whose exploration is finished: seen and no longer on the stack. *)
Definition black (sn : gset string) (stk : list string) : gset string :=
  sn ∖ list_to_set stk.

(** [chain n2i B child stk its]: every stack entry has handed out a prefix of
    its successor list; the nodes handed out are finished (in [B]), except the
    last one, which is the entry above it on the stack ([child] for the top
    entry). *)
Inductive chain (n2i : dict graphlib.NodeInfo) (B : gset string)
    : option string → list string → list (list string) → Prop :=
  | chain_nil c : chain n2i B c [] []
  | chain_cons c x stk it its consumed :
      succ_of n2i x = consumed ++ it →
      (∀ y, y ∈ consumed → y ∈ B ∨ c = Some y) →
      (∀ y, c = Some y → y ∈ consumed) →
      chain n2i B (Some x) stk its →
      chain n2i B c (x :: stk) (it :: its).

Definition dfs_inv (n2i : dict graphlib.NodeInfo) (child : option string)
    (stk : list string) (its : list (list string))
    (n2s : gmap string nat) (sn : gset string) : Prop :=
  NoDup stk ∧
  (∀ x, is_Some (n2s !! x) ↔ x ∈ stk) ∧
  (∀ x, x ∈ stk → x ∈ sn) ∧
  chain n2i (black sn stk) child stk its ∧
  (∀ x y, x ∈ black sn stk → edge n2i x y → y ∈ black sn stk) ∧
  (∀ x, x ∈ black sn stk → ¬ tc (edge n2i) x x).

(** Successor entries not yet handed out by any iterator. *)
Definition unseen_edges (n2i : dict graphlib.NodeInfo) (sn : gset string) : nat :=
  sum_list (map (λ k, length (succ_of n2i k)) (filter (λ k, k ∉ sn) (dkeys n2i))).
Definition remaining_edges (n2i : dict graphlib.NodeInfo)
    (its : list (list string)) (sn : gset string) : nat :=
  unseen_edges n2i sn + sum_list (map length its).

(** *** Invariants of the scheduling loop *)

(** The future that [pool.submit] returns for the task named [n]. *)
Definition future_of (tasks : list Task) (w : world) (n : string) : Future :=
  match by_name_of tasks !! n with
  | Some t => action t (env w n)
  | None => Raises (KeyError n)
  end.

(** State of [run] at the head of the [while] loop, the tasks of [D] done. *)
Definition loop_inv (tasks : list Task) (w : world) (D : gset string)
    (st : state) : Prop :=
  ∃ d ready b,
    ts st = graphlib.mkSorter d (Some ready) b b ∧
    sorter_inv (task_graph tasks) D ∅ [] d ready ∧
    results_for tasks w D (results st) ∧
    length (dkeys d) = size (task_nodes tasks).

(** [run] got past the set-up and its execution is one of the scheduling
    loop: the events follow [loop_spec], and [run] returns the mapping of the
    finished tasks or lets the loop's exception through. *)
Definition loop_outcome (tasks : list Task) (w : world) (ex : execution) : Prop :=
  ∃ r, loop_spec tasks w ∅ (events ex) r ∧
       match r with
       | Ok D => ∃ results, returned ex = Ok results ∧ results_for tasks w D results
       | Raise e => returned ex = Raise e
       | OutOfFuel => False
       end.

(** ** Notions used for the rest of the program *)

(** The action of every task that [by_name] keeps returns in world [w]. *)
Definition all_return (tasks : list Task) (w : world) : Prop :=
  ∀ n, declared tasks n → ∃ v, returns tasks w n v.

(** The progress lines that go with the events: [run  {name}] is printed
    with each submission, [done {name}] with each completion. *)
Definition progress (evs : list event) : list line :=
  omap (λ e, match e with
             | Submit n => Some (RunLine n)
             | Done n => Some (DoneLine n)
             | GetReady _ => None
             end) evs.

(** The lists [ran] and [done] and the output agree with the calls made. *)
Definition logged (st : state) : Prop :=
  stdout st = progress (trace st) ∧
  ran st = submitted (trace st) ∧
  done st = completed (trace st).

(** Consecutive elements of [l] are related by [E]. *)
Definition linked {A} (E : relation A) (l : list A) : Prop :=
  ∀ j a b, l !! j = Some a → l !! S j = Some b → E a b.

(** [c] walks along [E] and comes back to where it started. *)
Definition cycle_path {A} (E : relation A) (c : list A) : Prop :=
  2 ≤ length c ∧ head c = last c ∧ linked E c.

(** [node2stacki] records the position of each stack entry, counted from the
    bottom of the stack. *)
Definition index_ok (stk : list string) (n2s : gmap string nat) : Prop :=
  ∀ x i, n2s !! x = Some i → rev stk !! i = Some x.

(** [sleep_task(label)] of the [__main__] block: sleeps for a random time,
    then returns its label. *)
Definition sleep_task (label : string) : Action :=
  const_action (Returns (PyStr label)).

(** The [__main__] block: [run(tasks, max_workers=8)] on the example DAG. *)
Definition main (w : world) : execution := run example_dag (Some 8%Z) w.

(** The mapping from each name of [names] to the label it stands for. *)
Definition labels (names : list string) : gmap string object :=
  list_to_map ((λ n, (n, PyStr n)) <$> names).

(** * Proofs *)

(** ** Dictionaries *)

Lemma dict_wf_empty {V} : dict_wf (@dict_empty V).
Proof.
  split; [constructor|]. intros k. cbn. rewrite lookup_empty.
  split; [by intros ?%elem_of_nil | by intros [? ?]].
Qed.

Lemma dict_wf_set {V} k (v : V) d : dict_wf d → dict_wf (dict_set k v d).
Proof.
  intros [Hnd Hk]. unfold dict_set.
  destruct (ditems d !! k) as [v0|] eqn:E; split; cbn.
  - done.
  - intros k'. rewrite Hk. destruct (decide (k = k')) as [->|Hne].
    + rewrite lookup_insert_eq, E. by split; eauto.
    + by rewrite lookup_insert_ne.
  - apply NoDup_app. split_and!; [done| |apply NoDup_singleton].
    intros x Hx ->%list_elem_of_singleton. apply Hk in Hx. rewrite E in Hx.
    by destruct Hx.
  - intros k'. rewrite elem_of_app, list_elem_of_singleton, Hk.
    destruct (decide (k = k')) as [->|Hne].
    + rewrite lookup_insert_eq. split; eauto.
    + rewrite lookup_insert_ne by done. split; [intros [?|?]|]; eauto.
      congruence.
Qed.

Lemma dict_wf_alter {V} (f : V → V) k d : dict_wf d → dict_wf (dict_alter f k d).
Proof.
  intros [Hnd Hk]. split; [done|]. intros k'. cbn. rewrite Hk.
  rewrite lookup_alter. case_decide; [|done]. subst.
  split; intros [x Hx].
  - rewrite Hx. by eexists.
  - destruct (ditems d !! k'); [by eexists | done].
Qed.

Lemma elem_of_dict_values {V} (d : dict V) v :
  dict_wf d → v ∈ dict_values d ↔ ∃ k, ditems d !! k = Some v.
Proof.
  intros [_ Hk]. unfold dict_values. rewrite list_elem_of_omap. split.
  - intros (k & _ & ?). eauto.
  - intros (k & Hv). exists k. split; [|done]. apply Hk. eauto.
Qed.

Lemma dict_items_fst {V} (d : dict V) : dict_wf d → (dict_items d).*1 = dkeys d.
Proof.
  intros [_ Hk]. unfold dict_items.
  assert (Hall : ∀ k, k ∈ dkeys d → is_Some (ditems d !! k)) by (intros; by apply Hk).
  clear Hk. induction (dkeys d) as [|k ks IH]; [done|]. cbn.
  destruct (Hall k) as [v Hv]; [left|]. rewrite Hv. cbn. f_equal.
  apply IH. intros. apply Hall. by right.
Qed.

Lemma elem_of_dict_items {V} (d : dict V) k v :
  dict_wf d → (k, v) ∈ dict_items d ↔ ditems d !! k = Some v.
Proof.
  intros [_ Hk]. unfold dict_items. rewrite list_elem_of_omap. split.
  - intros (k' & _ & Hv). destruct (ditems d !! k') eqn:E; simplify_eq/=. done.
  - intros Hv. exists k. split; [apply Hk; eauto|]. by rewrite Hv.
Qed.

Lemma dict_items_to_map {V} (d : dict V) :
  dict_wf d → list_to_map (dict_items d) = ditems d.
Proof.
  intros Hwf. apply map_eq. intros k.
  destruct (ditems d !! k) as [v|] eqn:E.
  - apply elem_of_list_to_map.
    + rewrite dict_items_fst by done. apply Hwf.
    + by apply elem_of_dict_items.
  - apply not_elem_of_list_to_map. rewrite dict_items_fst by done.
    intros Hin. apply Hwf in Hin. rewrite E in Hin. by destruct Hin.
Qed.

(** ** The graph as a map *)

Lemma elem_of_gnodes G n :
  n ∈ gnodes G ↔ n ∈ dom G ∨ ∃ m, n ∈ gdeps G m.
Proof.
  unfold gnodes, gdeps. rewrite elem_of_union, elem_of_union_list. split.
  - intros [?|(X & HX & Hn)]; [by left|right].
    apply list_elem_of_fmap in HX as ([k X'] & -> & HX%elem_of_map_to_list).
    exists k. by rewrite HX.
  - intros [?|(m & Hm)]; [by left|right].
    destruct (G !! m) as [X|] eqn:E; [|set_solver].
    exists X. split; [|done]. apply list_elem_of_fmap. exists (m, X).
    split; [done|]. by apply elem_of_map_to_list.
Qed.

Lemma gdeps_insert G n ds m :
  gdeps (<[n := ds]> G) m = if decide (m = n) then ds else gdeps G m.
Proof.
  unfold gdeps. case_decide; subst.
  - by rewrite lookup_insert_eq.
  - by rewrite lookup_insert_ne.
Qed.

Lemma gdeps_not_dom G n : n ∉ dom G → gdeps G n = ∅.
Proof. intros Hn%not_elem_of_dom. unfold gdeps. by rewrite Hn. Qed.

Lemma gdeps_gnodes G n d : d ∈ gdeps G n → d ∈ gnodes G.
Proof. intros. apply elem_of_gnodes. eauto. Qed.

Lemma gdeps_dom G n d : d ∈ gdeps G n → n ∈ dom G.
Proof.
  unfold gdeps. intros Hd. apply elem_of_dom.
  destruct (G !! n); [eauto | set_solver].
Qed.

Lemma elem_of_gnodes_insert G n ds k :
  n ∉ dom G →
  k ∈ gnodes (<[n := ds]> G) ↔ k = n ∨ k ∈ ds ∨ k ∈ gnodes G.
Proof.
  intros Hn. rewrite !elem_of_gnodes, dom_insert. split.
  - intros [Hk|(m & Hm)].
    + set_unfold. destruct Hk as [?|?]; auto.
    + rewrite gdeps_insert in Hm. case_decide; eauto 6.
  - intros [->|[Hk|[Hk|(m & Hm)]]].
    + left. set_solver.
    + right. exists n. rewrite gdeps_insert. by rewrite decide_True.
    + left. set_solver.
    + right. exists m. rewrite gdeps_insert. rewrite decide_False; [done|].
      intros ->. rewrite gdeps_not_dom in Hm by done. set_solver.
Qed.

(** ** Construction of the sorter *)

Section construction.
Import graphlib.


Lemma lookup_touch f p d k :
ditems (dict_alter f p (get_nodeinfo p d)) !! k =
if decide (k = p) then Some (f (default (mkNodeInfo p 0 []) (ditems d !! p)))
else ditems d !! k.
Proof.
unfold get_nodeinfo, dict_get, dict_alter, dict_set. cbn.
destruct (ditems d !! p) as [i|] eqn:E; cbn; rewrite ?E; cbn;
  case_decide; subst.
- by rewrite lookup_alter_eq, E.
- by rewrite lookup_alter_ne.
- by rewrite lookup_alter_eq, lookup_insert_eq.
- by rewrite lookup_alter_ne, lookup_insert_ne.
Qed.

Lemma wf_get_nodeinfo p d : dict_wf d → dict_wf (get_nodeinfo p d).
Proof.
intros. unfold get_nodeinfo. destruct (dict_get p d); [done|].
by apply dict_wf_set.
Qed.

Lemma wf_touch f p d : dict_wf d → dict_wf (dict_alter f p (get_nodeinfo p d)).
Proof. intros. by apply dict_wf_alter, wf_get_nodeinfo. Qed.

Lemma wf_fold_touch f ps d :
dict_wf d →
dict_wf (foldl (λ d p, dict_alter f p (get_nodeinfo p d)) d ps).
Proof.
revert d. induction ps as [|p ps IH]; intros d Hwf; [done|].
cbn. by apply IH, wf_touch.
Qed.

Lemma lookup_fold_touch f ps d k :
NoDup ps →
ditems (foldl (λ d p, dict_alter f p (get_nodeinfo p d)) d ps) !! k =
if decide (k ∈ ps) then Some (f (default (mkNodeInfo k 0 []) (ditems d !! k)))
else ditems d !! k.
Proof.
revert d. induction ps as [|p ps IH]; intros d Hnd.
- cbn. rewrite decide_False; [done|]. by intros ?%elem_of_nil.
- apply NoDup_cons in Hnd as [Hp Hnd]. cbn. rewrite IH by done.
  rewrite lookup_touch.
  destruct (decide (k = p)) as [->|Hne].
  + rewrite (decide_False (P := p ∈ ps)) by done.
    rewrite decide_True by left. done.
  + destruct (decide (k ∈ ps)).
    * rewrite decide_True by (by right). done.
    * rewrite decide_False; [done|]. by intros [?|?]%elem_of_cons.
Qed.

Lemma lookup_add_edges n ps d k :
NoDup ps →
ditems (add_edges n ps d) !! k =
let base := default (mkNodeInfo k 0 []) (ditems d !! k) in
let i1 := if decide (k = n)
          then add_npredecessors (Z.of_nat (length ps)) base else base in
if decide (k ∈ ps) then Some (append_successor n i1)
else if decide (k = n) then Some i1
else ditems d !! k.
Proof.
intros Hnd. unfold add_edges. rewrite lookup_fold_touch by done.
rewrite lookup_touch. cbn. repeat case_decide; subst; done.
Qed.

Lemma wf_add_edges n ps d : dict_wf d → dict_wf (add_edges n ps d).
Proof. intros. unfold add_edges. by apply wf_fold_touch, wf_touch. Qed.

Lemma init_ok_add G n ds d :
n ∉ dom G →
init_ok G d →
init_ok (<[n := ds]> G) (add_edges n (elements ds) d).
Proof.
intros Hn [(Hwf & Hkeys & Hinfo) Hnp].
assert (Hnd : NoDup (elements ds)) by apply NoDup_elements.
assert (Hbase : ∀ k, let base := default (mkNodeInfo k 0 []) (ditems d !! k) in
  node base = k ∧ NoDup (successors base) ∧
  (∀ m, m ∈ successors base ↔ k ∈ gdeps G m) ∧
  npredecessors base = Z.of_nat (size (gdeps G k))).
{ intros k. destruct (ditems d !! k) as [i|] eqn:E; cbn.
  - destruct (Hinfo k i E) as (? & ? & ?). split_and!; auto.
  - assert (Hk : k ∉ gnodes G).
    { intros Hk. apply Hkeys in Hk. rewrite E in Hk. by destruct Hk. }
    split_and!; [done|constructor| |].
    + intros m. split; [by intros ?%elem_of_nil|].
      intros Hm. destruct Hk. by eapply gdeps_gnodes.
    + rewrite gdeps_not_dom; [by rewrite size_empty|].
      intros Hd. apply Hk, elem_of_gnodes. by left. }
assert (Hgn : gdeps G n = ∅) by by apply gdeps_not_dom.
split; [split_and!|].
- by apply wf_add_edges.
- intros k. rewrite lookup_add_edges by done. cbn.
  rewrite elem_of_gnodes_insert by done. rewrite <- Hkeys.
  rewrite <- (elem_of_elements ds).
  repeat case_decide; split; eauto; intros [?|[?|?]]; done.
- intros k i. rewrite lookup_add_edges by done. cbn.
  destruct (Hbase k) as (Hb1 & Hb2 & Hb3 & Hb4).
  set (base := default (mkNodeInfo k 0 []) (ditems d !! k)) in *.
  assert (Hnb : n ∉ successors base).
  { rewrite Hb3, Hgn. set_solver. }
  intros Hi.
  assert (Hcases : (k ∈ ds ∧ successors i = successors base ++ [n] ∧ node i = k)
                 ∨ ((k ∉ ds) ∧ successors i = successors base ∧ node i = k)).
  { rewrite <- (elem_of_elements ds).
    repeat case_decide; simplify_eq; cbn; auto.
    right. destruct (ditems d !! k); simplify_eq/=. auto. }
  destruct Hcases as [(Hk & Hs & Hnode)|(Hk & Hs & Hnode)]; rewrite Hs.
  + split_and!; [done| |].
    * apply NoDup_app. split_and!; [done| |apply NoDup_singleton].
      intros x Hx ->%list_elem_of_singleton. done.
    * intros m. rewrite elem_of_app, list_elem_of_singleton, gdeps_insert.
      destruct (decide (m = n)) as [->|Hmn]; [by split; eauto|].
      rewrite Hb3. split; [intros [?|?]|]; by eauto.
  + split_and!; [done|done|].
    intros m. rewrite gdeps_insert.
    destruct (decide (m = n)) as [->|Hmn]; [|apply Hb3].
    split; [by intros ?|by intros ?].
- intros k i. rewrite lookup_add_edges by done. cbn.
  destruct (Hbase k) as (Hb1 & Hb2 & Hb3 & Hb4).
  set (base := default (mkNodeInfo k 0 []) (ditems d !! k)) in *.
  rewrite gdeps_insert. intros Hi.
  assert (Hcases : (k = n ∧ npredecessors i =
                      (npredecessors base + Z.of_nat (length (elements ds)))%Z)
                 ∨ (k ≠ n ∧ npredecessors i = npredecessors base)).
  { repeat case_decide; simplify_eq; cbn; auto.
    right. destruct (ditems d !! k); simplify_eq/=. auto. }
  destruct Hcases as [(Hk & Hs)|(Hk & Hs)]; rewrite Hs.
  + rewrite decide_True by done. rewrite Hb4, Hk, Hgn, size_empty.
    unfold size, set_size. cbn. lia.
  + by rewrite decide_False.
Qed.

Lemma init_ok_empty : init_ok ∅ dict_empty.
Proof.
split; [split_and!|].
- apply dict_wf_empty.
- intros n. cbn. rewrite lookup_empty, elem_of_gnodes, dom_empty.
  split; [by intros [? ?]|]. intros [?|(m & Hm)]; [set_solver|].
  unfold gdeps in Hm. rewrite lookup_empty in Hm. set_solver.
- intros n i. cbn. by rewrite lookup_empty.
- intros n i. cbn. by rewrite lookup_empty.
Qed.

Lemma add_all_ok items G d a b :
NoDup items.*1 →
(∀ k, k ∈ items.*1 → k ∉ dom G) →
init_ok G d →
∃ d', add_all items (mkSorter d None a b) = Ok (mkSorter d' None a b) ∧
      init_ok (list_to_map items ∪ G) d'.
Proof.
revert G d. induction items as [|[n ds] rest IH]; intros G d Hnd Hfresh Hok.
- exists d. split; [done|]. cbn. by rewrite (left_id_L ∅ (∪)).
- cbn in Hnd. apply NoDup_cons in Hnd as [Hn Hnd].
  assert (HnG : n ∉ dom G) by (apply Hfresh; left).
  destruct (IH (<[n := ds]> G) (add_edges n (elements ds) d)) as (d' & Hd' & Hok').
  + done.
  + intros k Hk. rewrite dom_insert.
    assert (k ≠ n) by (by intros ->).
    assert (k ∉ dom G) by (apply Hfresh; by right).
    intros [?%elem_of_singleton|?]%elem_of_union; done.
  + by apply init_ok_add.
  + exists d'. split; [done|]. cbn.
    rewrite <- insert_union_l.
    rewrite <- insert_union_r in Hok'; [done|].
    by apply not_elem_of_list_to_map.
Qed.

Lemma init_spec (graph : dict (gset string)) :
dict_wf graph →
∃ d, init graph = Ok (mkSorter d None 0 0) ∧ init_ok (ditems graph) d.
Proof.
intros Hwf. unfold init.
destruct (add_all_ok (dict_items graph) ∅ dict_empty 0 0) as (d & Hd & Hok).
- rewrite dict_items_fst by done. apply Hwf.
- intros k _. by rewrite dom_empty.
- apply init_ok_empty.
- exists d. split; [done|].
  by rewrite (right_id_L ∅ (∪)), dict_items_to_map in Hok.
Qed.

End construction.

(** ** The dictionaries built by [run] *)

Lemma graph_of_wf_gen tasks d :
  dict_wf d → dict_wf (foldl (λ d t, dict_set (name t) (deps t) d) d tasks).
Proof.
  revert d. induction tasks as [|t tasks IH]; intros d Hwf; [done|].
  cbn. by apply IH, dict_wf_set.
Qed.

Lemma graph_of_wf tasks : dict_wf (graph_of tasks).
Proof. apply graph_of_wf_gen, dict_wf_empty. Qed.

Lemma ditems_dict_set {V} k (v : V) d :
  ditems (dict_set k v d) = <[k := v]> (ditems d).
Proof. unfold dict_set. by destruct (ditems d !! k). Qed.

Lemma graph_of_items_gen tasks d (m : gmap string Task) :
  ditems d = deps <$> m →
  ditems (foldl (λ d t, dict_set (name t) (deps t) d) d tasks) =
  deps <$> foldl (λ m t, <[name t := t]> m) m tasks.
Proof.
  revert d m. induction tasks as [|t tasks IH]; intros d m Hd; [done|].
  cbn. apply IH. by rewrite ditems_dict_set, fmap_insert, Hd.
Qed.

Lemma graph_of_items tasks : ditems (graph_of tasks) = task_graph tasks.
Proof. apply graph_of_items_gen. cbn. by rewrite fmap_empty. Qed.

Lemma run_init tasks :
  ∃ d, graphlib.init (graph_of tasks) = Ok (graphlib.mkSorter d None 0 0) ∧
       init_ok (task_graph tasks) d.
Proof.
  destruct (init_spec (graph_of tasks) (graph_of_wf tasks)) as (d & ? & Hok).
  exists d. by rewrite graph_of_items in Hok.
Qed.

(** ** Cycle detection *)

Section find_cycle.
Import graphlib.
Variable n2i : dict NodeInfo.
Hypothesis n2i_wf : dict_wf n2i.
Hypothesis n2i_closed : ∀ x y, edge n2i x y → is_Some (ditems n2i !! y).

Lemma chain_mono B B' c stk its :
  B ⊆ B' → chain n2i B c stk its → chain n2i B' c stk its.
Proof.
  intros HB Hc. induction Hc as [|c x stk it its consumed H1 H2 H3 _ IH].
  - constructor.
  - econstructor; eauto. intros y Hy. destruct (H2 y Hy); auto.
Qed.

Lemma chain_child_black B c stk its :
  (∀ y, c = Some y → y ∈ B) → chain n2i B c stk its → chain n2i B None stk its.
Proof.
  intros Hc Hch. destruct Hch as [|c x stk it its consumed H1 H2 H3 Hch].
  - constructor.
  - econstructor; eauto; [|done].
    intros y Hy. destruct (H2 y Hy) as [?| ->]; auto.
Qed.

Lemma chain_reach B c stk its x y :
  chain n2i B c stk its → c = Some y → x ∈ stk → tc (edge n2i) x y.
Proof.
  intros Hch. revert x y.
  induction Hch as [|c x0 stk it its consumed H1 H2 H3 _ IH]; intros x y Hc Hx.
  - by apply elem_of_nil in Hx.
  - assert (He : edge n2i x0 y).
    { unfold edge. rewrite H1. apply elem_of_app. left. by apply H3. }
    apply elem_of_cons in Hx as [-> |Hx]; [by apply tc_once|].
    eapply tc_r; [|done]. by apply IH.
Qed.

Lemma chain_length B c stk its :
  chain n2i B c stk its → length stk = length its.
Proof. induction 1; cbn; auto. Qed.

Lemma closed_rtc (B : gset string) x y :
  (∀ x y, x ∈ B → edge n2i x y → y ∈ B) →
  x ∈ B → rtc (edge n2i) x y → y ∈ B.
Proof. intros HB Hx Hr. induction Hr; eauto. Qed.

Lemma black_cons_seen sn stk n :
  n ∉ sn → black ({[n]} ∪ sn) (n :: stk) = black sn stk.
Proof. unfold black. cbn. set_solver. Qed.

Lemma black_pop sn stk top :
  top ∉ stk → top ∈ sn → black sn stk = {[top]} ∪ black sn (top :: stk).
Proof.
  unfold black. cbn. intros Hs Ht. apply set_eq. intros x.
  rewrite elem_of_union, !elem_of_difference, elem_of_union,
    elem_of_singleton, elem_of_list_to_set.
  destruct (decide (x = top)) as [-> |]; naive_solver.
Qed.

Lemma dfs_inv_pop top stk its n2s sn :
  dfs_inv n2i None (top :: stk) ([] :: its) n2s sn →
  dfs_inv n2i None stk its (delete top n2s) sn.
Proof.
  intros (Hnd & Hn2s & Hsub & Hch & Hcl & Hac).
  apply NoDup_cons in Hnd as [Htop Hnd].
  assert (Hts : top ∈ sn) by (apply Hsub; left).
  pose proof (black_pop sn stk top Htop Hts) as HB.
  inversion Hch as [|? ? ? ? ? consumed H1 H2 H3 Hch']; subst.
  rewrite app_nil_r in H1.
  assert (Hsucc : ∀ y, edge n2i top y → y ∈ black sn (top :: stk)).
  { intros y Hy. unfold edge in Hy. rewrite H1 in Hy.
    destruct (H2 y Hy); [done|discriminate]. }
  split_and!.
  - done.
  - intros x. destruct (decide (x = top)) as [-> |Hne].
    + rewrite lookup_delete_eq. split; [by intros [? ?]|done].
    + rewrite lookup_delete_ne by done. rewrite Hn2s, elem_of_cons. naive_solver.
  - intros x Hx. apply Hsub. by right.
  - rewrite HB. eapply chain_child_black; [|eapply chain_mono; [|done]].
    + intros y [= <-]. set_solver.
    + set_solver.
  - rewrite HB. intros x y [->%elem_of_singleton|Hx]%elem_of_union He.
    + apply elem_of_union. right. by apply Hsucc.
    + apply elem_of_union. right. by eapply Hcl.
  - rewrite HB. intros x [->%elem_of_singleton|Hx]%elem_of_union; [|by apply Hac].
    intros Htc.
    assert (Hin : top ∈ black sn (top :: stk)).
    { inversion Htc as [? ? He|? y ? He Htc']; subst.
      - by apply Hsucc.
      - eapply closed_rtc; [done|by apply Hsucc|by apply tc_rtc]. }
    unfold black in Hin. cbn in Hin. set_solver.
Qed.

Lemma dfs_inv_push n info stk its n2s sn :
  n ∉ sn →
  ditems n2i !! n = Some info →
  dfs_inv n2i (Some n) stk its n2s sn →
  dfs_inv n2i None (n :: stk) (successors info :: its)
          (<[n := length stk]> n2s) ({[n]} ∪ sn).
Proof.
  intros Hn Hinfo (Hnd & Hn2s & Hsub & Hch & Hcl & Hac).
  unfold dfs_inv. rewrite black_cons_seen by done.
  split_and!; try done.
  - apply NoDup_cons. split; [|done]. intros Hin. by apply Hn, Hsub.
  - intros x. rewrite elem_of_cons. destruct (decide (x = n)) as [-> |Hne].
    + rewrite lookup_insert_eq. naive_solver.
    + rewrite lookup_insert_ne by done. rewrite Hn2s. naive_solver.
  - intros x [-> |Hx]%elem_of_cons; [set_solver|].
    apply elem_of_union. right. by apply Hsub.
  - apply (chain_cons _ _ _ _ _ _ _ []); [|by intros ? ?%elem_of_nil|done|done].
    unfold succ_of. by rewrite Hinfo.
Qed.

Lemma dfs_inv_next top stk nxt it its n2s sn :
  dfs_inv n2i None (top :: stk) ((nxt :: it) :: its) n2s sn →
  dfs_inv n2i (Some nxt) (top :: stk) (it :: its) n2s sn ∧ edge n2i top nxt.
Proof.
  intros (Hnd & Hn2s & Hsub & Hch & Hcl & Hac).
  inversion Hch as [|? ? ? ? ? consumed H1 H2 H3 Hch']; subst.
  split; [split_and!; try done|].
  - apply (chain_cons _ _ _ _ _ _ _ (consumed ++ [nxt])); [| | |done].
    + by rewrite <- app_assoc.
    + intros y [Hy| ->%list_elem_of_singleton]%elem_of_app; [|by right].
      destruct (H2 y Hy); [by left|discriminate].
    + intros y [= <-]. apply elem_of_app. right. by left.
  - unfold edge. rewrite H1. apply elem_of_app. right. by left.
Qed.

Lemma backtrack_spec stk its n2s sn :
  dfs_inv n2i None stk its n2s sn →
  match backtrack stk its n2s sn with
  | (Some n', s') =>
      dfs_inv n2i (Some n') (stack s') (itstack s') (node2stacki s') (seen s') ∧
      seen s' = sn ∧
      S (sum_list (map length (itstack s'))) = sum_list (map length its) ∧
      ∃ top, edge n2i top n'
  | (None, s') =>
      stack s' = [] ∧ itstack s' = [] ∧ seen s' = sn ∧
      dfs_inv n2i None [] [] (node2stacki s') sn
  end.
Proof.
  revert its n2s. induction stk as [|top stk IH]; intros its n2s Hinv.
  - pose proof Hinv as (_ & _ & _ & Hch & _). apply chain_length in Hch.
    destruct its; [|done]. cbn. done.
  - pose proof Hinv as (_ & _ & _ & Hch & _). apply chain_length in Hch.
    destruct its as [|it its]; [done|]. cbn.
    destruct it as [|nxt it].
    + apply dfs_inv_pop in Hinv. specialize (IH its _ Hinv).
      destruct (backtrack stk its (delete top n2s) sn) as [[n'|] s']; [|done].
      destruct IH as (? & ? & ? & ?). split_and!; try done.
    + apply dfs_inv_next in Hinv as [Hinv He]. cbn. split_and!; eauto.
Qed.

Lemma filter_ext_in (P Q : string → Prop) `{!∀ x, Decision (P x)}
    `{!∀ x, Decision (Q x)} (l : list string) :
  (∀ x, x ∈ l → P x ↔ Q x) → filter P l = filter Q l.
Proof.
  induction l as [|k l IH]; intros Hext; [done|].
  rewrite !filter_cons.
  assert (Hk : P k ↔ Q k) by (apply Hext; left).
  rewrite IH by (intros; apply Hext; by right).
  destruct (decide (P k)), (decide (Q k)); tauto.
Qed.

Lemma sum_filter_remove (f : string → nat) (l : list string) (sn : gset string) n :
  NoDup l → n ∈ l → n ∉ sn →
  sum_list (map f (filter (λ k, k ∉ {[n]} ∪ sn) l)) + f n =
  sum_list (map f (filter (λ k, k ∉ sn) l)).
Proof.
  intros Hnd Hin Hn. induction l as [|k l IH]; [by apply elem_of_nil in Hin|].
  apply NoDup_cons in Hnd as [Hk Hnd].
  rewrite !filter_cons.
  apply elem_of_cons in Hin as [-> |Hin].
  - rewrite decide_False by set_solver. rewrite decide_True by done. cbn.
    assert (Heq : filter (λ k0, k0 ∉ {[k]} ∪ sn) l = filter (λ k0, k0 ∉ sn) l).
    { apply filter_ext_in. intros x Hx.
      assert (x ≠ k) by (by intros ->). set_solver. }
    rewrite Heq. lia.
  - assert (k ≠ n) by (by intros ->).
    destruct (decide (k ∈ sn)).
    + rewrite !decide_False by set_solver. by apply IH.
    + rewrite !decide_True by set_solver. cbn. rewrite <- IH by done. lia.
Qed.

Lemma unseen_edges_add n sn :
  is_Some (ditems n2i !! n) → n ∉ sn →
  unseen_edges n2i ({[n]} ∪ sn) + length (succ_of n2i n) = unseen_edges n2i sn.
Proof.
  intros Hk Hn. unfold unseen_edges.
  apply (sum_filter_remove (λ k, length (succ_of n2i k))); [apply n2i_wf| |done].
  by apply n2i_wf.
Qed.

Lemma explore_spec fuel n s :
  dfs_inv n2i (Some n) (stack s) (itstack s) (node2stacki s) (seen s) →
  is_Some (ditems n2i !! n) →
  remaining_edges n2i (itstack s) (seen s) < fuel →
  ∃ r s', explore fuel n2i n s = Ok (r, s') ∧
    match r with
    | Some c => c ≠ [] ∧ ∃ x, tc (edge n2i) x x
    | None =>
        stack s' = [] ∧ itstack s' = [] ∧
        dfs_inv n2i None [] [] (node2stacki s') (seen s') ∧
        seen s ⊆ seen s' ∧ n ∈ seen s'
    end.
Proof.
  revert n s. induction fuel as [|fuel IH]; intros n s Hinv Hkey Hmu; [lia|].
  cbn [explore].
  assert (Hstep : ∀ stk its n2s sn,
    dfs_inv n2i None stk its n2s sn →
    remaining_edges n2i its sn < S fuel →
    seen s ⊆ sn → n ∈ sn →
    ∃ r s',
      match backtrack stk its n2s sn with
      | (Some n', s1) => explore fuel n2i n' s1
      | (None, s1) => Ok (None, s1)
      end = Ok (r, s') ∧
      match r with
      | Some c => c ≠ [] ∧ ∃ x, tc (edge n2i) x x
      | None =>
          stack s' = [] ∧ itstack s' = [] ∧
          dfs_inv n2i None [] [] (node2stacki s') (seen s') ∧
          seen s ⊆ seen s' ∧ n ∈ seen s'
      end).
  { intros stk its n2s sn Hi Hm Hsub Hnin.
    pose proof (backtrack_spec stk its n2s sn Hi) as Hb.
    destruct (backtrack stk its n2s sn) as [[n'|] s1].
    - destruct Hb as (Hi1 & Hsn & Hsum & top & He).
      destruct (IH n' s1) as (r & s' & Hr & Hpost).
      + done.
      + by eapply n2i_closed.
      + unfold remaining_edges in *. rewrite Hsn. lia.
      + exists r, s'. split; [done|]. destruct r; [done|].
        destruct Hpost as (? & ? & ? & Hs1 & ?). rewrite Hsn in Hs1.
        split_and!; try done; set_solver.
    - destruct Hb as (? & ? & Hsn & ?). exists None, s1.
      split; [done|]. rewrite Hsn. split_and!; done. }
  destruct (decide (n ∈ seen s)) as [Hseen|Hseen].
  - destruct (node2stacki s !! n) as [i|] eqn:Hidx.
    + exists (Some (drop i (rev (stack s)) ++ [n])), s. split; [done|].
      split; [by destruct (drop i (rev (stack s)))|].
      exists n. destruct Hinv as (_ & Hn2s & _ & Hch & _).
      eapply chain_reach; [done|done|]. apply Hn2s. eauto.
    + apply Hstep; [|done|done|done].
      destruct Hinv as (Hnd & Hn2s & Hsub & Hch & Hcl & Hac).
      split_and!; try done.
      eapply chain_child_black; [|done]. intros y [= <-].
      unfold black. apply elem_of_difference. split; [done|].
      rewrite elem_of_list_to_set. intros Hin. apply Hn2s in Hin.
      rewrite Hidx in Hin. by destruct Hin.
  - destruct Hkey as [info Hinfo]. unfold dict_get. rewrite Hinfo.
    apply Hstep.
    + by apply dfs_inv_push.
    + unfold remaining_edges in *. cbn.
      pose proof (unseen_edges_add n (seen s)) as Hu.
      unfold succ_of in Hu at 1. rewrite Hinfo in Hu.
      specialize (Hu ltac:(eauto) Hseen). lia.
    + set_solver.
    + set_solver.
Qed.
End find_cycle.

Section find_cycle_top.
Import graphlib.
Variable n2i : dict NodeInfo.
Hypothesis n2i_wf : dict_wf n2i.
Hypothesis n2i_closed : ∀ x y, edge n2i x y → is_Some (ditems n2i !! y).

Lemma nedges_keys :
  nedges n2i = sum_list (map (λ k, length (succ_of n2i k)) (dkeys n2i)).
Proof.
  unfold nedges, dict_values.
  assert (Hall : ∀ k, k ∈ dkeys n2i → is_Some (ditems n2i !! k))
    by (intros; by apply n2i_wf).
  induction (dkeys n2i) as [|k ks IH]; [done|]. cbn.
  destruct (Hall k) as [i Hi]; [left|]. unfold succ_of at 1. rewrite Hi. cbn.
  rewrite IH; [done|]. intros. apply Hall. by right.
Qed.

Lemma unseen_edges_le sn : unseen_edges n2i sn ≤ nedges n2i.
Proof.
  rewrite nedges_keys. unfold unseen_edges.
  induction (dkeys n2i) as [|k ks IH]; [done|].
  rewrite filter_cons. case_decide; cbn; lia.
Qed.

Lemma dfs_inv_root c n2s sn :
  dfs_inv n2i None [] [] n2s sn → dfs_inv n2i c [] [] n2s sn.
Proof.
  intros (? & ? & ? & ? & ? & ?). split_and!; try done. constructor.
Qed.

Lemma find_cycle_from_spec roots s :
  stack s = [] → itstack s = [] →
  dfs_inv n2i None [] [] (node2stacki s) (seen s) →
  (∀ r, r ∈ roots → is_Some (ditems n2i !! r)) →
  ∃ r, find_cycle_from (S (nedges n2i)) n2i roots s = Ok r ∧
    match r with
    | Some c => c ≠ [] ∧ ∃ x, tc (edge n2i) x x
    | None => ∃ sn', seen s ⊆ sn' ∧ (∀ r, r ∈ roots → r ∈ sn') ∧
                     ∀ x, x ∈ sn' → ¬ tc (edge n2i) x x
    end.
Proof.
  revert s. induction roots as [|n roots IH]; intros s Hstk Hits Hinv Hroots.
  - exists None. split; [done|]. exists (seen s). split_and!; [done| |].
    + by intros ? ?%elem_of_nil.
    + destruct Hinv as (_ & _ & _ & _ & _ & Hac). intros x Hx. apply Hac.
      unfold black. cbn. set_solver.
  - cbn [find_cycle_from].
    assert (Hrest : ∀ r, r ∈ roots → is_Some (ditems n2i !! r))
      by (intros; apply Hroots; by right).
    destruct (decide (n ∈ seen s)) as [Hseen|Hseen].
    + destruct (IH s Hstk Hits Hinv Hrest) as (r & Hr & Hpost).
      exists r. split; [done|]. destruct r; [done|].
      destruct Hpost as (sn' & ? & ? & ?). exists sn'. split_and!; try done.
      intros r [->|?]%elem_of_cons; [set_solver|auto].
    + destruct (explore_spec n2i n2i_wf n2i_closed (S (nedges n2i)) n s)
        as (r & s' & Hr & Hpost).
      * rewrite Hstk, Hits. by apply dfs_inv_root.
      * apply Hroots. left.
      * unfold remaining_edges. rewrite Hits. cbn.
        pose proof (unseen_edges_le (seen s)). lia.
      * rewrite Hr. cbn. destruct r as [c|].
        -- exists (Some c). done.
        -- destruct Hpost as (Hstk' & Hits' & Hinv' & Hsub & Hn).
           destruct (IH s' Hstk' Hits' Hinv' Hrest) as (r & Hr' & Hpost).
           exists r. split; [done|]. destruct r; [done|].
           destruct Hpost as (sn' & ? & ? & ?). exists sn'.
           split_and!; [set_solver| |done].
           intros r [->|?]%elem_of_cons; [set_solver|auto].
Qed.

Lemma dfs_inv_initial : dfs_inv n2i None [] [] ∅ ∅.
Proof.
  split_and!.
  - constructor.
  - intros x. rewrite lookup_empty. split; [by intros [? ?]|by intros ?%elem_of_nil].
  - by intros ? ?%elem_of_nil.
  - constructor.
  - intros x y Hx. unfold black in Hx. set_solver.
  - intros x Hx. unfold black in Hx. set_solver.
Qed.

Lemma find_cycle_spec rd a b :
  ∃ r, find_cycle (mkSorter n2i rd a b) = Ok r ∧
    match r with
    | Some c => c ≠ [] ∧ ∃ x, tc (edge n2i) x x
    | None => ∀ x, ¬ tc (edge n2i) x x
    end.
Proof.
  unfold find_cycle. cbn.
  destruct (find_cycle_from_spec (dkeys n2i) (mkDfs [] [] ∅ ∅))
    as (r & Hr & Hpost); try done.
  - apply dfs_inv_initial.
  - intros. by apply n2i_wf.
  - exists r. split; [done|]. destruct r; [done|].
    destruct Hpost as (sn' & _ & Hkeys & Hac). intros x Htc.
    apply (Hac x); [|done]. apply Hkeys, n2i_wf.
    assert (He : ∃ y, edge n2i x y).
    { inversion Htc; eauto. }
    destruct He as [y He]. unfold edge, succ_of in He.
    destruct (ditems n2i !! x); [eauto|]. by apply elem_of_nil in He.
Qed.
End find_cycle_top.

(** ** [prepare] *)

Lemma tc_flip_inv {A} (R : relation A) x y : tc R x y → tc (flip R) y x.
Proof.
  induction 1 as [x y H|x z y H _ IH].
  - by apply tc_once.
  - eapply tc_r; [done|]. done.
Qed.

Section sorter.
Import graphlib.
Variable G : gmap string (gset string).

Lemma edge_gdeps d x y : structure_ok G d → edge d x y ↔ x ∈ gdeps G y.
Proof.
  intros (Hwf & Hkeys & Hinfo). unfold edge, succ_of.
  destruct (ditems d !! x) as [i|] eqn:E.
  - by apply Hinfo.
  - split; [by intros ?%elem_of_nil|]. intros Hx%gdeps_gnodes.
    apply Hkeys in Hx. rewrite E in Hx. by destruct Hx.
Qed.

Lemma structure_closed d x y :
  structure_ok G d → edge d x y → is_Some (ditems d !! y).
Proof.
  intros Hs He. pose proof Hs as (_ & Hkeys & _). apply Hkeys.
  apply (edge_gdeps d x y Hs) in He. apply elem_of_gnodes. left.
  by eapply gdeps_dom.
Qed.

Lemma tc_edge_gdeps d x :
  structure_ok G d →
  tc (edge d) x x ↔ tc (λ n m, m ∈ gdeps G n) x x.
Proof.
  intros Hs. split; intros Htc%tc_flip_inv.
  - eapply tc_congruence with (f := id); [|done].
    intros a b Hab. unfold flip in Hab. by apply (edge_gdeps d b a Hs).
  - eapply tc_congruence with (f := id); [|done].
    intros a b Hab. unfold flip in Hab. by apply (edge_gdeps d a b Hs).
Qed.

Lemma prepare_spec d :
  init_ok G d →
  (∃ c, prepare (mkSorter d None 0 0)
          = Raise (CycleError "nodes are in a cycle" c) ∧
        ∃ x, tc (λ n m, m ∈ gdeps G n) x x)
  ∨ (prepare (mkSorter d None 0 0)
       = Ok (mkSorter d (Some (initial_ready d)) 0 0) ∧
     ∀ x, ¬ tc (λ n m, m ∈ gdeps G n) x x).
Proof.
  intros [Hs Hnp]. unfold prepare. cbn.
  destruct (find_cycle_spec d (proj1 Hs)
              (λ x y, structure_closed d x y Hs)
              (Some (initial_ready d)) 0 0) as (r & Hr & Hpost).
  rewrite Hr. cbn. destruct r as [c|].
  - left. destruct Hpost as (Hc & x & Hx). destruct c as [|c0 c]; [done|].
    eexists. split; [done|]. exists x. by apply (tc_edge_gdeps d x Hs).
  - right. split; [done|]. intros x Hx. apply (Hpost x).
    by apply (tc_edge_gdeps d x Hs).
Qed.
End sorter.

(** ** The sorter while the loop runs *)

Section sorter_run.
Import graphlib.
Variable G : gmap string (gset string).

(** Changing [npredecessors] fields leaves the static structure alone. *)
Lemma structure_ok_same d d' :
  structure_ok G d →
  dkeys d' = dkeys d →
  (∀ k, match ditems d' !! k, ditems d !! k with
        | Some i', Some i => node i' = node i ∧ successors i' = successors i
        | None, None => True
        | _, _ => False
        end) →
  structure_ok G d'.
Proof.
  intros ([Hnd Hk] & Hkeys & Hinfo) Hdk Hsame.
  assert (Hsome : ∀ k, is_Some (ditems d' !! k) ↔ is_Some (ditems d !! k)).
  { intros k. specialize (Hsame k).
    destruct (ditems d' !! k), (ditems d !! k); done. }
  split_and!.
  - split; rewrite Hdk; [done|]. intros k. by rewrite Hk, Hsome.
  - intros n. by rewrite Hsome.
  - intros n i' Hi'. specialize (Hsame n). rewrite Hi' in Hsame.
    destruct (ditems d !! n) as [i|] eqn:E; [|done].
    destruct Hsame as [-> ->]. by apply Hinfo.
Qed.

Lemma structure_ok_alter_np f n d :
  (∀ i, node (f i) = node i ∧ successors (f i) = successors i) →
  structure_ok G d → structure_ok G (dict_alter f n d).
Proof.
  intros Hf Hs. eapply structure_ok_same; [done|done|].
  intros k. cbn. rewrite lookup_alter. case_decide; subst.
  - destruct (ditems d !! k); cbn; [apply Hf|done].
  - by destruct (ditems d !! k).
Qed.

Lemma lookup_fold_alter (f : NodeInfo → NodeInfo) ks d k :
  (∀ i, f (f i) = f i) →
  ditems (foldl (λ d n, dict_alter f n d) d ks) !! k =
  if decide (k ∈ ks) then f <$> ditems d !! k else ditems d !! k.
Proof.
  intros Hf. revert d. induction ks as [|n ks IH]; intros d.
  - cbn. rewrite decide_False; [done|]. by intros ?%elem_of_nil.
  - cbn. rewrite IH. cbn.
    destruct (decide (k = n)) as [->|Hne].
    + rewrite lookup_alter_eq. rewrite (decide_True (P := n ∈ n :: ks)) by left.
      case_decide; [|done]. destruct (ditems d !! n); cbn; [|done].
      by rewrite Hf.
    + rewrite lookup_alter_ne by done.
      destruct (decide (k ∈ ks)).
      * rewrite decide_True by (by right). done.
      * rewrite decide_False; [done|]. by intros [?|?]%elem_of_cons.
Qed.

Lemma dkeys_fold_alter (f : NodeInfo → NodeInfo) ks d :
  dkeys (foldl (λ d n, dict_alter f n d) d ks) = dkeys d.
Proof.
  revert d. induction ks as [|n ks IH]; intros d; [done|]. cbn. by rewrite IH.
Qed.

Lemma mark_out_fold ks d :
  (∀ n, n ∈ ks → is_Some (ditems d !! n)) →
  mark_out ks d
  = Ok (foldl (λ d n, dict_alter (set_npredecessors NODE_OUT) n d) d ks).
Proof.
  revert d. induction ks as [|k ks IH]; intros d Hall; [done|].
  cbn. unfold dict_get. destruct (Hall k) as [i Hi]; [left|]. rewrite Hi.
  apply IH. intros n Hn. cbn. rewrite lookup_alter.
  destruct (Hall n) as [j Hj]; [by right|].
  case_decide; subst; rewrite ?Hi, ?Hj; by eexists.
Qed.

Lemma initial_ready_gen (d : dict NodeInfo) (ks : list string) :
  NoDup ks →
  (∀ k i, ditems d !! k = Some i → node i = k) →
  let l := map node (filter (λ i, npredecessors i = 0%Z)
                            (omap (λ k, ditems d !! k) ks)) in
  NoDup l ∧
  ∀ m, m ∈ l ↔ m ∈ ks ∧ ∃ i, ditems d !! m = Some i ∧ npredecessors i = 0%Z.
Proof.
  intros Hnd Hnode. induction ks as [|k ks IH]; cbn.
  - split; [constructor|]. intros m. split; [by intros ?%elem_of_nil|].
    by intros [?%elem_of_nil _].
  - apply NoDup_cons in Hnd as [Hk Hnd]. destruct (IH Hnd) as [IH1 IH2].
    cbn in IH1, IH2.
    destruct (ditems d !! k) as [i|] eqn:E.
    + rewrite filter_cons. pose proof (Hnode k i E) as Hn.
      destruct (decide (npredecessors i = 0%Z)) as [Hz|Hz]; cbn.
      * split.
        -- apply NoDup_cons. split; [|done]. rewrite Hn, IH2. naive_solver.
        -- intros m. rewrite !elem_of_cons, IH2, Hn.
           split; [intros [->|[? ?]]; eauto|].
           intros [[->|?] ?]; eauto.
      * split; [done|]. intros m. rewrite IH2, elem_of_cons.
        split; [naive_solver|]. intros [[->|?] (i' & Hi' & ?)]; [|eauto].
        rewrite E in Hi'. by simplify_eq.
    + split; [done|]. intros m. rewrite IH2, elem_of_cons.
      split; [naive_solver|]. intros [[->|?] (i' & Hi' & ?)]; [|eauto].
      rewrite E in Hi'. done.
Qed.

Lemma status_initial n :
  status G ∅ ∅ [] n = Z.of_nat (size (gdeps G n)).
Proof.
  unfold status. rewrite !decide_False by set_solver.
  rewrite difference_empty_L. f_equal. lia.
Qed.

Lemma prepare_inv d :
  init_ok G d → sorter_inv G ∅ ∅ [] d (initial_ready d).
Proof.
  intros [Hs Hnp]. pose proof Hs as ([Hnd Hk] & Hkeys & Hinfo).
  destruct (initial_ready_gen d (dkeys d) Hnd) as [Hr1 Hr2].
  { intros k i Hi. by apply Hinfo. }
  split_and!; try done.
  - intros n i Hi. rewrite status_initial. by apply Hnp.
  - intros m. unfold initial_ready, dict_values. rewrite Hr2, Hk, Hkeys.
    split.
    + intros (Hm & i & Hi & Hz).
      split_and!;
        try first [done|apply not_elem_of_empty|by intros ?%elem_of_nil].
      rewrite (Hnp m i Hi) in Hz.
      assert (Hsz : size (gdeps G m) = 0) by lia.
      apply size_empty_inv in Hsz. clear -Hsz. set_solver.
    + intros (Hm & _ & _ & Hsub & _). split; [done|].
      apply Hkeys in Hm as [i Hi]. exists i. split; [done|].
      rewrite (Hnp m i Hi).
      assert (gdeps G m = ∅) as -> by (clear -Hsub; set_solver).
      by rewrite size_empty.
Qed.

Lemma get_ready_spec D d R a b :
  sorter_inv G D ∅ [] d R →
  ∃ d', get_ready (mkSorter d (Some R) a b)
          = Ok (R, mkSorter d' (Some []) (a + length R) b) ∧
        sorter_inv G D (list_to_set R) [] d' [] ∧
        dkeys d' = dkeys d.
Proof.
  intros (Hs & Hst & Hnd & Hready & Hdisj & Hclosed).
  unfold get_ready. cbn. rewrite mark_out_fold.
  2:{ intros n Hn. apply Hs. by apply Hready in Hn as (? & _). }
  cbn. eexists. split; [done|].
  set (d' := foldl _ d R).
  assert (Hlk : ∀ k, ditems d' !! k =
    if decide (k ∈ R) then set_npredecessors NODE_OUT <$> ditems d !! k
    else ditems d !! k).
  { intros k. apply lookup_fold_alter. by intros []. }
  split; [split_and!|apply dkeys_fold_alter].
  - eapply structure_ok_same; [done|apply dkeys_fold_alter|].
    intros k. rewrite Hlk. case_decide; destruct (ditems d !! k); done.
  - intros n i. rewrite Hlk. unfold status.
    destruct (decide (n ∈ R)) as [Hn|Hn].
    + apply Hready in Hn as Hn'. destruct Hn' as (_ & HnD & _).
      rewrite decide_False by done.
      rewrite decide_True by (by apply elem_of_list_to_set).
      destruct (ditems d !! n); intros; by simplify_eq/=.
    + intros Hi. rewrite (Hst n i Hi). unfold status.
      destruct (decide (n ∈ D)); [done|].
      rewrite decide_False by apply not_elem_of_empty.
      rewrite (decide_False (P := n ∈ list_to_set R));
        [done|by rewrite elem_of_list_to_set].
  - constructor.
  - intros m. split; [by intros ?%elem_of_nil|].
    intros (Hm & HmD & HmR & Hsub & _). destruct HmR.
    apply elem_of_list_to_set, Hready.
    split_and!; try first [done|apply not_elem_of_empty|by intros ?%elem_of_nil].
  - intros x HxD HxR%elem_of_list_to_set. apply Hready in HxR. naive_solver.
  - intros m [Hm|Hm%elem_of_list_to_set]%elem_of_union.
    + apply Hclosed. apply elem_of_union. by left.
    + apply Hready in Hm. naive_solver.
Qed.

Lemma size_difference_in (X D : gset string) n :
  n ∈ X → n ∉ D → size (X ∖ D) = S (size (X ∖ ({[n]} ∪ D))).
Proof.
  intros Hx Hd.
  assert (X ∖ D = {[n]} ∪ X ∖ ({[n]} ∪ D)) as ->.
  { apply set_eq. intros x. destruct (decide (x = n)); set_solver. }
  rewrite size_union by set_solver. by rewrite size_singleton.
Qed.

Lemma release_spec D P pend d ready :
  sorter_inv G D P pend d ready →
  NoDup pend →
  (∀ s, s ∈ pend → s ∈ gnodes G ∧ (s ∉ D) ∧ s ∉ P) →
  ∃ d' ready', release pend d ready = Ok (d', ready') ∧
               sorter_inv G D P [] d' ready' ∧ dkeys d' = dkeys d.
Proof.
  revert d ready. induction pend as [|s pend IH]; intros d ready Hinv Hnd Hpend.
  - exists d, ready. done.
  - apply NoDup_cons in Hnd as [Hs Hnd].
    destruct Hinv as (Hstr & Hst & Hrnd & Hready & Hdisj & Hclosed).
    destruct (Hpend s) as (HsG & HsD & HsP); [left|].
    pose proof Hstr as (_ & Hkeys & _).
    apply Hkeys in HsG as Hlk. destruct Hlk as [info Hinfo].
    cbn [release]. unfold dict_get. rewrite Hinfo.
    pose proof (Hst s info Hinfo) as Hnp. unfold status in Hnp.
    rewrite !decide_False in Hnp by done.
    rewrite decide_True in Hnp by left.
    set (d1 := dict_alter (add_npredecessors (-1)) s d).
    assert (Hstr1 : structure_ok G d1).
    { apply structure_ok_alter_np; [by intros []|done]. }
    assert (Hst1 : ∀ n i, ditems d1 !! n = Some i →
                          npredecessors i = status G D P pend n).
    { intros n i. unfold d1. cbn. rewrite lookup_alter.
      destruct (decide (s = n)) as [<-|Hne].
      - rewrite Hinfo. cbn. intros [= <-]. cbn. rewrite Hnp.
        unfold status. rewrite !decide_False by done. lia.
      - intros Hi. rewrite (Hst n i Hi). unfold status.
        destruct (decide (n ∈ D)); [done|]. destruct (decide (n ∈ P)); [done|].
        destruct (decide (n ∈ pend)).
        + rewrite decide_True by (by right). done.
        + rewrite decide_False; [done|]. by intros [?|?]%elem_of_cons. }
    assert (Hrest : ∀ s0, s0 ∈ pend → s0 ∈ gnodes G ∧ (s0 ∉ D) ∧ s0 ∉ P)
      by (intros; apply Hpend; by right).
    assert (Hsr : s ∉ ready).
    { intros Hin%Hready. destruct Hin as (_ & _ & _ & _ & Hn). apply Hn. left. }
    destruct (decide ((npredecessors info - 1)%Z = 0%Z)) as [Hz|Hz].
    + destruct (IH d1 (ready ++ [s])) as (d' & ready' & Hrel & Hinv' & Hdk);
        [|done|done|].
      * split_and!; try done.
        -- apply NoDup_app. split_and!; [done| |apply NoDup_singleton].
           by intros x Hx ->%list_elem_of_singleton.
        -- intros m. rewrite elem_of_app, list_elem_of_singleton, Hready.
           assert (Hsub : gdeps G s ⊆ D).
           { rewrite Hnp in Hz.
             assert (Hsz : size (gdeps G s ∖ D) = 0) by lia.
             apply size_empty_inv in Hsz. set_solver. }
           split.
           ++ intros [(? & ? & ? & ? & Hm)| ->].
              ** split_and!; try done. intros ?. apply Hm. by right.
              ** split_and!; done.
           ++ intros (? & ? & ? & ? & Hm).
              destruct (decide (m = s)) as [->|Hne]; [by right|left].
              split_and!; try done. by intros [?|?]%elem_of_cons.
      * exists d', ready'. split_and!; try done.
    + destruct (IH d1 ready) as (d' & ready' & Hrel & Hinv' & Hdk);
        [|done|done|].
      * split_and!; try done.
        intros m. rewrite Hready.
        assert (Hsub : ¬ gdeps G s ⊆ D).
        { intros Hsub. apply Hz. rewrite Hnp.
          assert (gdeps G s ∖ D = ∅) as -> by set_solver.
          rewrite size_empty. lia. }
        split.
        -- intros (? & ? & ? & ? & Hm). split_and!; try done.
           intros ?. apply Hm. by right.
        -- intros (? & ? & ? & ? & Hm). split_and!; try done.
           intros [->|?]%elem_of_cons; done.
      * exists d', ready'. split_and!; try done.
Qed.

Lemma done_spec D P d ready n a b :
  sorter_inv G D P [] d ready →
  n ∈ P →
  ∃ d' ready', done n (mkSorter d (Some ready) a b)
                 = Ok (mkSorter d' (Some ready') a (S b)) ∧
               sorter_inv G ({[n]} ∪ D) (P ∖ {[n]}) [] d' ready' ∧
               dkeys d' = dkeys d.
Proof.
  intros (Hstr & Hst & Hrnd & Hready & Hdisj & Hclosed) HnP.
  pose proof Hstr as (_ & Hkeys & Hinfo).
  destruct (Hclosed n) as [HnG HnD]; [set_solver|].
  assert (HnnD : n ∉ D) by set_solver.
  apply Hkeys in HnG as Hlk. destruct Hlk as [info Hi].
  unfold done. cbn. unfold dict_get. rewrite Hi.
  pose proof (Hst n info Hi) as Hnp. unfold status in Hnp.
  rewrite decide_False in Hnp by done. rewrite decide_True in Hnp by done.
  rewrite Hnp. rewrite decide_False by (by intros ?).
  destruct (Hinfo n info Hi) as (_ & Hsnd & Hsucc).
  set (d1 := dict_alter (set_npredecessors NODE_DONE) n d).
  assert (Hnself : n ∉ gdeps G n) by set_solver.
  destruct (release_spec ({[n]} ∪ D) (P ∖ {[n]}) (successors info) d1 ready)
    as (d' & ready' & Hrel & Hinv' & Hdk); [|done| |].
  - split_and!.
    + apply structure_ok_alter_np; [by intros []|done].
    + intros k i. unfold d1. cbn. rewrite lookup_alter.
      destruct (decide (n = k)) as [<-|Hne].
      * rewrite Hi. cbn. intros [= <-]. cbn. unfold status.
        rewrite decide_True by set_solver. done.
      * intros Hk. rewrite (Hst k i Hk). unfold status.
        destruct (decide (k ∈ D)); [by rewrite decide_True by set_solver|].
        rewrite (decide_False (P := k ∈ {[n]} ∪ D)) by set_solver.
        destruct (decide (k ∈ P)); [by rewrite decide_True by set_solver|].
        rewrite (decide_False (P := k ∈ P ∖ {[n]})) by set_solver.
        rewrite (decide_False (P := k ∈ [])) by (by intros ?%elem_of_nil).
        destruct (decide (k ∈ successors info)) as [Hks|Hks].
        -- apply Hsucc in Hks.
           rewrite (size_difference_in _ _ n) by done. f_equal. lia.
        -- assert (n ∉ gdeps G k) by (by rewrite <- Hsucc).
           assert (gdeps G k ∖ ({[n]} ∪ D) = gdeps G k ∖ D) as -> by set_solver.
           done.
    + done.
    + intros m. rewrite Hready. rewrite Hsucc. split.
      * intros (? & ? & ? & ? & _).
        assert (m ≠ n) by (by intros ->).
        split_and!; [done|set_solver|set_solver|set_solver|set_solver].
      * intros (? & ? & ? & ? & ?).
        split_and!; [done|set_solver|set_solver|set_solver|by intros ?%elem_of_nil].
    + set_solver.
    + intros m Hm.
      assert (Hm' : m ∈ D ∪ P) by set_solver.
      apply Hclosed in Hm'. set_solver.
  - intros s Hs%Hsucc.
    split_and!.
    + apply elem_of_gnodes. left. by eapply gdeps_dom.
    + intros [->%elem_of_singleton|HsD]%elem_of_union; [done|].
      destruct (Hclosed s); set_solver.
    + intros HsP. destruct (Hclosed s); set_solver.
  - exists d', ready'. rewrite Hrel. cbn. split_and!; try done.
Qed.
End sorter_run.

(** ** The scheduling loop *)

Section loop.
Variable tasks : list Task.
Variable w : world.
Local Abbreviation G := (task_graph tasks).
Local Abbreviation bn := (by_name_of tasks).

Lemma declared_dec n : Decision (declared tasks n).
Proof. unfold declared. apply _. Defined.

Lemma first_undeclared (l : list string) :
  Forall (declared tasks) l ∨
  ∃ pre x post, l = pre ++ x :: post ∧ Forall (declared tasks) pre ∧
                ¬ declared tasks x.
Proof.
  induction l as [|n l IH]; [by left|].
  destruct (declared_dec n) as [Hn|Hn].
  - destruct IH as [IH|(pre & x & post & -> & Hpre & Hx)].
    + left. by constructor.
    + right. exists (n :: pre), x, post. split_and!; [done|by constructor|done].
  - right. exists [], n, l. split_and!; [done|constructor|done].
Qed.

Lemma first_failure (l : list string) :
  Forall (declared tasks) l →
  Forall (λ m, ∃ v, returns tasks w m v) l ∨
  ∃ pre n post e, l = pre ++ n :: post ∧
                  Forall (λ m, ∃ v, returns tasks w m v) pre ∧
                  raises tasks w n e.
Proof.
  induction 1 as [|n l [t Ht] _ IH]; [by left|].
  destruct (action t (env w n)) as [v|e] eqn:E.
  - assert (Hn : ∃ v, returns tasks w n v) by (exists v, t; done).
    destruct IH as [IH|(pre & x & post & e & -> & Hpre & Hx)].
    + left. by constructor.
    + right. exists (n :: pre), x, post, e.
      split_and!; [done|by constructor|done].
  - right. exists [], n, l, e. split_and!; [done|constructor|].
    by exists t.
Qed.

Lemma future_of_returns n v : returns tasks w n v → future_of tasks w n = Returns v.
Proof. intros (t & Ht & Hv). unfold future_of. by rewrite Ht. Qed.

Lemma future_of_raises n e : raises tasks w n e → future_of tasks w n = Raises e.
Proof. intros (t & Ht & Hv). unfold future_of. by rewrite Ht. Qed.

Lemma returns_declared n v : returns tasks w n v → declared tasks n.
Proof. intros (t & Ht & _). by exists t. Qed.

(** *** [for name in ready] *)

Lemma submit_all_ok ready futs st :
  Forall (declared tasks) ready →
  ∃ st', submit_all w bn ready futs st
           = (st', Ok (futs ++ map (λ n, (future_of tasks w n, n)) ready)) ∧
         ts st' = ts st ∧ results st' = results st ∧
         trace st' = trace st ++ map Submit ready.
Proof.
  intros Hall. revert futs st.
  induction Hall as [|n ready [t Ht] _ IH]; intros futs st.
  - exists st. cbn. by rewrite !app_nil_r.
  - cbn. rewrite Ht.
    destruct (IH (futs ++ [(action t (env w n), n)])
                 (emit (Submit n) (ran_append n (print (RunLine n) st))))
      as (st' & Hst' & ? & ? & Htr).
    exists st'. rewrite Hst'. split_and!; try done.
    + do 2 f_equal. rewrite <- app_assoc. cbn. unfold future_of at 2.
      by rewrite Ht.
    + rewrite Htr. cbn. by rewrite <- app_assoc.
Qed.

Lemma submit_all_key_error pre x post futs st :
  Forall (declared tasks) pre →
  ¬ declared tasks x →
  ∃ st', submit_all w bn (pre ++ x :: post) futs st = (st', Raise (KeyError x)) ∧
         trace st' = trace st ++ map Submit pre.
Proof.
  intros Hall Hx. revert futs st.
  induction Hall as [|n pre [t Ht] _ IH]; intros futs st.
  - cbn. destruct (by_name_of tasks !! x) eqn:E.
    + destruct Hx. by eexists.
    + eexists. split; [done|]. cbn. by rewrite app_nil_r.
  - cbn. rewrite Ht.
    destruct (IH (futs ++ [(action t (env w n), n)])
                 (emit (Submit n) (ran_append n (print (RunLine n) st))))
      as (st' & Hst' & Htr).
    exists st'. split; [done|]. rewrite Htr. cbn. by rewrite <- app_assoc.
Qed.

(** *** [for fut in as_completed(futs)] *)

Lemma as_completed_names (R : list string) :
  ∃ pi, as_completed w (map (λ n, (future_of tasks w n, n)) R)
          = map (λ n, (future_of tasks w n, n)) pi ∧ pi ≡ₚ R.
Proof.
  set (f := λ n, (future_of tasks w n, n)).
  pose proof (as_completed_perm w (map f R)) as Hp.
  set (l := as_completed w (map f R)) in *.
  exists (l.*2). split.
  - assert (Hall : Forall (λ p, p = f p.2) l).
    { apply Forall_forall. intros p Hp'. rewrite Hp in Hp'.
      apply list_elem_of_fmap in Hp' as (n & -> & _). done. }
    clear Hp. induction Hall as [|p l Hp _ IH]; [done|].
    cbn. by rewrite <- Hp, <- IH.
  - rewrite Hp. clear. induction R as [|n R IH]; [done|]. cbn. by rewrite IH.
Qed.

Lemma results_for_insert D results n v :
  results_for tasks w D results →
  returns tasks w n v →
  results_for tasks w ({[n]} ∪ D) (<[n := v]> results).
Proof.
  intros Hr Hv k. destruct (decide (k = n)) as [->|Hne].
  - rewrite lookup_insert_eq. split; [set_solver|done].
  - rewrite lookup_insert_ne by done. specialize (Hr k).
    destruct (results !! k); [split; [set_solver|tauto]|set_solver].
Qed.

Lemma collect_ok pi : ∀ st D P d ready a b,
  ts st = graphlib.mkSorter d (Some ready) a b →
  sorter_inv G D P [] d ready →
  results_for tasks w D (results st) →
  NoDup pi →
  (∀ n, n ∈ pi → n ∈ P) →
  Forall (λ m, ∃ v, returns tasks w m v) pi →
  ∃ st' d' ready',
    collect (map (λ n, (future_of tasks w n, n)) pi) st = (st', Ok tt) ∧
    trace st' = trace st ++ map Done pi ∧
    ts st' = graphlib.mkSorter d' (Some ready') a (b + length pi) ∧
    sorter_inv G (list_to_set pi ∪ D) (P ∖ list_to_set pi) [] d' ready' ∧
    results_for tasks w (list_to_set pi ∪ D) (results st') ∧
    dkeys d' = dkeys d.
Proof.
  induction pi as [|n pi IH]; intros st D P d ready a b Hts Hinv Hres Hnd HP Hall.
  - exists st, d, ready. cbn. rewrite app_nil_r, Nat.add_0_r.
    rewrite (left_id_L ∅ (∪)), difference_empty_L. done.
  - apply NoDup_cons in Hnd as [Hn Hnd].
    apply Forall_cons in Hall as [[v Hv] Hall].
    cbn [map collect]. rewrite (future_of_returns n v Hv). cbn [ts done_append print set_result].
    rewrite Hts.
    destruct (done_spec G D P d ready n a b Hinv) as (d1 & ready1 & Hd & Hinv1 & Hdk);
      [apply HP; left|].
    rewrite Hd.
    destruct (IH (emit (Done n) (set_ts (graphlib.mkSorter d1 (Some ready1) a (S b))
                   (done_append n (print (DoneLine n) (set_result n v st)))))
                 ({[n]} ∪ D) (P ∖ {[n]}) d1 ready1 a (S b))
      as (st' & d' & ready' & Hc & Htr & Hts' & Hinv' & Hres' & Hdk');
      try done.
    + cbn. by apply results_for_insert.
    + intros k Hk. apply elem_of_difference. split; [apply HP; by right|].
      intros ->%elem_of_singleton. done.
    + exists st', d', ready'. split_and!; try done.
      * rewrite Htr. cbn. by rewrite <- app_assoc.
      * rewrite Hts'. f_equal. cbn. lia.
      * cbn. replace ({[n]} ∪ list_to_set pi ∪ D) with (list_to_set pi ∪ ({[n]} ∪ D))
          by (clear; set_solver).
        replace (P ∖ ({[n]} ∪ list_to_set pi)) with (P ∖ {[n]} ∖ list_to_set pi)
          by (clear; set_solver).
        done.
      * cbn. replace ({[n]} ∪ list_to_set pi ∪ D) with (list_to_set pi ∪ ({[n]} ∪ D))
          by (clear; set_solver).
        done.
      * congruence.
Qed.

Lemma collect_app l1 l2 st :
  collect (l1 ++ l2) st =
  match collect l1 st with
  | (st', Ok _) => collect l2 st'
  | other => other
  end.
Proof.
  revert st. induction l1 as [|[fut n] l1 IH]; intros st; [done|].
  cbn. destruct fut as [v|e]; [|done].
  destruct (graphlib.done n _) as [ts'| |]; [|done|done].
  apply IH.
Qed.

Lemma collect_failure pre n post e : ∀ st D P d ready a b,
  ts st = graphlib.mkSorter d (Some ready) a b →
  sorter_inv G D P [] d ready →
  results_for tasks w D (results st) →
  NoDup (pre ++ n :: post) →
  (∀ k, k ∈ pre ++ n :: post → k ∈ P) →
  Forall (λ m, ∃ v, returns tasks w m v) pre →
  raises tasks w n e →
  ∃ st',
    collect (map (λ n, (future_of tasks w n, n)) (pre ++ n :: post)) st
      = (st', Raise e) ∧
    trace st' = trace st ++ map Done pre.
Proof.
  intros st D P d ready a b Hts Hinv Hres Hnd HP Hall Hn.
  rewrite map_app, collect_app.
  apply NoDup_app in Hnd as (Hnd & _ & _).
  destruct (collect_ok pre st D P d ready a b) as (st' & d' & ready' & Hc & Htr & _);
    try done.
  { intros k Hk. apply HP, elem_of_app. by left. }
  rewrite Hc. cbn. rewrite (future_of_raises n e Hn). eauto.
Qed.
End loop.

Section loop_run.
Variable tasks : list Task.
Variable w : world.
Local Abbreviation G := (task_graph tasks).
Local Abbreviation bn := (by_name_of tasks).

Lemma elem_of_ready_set D m :
  m ∈ ready_set tasks D ↔
  m ∈ task_nodes tasks ∧ (m ∉ D) ∧ task_deps tasks m ⊆ D.
Proof. unfold ready_set. rewrite elem_of_filter. tauto. Qed.

Lemma ready_characterised D d ready m :
  sorter_inv G D ∅ [] d ready → m ∈ ready ↔ m ∈ ready_set tasks D.
Proof.
  intros (_ & _ & _ & Hready & _). rewrite Hready, elem_of_ready_set.
  split.
  - intros (? & ? & _ & ? & _). done.
  - intros (? & ? & ?).
    split_and!; try first [done|apply not_elem_of_empty|by intros ?%elem_of_nil].
Qed.

Lemma run_loop_spec fuel : ∀ st D,
  loop_inv tasks w D st →
  D ⊆ task_nodes tasks →
  size (task_nodes tasks ∖ D) < fuel →
  ∃ st' r evs,
    run_loop fuel w bn st = (st', r) ∧
    trace st' = trace st ++ evs ∧
    match r with
    | Ok _ => ∃ D', loop_spec tasks w D evs (Ok D') ∧
                    results_for tasks w D' (results st')
    | Raise e => loop_spec tasks w D evs (Raise e)
    | OutOfFuel => False
    end.
Proof.
  induction fuel as [|fuel IH]; intros st D Hinv HD Hfuel; [lia|].
  destruct Hinv as (d & ready & b & Hts & Hsinv & Hres & Hlen).
  cbn [run_loop]. rewrite Hts. unfold graphlib.is_active.
  cbn [graphlib.ready_nodes graphlib.nfinished graphlib.npassedout].
  rewrite (bool_decide_eq_false_2 (b < b)) by lia. cbn [orb].
  destruct (decide (ready = [])) as [->|Hne].
  - rewrite bool_decide_eq_false_2 by (by intros ?).
    exists st, (Ok tt), []. rewrite app_nil_r. split_and!; try done.
    exists D. split; [|done]. apply loop_stop.
    apply set_eq. intros m. rewrite <- (ready_characterised D d [] m Hsinv).
    split; [by intros ?%elem_of_nil|by intros ?%not_elem_of_empty].
  - rewrite bool_decide_eq_true_2 by done.
    assert (Hbatch : ready_batch tasks D ready).
    { split_and!; [done|apply Hsinv|].
      intros m. by apply (ready_characterised D d ready m). }
    destruct (get_ready_spec G D d ready b b Hsinv) as (d1 & Hget & Hinv1 & Hdk1).
    rewrite Hget.
    set (st1 := emit (GetReady ready)
                  (set_ts (graphlib.mkSorter d1 (Some []) (b + length ready) b) st)).
    destruct (first_undeclared tasks ready)
      as [Hdecl|(pre & x & post & Hsplit & Hpre & Hx)].
    + destruct (submit_all_ok tasks w ready [] st1 Hdecl)
        as (st2 & Hsub & Hts2 & Hres2 & Htr2).
      rewrite Hsub. cbn [app].
      destruct (as_completed_names tasks w ready) as (pi & Hpi & Hperm).
      rewrite Hpi.
      assert (Hndpi : NoDup pi) by (rewrite Hperm; apply Hsinv).
      assert (HpiP : ∀ n, n ∈ pi → n ∈ (list_to_set ready : gset string)).
      { intros n Hn. rewrite Hperm in Hn. by apply elem_of_list_to_set. }
      assert (Hdeclpi : Forall (declared tasks) pi) by (by rewrite Hperm).
      destruct (first_failure tasks w pi Hdeclpi)
        as [Hall|(pre & n & post & e & Hsplit & Hpre & Hn)].
      * destruct (collect_ok tasks w pi st2 D (list_to_set ready) d1 []
                    (b + length ready) b)
          as (st3 & d3 & ready3 & Hc & Htr3 & Hts3 & Hinv3 & Hres3 & Hdk3);
          try done.
        { by rewrite Hres2. }
        rewrite Hc.
        assert (Hset : (list_to_set pi : gset string) = list_to_set ready).
        { apply set_eq. intros m. rewrite !elem_of_list_to_set. by rewrite Hperm. }
        rewrite Hset in Hinv3, Hres3.
        rewrite difference_diag_L in Hinv3.
        rewrite (comm_L (∪)) in Hinv3, Hres3.
        assert (Hsubnodes : list_to_set ready ⊆ task_nodes tasks ∖ D).
        { intros m Hm%elem_of_list_to_set.
          apply (ready_characterised D d ready m Hsinv), elem_of_ready_set in Hm.
          apply elem_of_difference. tauto. }
        destruct (IH st3 (D ∪ list_to_set ready)) as (st4 & r & evs & Hrun & Htr4 & Hpost).
        { exists d3, ready3, (b + length ready). split_and!; try done.
          - rewrite Hts3. by rewrite Hperm.
          - congruence. }
        { clear -HD Hsubnodes. set_solver. }
        { assert (Hlt : task_nodes tasks ∖ (D ∪ list_to_set ready)
                        ⊂ task_nodes tasks ∖ D).
          { destruct ready as [|r0 ready']; [done|].
            assert (r0 ∈ task_nodes tasks ∖ D)
              by (apply Hsubnodes, elem_of_list_to_set; left).
            split; [clear; set_solver|].
            intros Hsb. specialize (Hsb r0).
            assert (r0 ∈ (list_to_set (r0 :: ready') : gset string))
              by (apply elem_of_list_to_set; left).
            clear -Hsb H H0. set_solver. }
          apply subset_size in Hlt. lia. }
        exists st4, r, (GetReady ready :: map Submit ready ++ map Done pi ++ evs).
        split_and!.
        -- done.
        -- rewrite Htr4, Htr3, Htr2. subst st1. cbn.
           rewrite <- !app_assoc. done.
        -- assert (Hallr : Forall (λ m, ∃ v, returns tasks w m v) ready)
             by (by rewrite <- Hperm).
           destruct r as [[]|e|]; [|by apply loop_round|done].
           destruct Hpost as (D' & Hspec & Hres'). exists D'.
           split; [by apply loop_round|done].
      * destruct (collect_failure tasks w pre n post e st2 D (list_to_set ready)
                    d1 [] (b + length ready) b)
          as (st3 & Hc & Htr3); try done.
        { by rewrite Hres2. }
        { by rewrite <- Hsplit. }
        { by rewrite <- Hsplit. }
        rewrite <- Hsplit in Hc. rewrite Hc.
        exists st3, (Raise e), (GetReady ready :: map Submit ready ++ map Done pre).
        split_and!; [done| |].
        -- rewrite Htr3, Htr2. subst st1. cbn. rewrite <- !app_assoc. done.
        -- by eapply loop_failure.
    + destruct (submit_all_key_error tasks w pre x post [] st1 Hpre Hx)
        as (st2 & Hsub & Htr2).
      rewrite Hsplit, Hsub.
      exists st2, (Raise (KeyError x)), (GetReady ready :: map Submit pre).
      split_and!; [done| |].
      * rewrite Htr2. subst st1. cbn. rewrite <- !app_assoc. done.
      * by eapply loop_key_error.
Qed.
End loop_run.

(** ** What [run] does *)

Lemma length_keys_size (l : list string) (X : gset string) :
  NoDup l → (∀ x, x ∈ l ↔ x ∈ X) → length l = size X.
Proof.
  intros Hnd Hl. rewrite <- (size_list_to_set (C := gset string) l) by done.
  f_equal. apply set_eq. intros x. by rewrite elem_of_list_to_set.
Qed.

Lemma pool_valid mw cpus :
  valid_max_workers mw → ∃ n, ThreadPoolExecutor mw cpus = Ok n.
Proof.
  unfold ThreadPoolExecutor. destruct mw as [n|]; cbn; intros Hv.
  - rewrite decide_False by lia. eauto.
  - rewrite decide_False by lia. eauto.
Qed.

Lemma pool_invalid mw cpus :
  ¬ valid_max_workers mw →
  ThreadPoolExecutor mw cpus
    = Raise (ValueError "max_workers must be greater than 0").
Proof.
  unfold ThreadPoolExecutor. destruct mw as [n|]; cbn; intros Hv.
  - rewrite decide_True by lia. done.
  - by destruct Hv.
Qed.

Lemma valid_max_workers_dec mw : Decision (valid_max_workers mw).
Proof. destruct mw; cbn; apply _. Defined.

Lemma run_spec tasks mw w :
  (cyclic tasks ∧
   ∃ c, run tasks mw w
          = mkExecution [] [] (Raise (CycleError "nodes are in a cycle" c)))
  ∨ (acyclic tasks ∧ ¬ valid_max_workers mw ∧
     run tasks mw w
       = mkExecution [] [] (Raise (ValueError "max_workers must be greater than 0")))
  ∨ (acyclic tasks ∧ valid_max_workers mw ∧ loop_outcome tasks w (run tasks mw w)).
Proof.
  unfold run, construct.
  destruct (run_init tasks) as (d & Hinit & Hok). rewrite Hinit. cbn [bind].
  destruct (prepare_spec (task_graph tasks) d Hok)
    as [(c & Hprep & x & Hx)|[Hprep Hac]]; rewrite Hprep.
  { left. split; [by exists x|by exists c]. }
  right.
  destruct (valid_max_workers_dec mw) as [Hv|Hv].
  2:{ left. rewrite (pool_invalid mw _ Hv). done. }
  right. split; [done|]. split; [done|].
  destruct (pool_valid mw (cpu_count w) Hv) as [nw ->].
  cbn [graphlib.node2info].
  set (st0 := mkState _ [] [] ∅ [] []).
  destruct (run_loop_spec tasks w (S (length (dkeys d))) st0 ∅)
    as (st' & r & evs & Hrun & Htr & Hpost).
  - exists d, (graphlib.initial_ready d), 0. split_and!.
    + done.
    + by apply prepare_inv.
    + intros n. cbn. rewrite lookup_empty. apply not_elem_of_empty.
    + destruct Hok as [(Hwf & Hkeys & _) _].
      apply length_keys_size; [apply Hwf|]. intros k.
      rewrite <- Hkeys. apply Hwf.
  - apply empty_subseteq.
  - rewrite difference_empty_L.
    destruct Hok as [(Hwf & Hkeys & _) _].
    rewrite (length_keys_size (dkeys d) (task_nodes tasks)); [lia|apply Hwf|].
    intros k. rewrite <- Hkeys. apply Hwf.
  - rewrite Hrun. cbn in Htr. subst evs.
    destruct r as [[]|e|]; [| |done].
    + destruct Hpost as (D' & Hspec & Hres). exists (Ok D'). cbn. eauto.
    + exists (Raise e). cbn. eauto.
Qed.

Lemma construct_spec tasks :
  ∃ d, init_ok (task_graph tasks) d ∧
    ((cyclic tasks ∧
      ∃ c, construct tasks = Raise (CycleError "nodes are in a cycle" c))
     ∨ (acyclic tasks ∧
        construct tasks
          = Ok (graphlib.mkSorter d (Some (graphlib.initial_ready d)) 0 0))).
Proof.
  unfold construct.
  destruct (run_init tasks) as (d & Hinit & Hok). rewrite Hinit. cbn [bind].
  exists d. split; [done|].
  destruct (prepare_spec (task_graph tasks) d Hok)
    as [(c & Hprep & x & Hx)|[Hprep Hac]]; rewrite Hprep.
  - left. split; [by exists x|by exists c].
  - right. done.
Qed.

(** [construct] decides acyclicity. *)
Lemma construct_ok_acyclic tasks ts : construct tasks = Ok ts → acyclic tasks.
Proof.
  intros Hc. destruct (construct_spec tasks) as (d & _ & [[_ [c Hr]]|[Hac _]]).
  - congruence.
  - done.
Qed.

(** ** [by_name] and the dependency relation *)

Lemma by_name_fold_notin (tasks : list Task) (m : gmap string Task) n :
  n ∉ name <$> tasks →
  foldl (λ m t, <[name t := t]> m) m tasks !! n = m !! n.
Proof.
  revert m. induction tasks as [|t tasks IH]; intros m Hn; [done|].
  cbn in *. apply not_elem_of_cons in Hn as [Hne Hn].
  rewrite IH by done. by rewrite lookup_insert_ne.
Qed.

Lemma by_name_fold_lookup (tasks : list Task) (m : gmap string Task) n t :
  foldl (λ m t, <[name t := t]> m) m tasks !! n = Some t →
  (t ∈ tasks ∧ name t = n) ∨ m !! n = Some t.
Proof.
  revert m. induction tasks as [|t0 tasks IH]; intros m Hl; [by right|].
  cbn in Hl. apply IH in Hl as [[Ht Hn]|Hl].
  - left. split; [by right|done].
  - destruct (decide (name t0 = n)) as [<-|Hne].
    + rewrite lookup_insert_eq in Hl. simplify_eq. left. split; [left|done].
    + rewrite lookup_insert_ne in Hl by done. by right.
Qed.

Lemma by_name_of_lookup tasks n t :
  by_name_of tasks !! n = Some t → t ∈ tasks ∧ name t = n.
Proof.
  intros [?|Hl]%by_name_fold_lookup; [done|]. by rewrite lookup_empty in Hl.
Qed.

Lemma by_name_fold_declared (tasks : list Task) (m : gmap string Task) n :
  n ∈ name <$> tasks →
  is_Some (foldl (λ m t, <[name t := t]> m) m tasks !! n).
Proof.
  revert m. induction tasks as [|t0 tasks IH]; intros m Hn;
    [by apply elem_of_nil in Hn|].
  cbn in *. destruct (decide (n ∈ name <$> tasks)) as [Hin|Hin]; [by apply IH|].
  apply elem_of_cons in Hn as [->|Hn]; [|done].
  rewrite by_name_fold_notin by done. rewrite lookup_insert_eq. eauto.
Qed.

Lemma by_name_of_declared tasks t : t ∈ tasks → declared tasks (name t).
Proof. intros Ht. apply by_name_fold_declared. by apply list_elem_of_fmap_2. Qed.

Lemma by_name_of_unique tasks t :
  unique_names tasks → t ∈ tasks → by_name_of tasks !! name t = Some t.
Proof.
  unfold unique_names, by_name_of. generalize (∅ : gmap string Task).
  induction tasks as [|t0 tasks IH]; intros m Hnd Ht;
    [by apply elem_of_nil in Ht|].
  cbn in *. apply NoDup_cons in Hnd as [Hn Hnd].
  apply elem_of_cons in Ht as [->|Ht]; [|by apply IH].
  rewrite by_name_fold_notin by done. by rewrite lookup_insert_eq.
Qed.

Lemma task_deps_declared tasks n t :
  by_name_of tasks !! n = Some t → task_deps tasks n = deps t.
Proof.
  intros Ht. unfold task_deps, gdeps, task_graph. by rewrite lookup_fmap, Ht.
Qed.

Lemma task_deps_undeclared tasks n :
  ¬ declared tasks n → task_deps tasks n = ∅.
Proof.
  intros Hn. unfold task_deps, gdeps, task_graph. rewrite lookup_fmap.
  destruct (by_name_of tasks !! n) eqn:E; [|done]. destruct Hn. by eexists.
Qed.

Lemma depends_on_declared tasks n d : depends_on tasks n d → declared tasks n.
Proof.
  unfold depends_on. intros Hd.
  destruct (decide (declared tasks n)) as [|Hn]; [done|].
  rewrite task_deps_undeclared in Hd by done. by apply not_elem_of_empty in Hd.
Qed.

Lemma elem_of_task_nodes tasks n :
  n ∈ task_nodes tasks ↔ declared tasks n ∨ ∃ m, depends_on tasks m n.
Proof.
  unfold task_nodes. rewrite elem_of_gnodes. unfold task_graph.
  rewrite dom_fmap, elem_of_dom. done.
Qed.

Lemma task_nodes_closed tasks n :
  closed tasks → n ∈ task_nodes tasks ↔ declared tasks n.
Proof.
  intros Hc. rewrite elem_of_task_nodes. split; [|by left].
  intros [?|[m Hm]]; [done|]. by eapply Hc.
Qed.

(** ** Positions in the events of one round *)

Lemma lookup_round_inv R S P (rest : list event) i e :
  (GetReady R :: map Submit S ++ map Done P ++ rest) !! i = Some e →
  (i = 0 ∧ e = GetReady R)
  ∨ (∃ k n, i = 1 + k ∧ S !! k = Some n ∧ e = Submit n)
  ∨ (∃ k n, i = 1 + length S + k ∧ P !! k = Some n ∧ e = Done n)
  ∨ (∃ k, i = 1 + length S + length P + k ∧ rest !! k = Some e).
Proof.
  destruct i as [|i]; cbn; [intros [= <-]; by left|].
  intros H. right.
  apply lookup_app_Some in H as [H|[Hlen H]].
  { left. rewrite list_lookup_fmap in H.
    destruct (S !! i) as [n|] eqn:E; simplify_eq/=. eauto. }
  rewrite length_map in Hlen, H. right.
  apply lookup_app_Some in H as [H|[Hlen' H]].
  { left. rewrite list_lookup_fmap in H.
    destruct (P !! (i - length S)) as [n|] eqn:E; simplify_eq/=.
    exists (i - length S), n. split_and!; [lia|done|done]. }
  rewrite length_map in Hlen', H. right.
  exists (i - length S - length P). split; [lia|done].
Qed.

Lemma lookup_round_submit R S P (rest : list event) k n :
  S !! k = Some n →
  (GetReady R :: map Submit S ++ map Done P ++ rest) !! (1 + k) = Some (Submit n).
Proof.
  intros H. cbn. apply lookup_app_l_Some. by rewrite list_lookup_fmap, H.
Qed.

Lemma lookup_round_done R S P (rest : list event) k n :
  P !! k = Some n →
  (GetReady R :: map Submit S ++ map Done P ++ rest) !! (1 + length S + k)
    = Some (Done n).
Proof.
  intros H. rewrite lookup_cons_ne_0 by lia.
  rewrite lookup_app_r by (rewrite length_map; lia).
  rewrite length_map.
  replace (pred (1 + length S + k) - length S) with k by lia.
  apply lookup_app_l_Some. by rewrite list_lookup_fmap, H.
Qed.

Lemma lookup_round_rest R S P (rest : list event) k e :
  rest !! k = Some e →
  (GetReady R :: map Submit S ++ map Done P ++ rest)
    !! (1 + length S + length P + k) = Some e.
Proof.
  intros H. rewrite lookup_cons_ne_0 by lia.
  rewrite lookup_app_r by (rewrite length_map; lia).
  rewrite lookup_app_r by (rewrite !length_map; lia).
  rewrite !length_map.
  by replace (pred (1 + length S + length P + k) - length S - length P)
    with k by lia.
Qed.

(** The two truncated rounds are rounds with nothing after them. *)
Lemma round_key_error R pre :
  GetReady R :: map Submit pre
  = GetReady R :: map Submit pre ++ map Done [] ++ [].
Proof. cbn. by rewrite app_nil_r. Qed.

Lemma round_failure R pre :
  GetReady R :: map Submit R ++ map Done pre
  = GetReady R :: map Submit R ++ map Done pre ++ [].
Proof. by rewrite app_nil_r. Qed.

(** [round_cases H as k]: case analysis on the position of the event that [H]
    finds in the events of a round; [k] is its offset within the part of
    the round it belongs to, and [H] becomes the lookup in that part. *)
Tactic Notation "round_cases" ident(H) "as" ident(k) :=
  try rewrite round_key_error in H;
  try rewrite round_failure in H;
  apply lookup_round_inv in H
    as [[-> [= <-]]
       |[(k & ? & -> & H & [= <-])
        |[(k & ? & -> & H & [= <-])
         |(k & -> & H)]]];
  try done.

(** ** Consequences of [loop_spec] *)

Section traces.
Variable tasks : list Task.
Variable w : world.

Lemma ready_batch_elem D R n :
  ready_batch tasks D R → n ∈ R →
  n ∈ task_nodes tasks ∧ (n ∉ D) ∧ task_deps tasks n ⊆ D.
Proof. intros (_ & _ & HR) Hn. by apply elem_of_ready_set, HR. Qed.

Lemma ready_batch_set D R :
  ready_batch tasks D R → list_to_set R = ready_set tasks D.
Proof.
  intros (_ & _ & HR). apply set_eq. intros m.
  by rewrite elem_of_list_to_set.
Qed.

(** A task is submitted only when all its dependencies are done. *)
Lemma loop_spec_deps D evs r :
  loop_spec tasks w D evs r →
  ∀ i n d, evs !! i = Some (Submit n) → d ∈ task_deps tasks n →
           d ∈ D ∨ ∃ j, j < i ∧ evs !! j = Some (Done d).
Proof.
  induction 1 as [D HD|D R pre x post HR Hsplit Hpre Hx
                 |D R pi pre n0 post e HR Hdecl Hperm Hsplit Hpre Hn0
                 |D R pi evs r HR Hperm Hall Hrest IH]; intros i n d Hi Hd.
  - done.
  - round_cases Hi as k.
    left. apply list_elem_of_lookup_2 in Hi.
    assert (Hn : n ∈ R) by (rewrite Hsplit; apply elem_of_app; by left).
    apply (ready_batch_elem D R n HR Hn). done.
  - round_cases Hi as k.
    left. apply list_elem_of_lookup_2 in Hi.
    apply (ready_batch_elem D R n HR Hi). done.
  - round_cases Hi as k.
    + left. apply list_elem_of_lookup_2 in Hi.
      apply (ready_batch_elem D R n HR Hi). done.
    + destruct (IH k n d Hi Hd) as [[HdD|HdR%elem_of_list_to_set]%elem_of_union
                                    |(j & Hj & Hdone)].
      * by left.
      * right. rewrite <- Hperm in HdR.
        apply list_elem_of_lookup_1 in HdR as [j Hj].
        exists (1 + length R + j). split.
        -- apply lookup_lt_Some in Hj. lia.
        -- by apply lookup_round_done.
      * right. exists (1 + length R + length pi + j). split; [lia|].
        by apply lookup_round_rest.
Qed.

(** Only submitted tasks are marked done. *)
Lemma loop_spec_done_submitted D evs r :
  loop_spec tasks w D evs r →
  ∀ i n, evs !! i = Some (Done n) →
         ∃ j, j < i ∧ evs !! j = Some (Submit n).
Proof.
  induction 1 as [D HD|D R pre x post HR Hsplit Hpre Hx
                 |D R pi pre n0 post e HR Hdecl Hperm Hsplit Hpre Hn0
                 |D R pi evs r HR Hperm Hall Hrest IH]; intros i n Hi.
  - done.
  - round_cases Hi as k.
  - round_cases Hi as k.
    assert (Hn : n ∈ R).
    { rewrite <- Hperm, Hsplit. apply elem_of_app. left.
      by eapply list_elem_of_lookup_2. }
    apply list_elem_of_lookup_1 in Hn as [j Hj].
    exists (1 + j). split.
    + apply lookup_lt_Some in Hj. lia.
    + rewrite round_failure. by apply lookup_round_submit.
  - round_cases Hi as k.
    + assert (Hn : n ∈ R).
      { rewrite <- Hperm. by eapply list_elem_of_lookup_2. }
      apply list_elem_of_lookup_1 in Hn as [j Hj].
      exists (1 + j). split.
      * apply lookup_lt_Some in Hj. lia.
      * by apply lookup_round_submit.
    + destruct (IH k n Hi) as (j & Hj & Hsub).
      exists (1 + length R + length pi + j). split; [lia|].
      by apply lookup_round_rest.
Qed.

(** When the loop drains the ready set again, every task submitted so far
    has been marked done. *)
Lemma loop_spec_barrier D evs r :
  loop_spec tasks w D evs r →
  ∀ i R' j m, evs !! i = Some (GetReady R') → j < i →
              evs !! j = Some (Submit m) →
              ∃ k, j < k ∧ k < i ∧ evs !! k = Some (Done m).
Proof.
  induction 1 as [D HD|D R pre x post HR Hsplit Hpre Hx
                 |D R pi pre n0 post e HR Hdecl Hperm Hsplit Hpre Hn0
                 |D R pi evs r HR Hperm Hall Hrest IH]; intros i R' j m Hi Hji Hj.
  - done.
  - round_cases Hi as k. lia.
  - round_cases Hi as k. lia.
  - round_cases Hi as k; [lia|].
    round_cases Hj as k'.
    + assert (Hm : m ∈ pi).
      { rewrite Hperm. by eapply list_elem_of_lookup_2. }
      apply list_elem_of_lookup_1 in Hm as [p Hp].
      exists (1 + length R + p). split_and!.
      * apply lookup_lt_Some in Hj. lia.
      * apply lookup_lt_Some in Hp. lia.
      * by apply lookup_round_done.
    + destruct (IH k R' k' m Hi ltac:(lia) Hj) as (p & ? & ? & Hp).
      exists (1 + length R + length pi + p). split_and!; [lia|lia|].
      by apply lookup_round_rest.
Qed.

(** A task outside the first ready set is submitted only after every task
    of the first ready set is done. *)
Lemma loop_spec_first_batch D evs r :
  loop_spec tasks w D evs r →
  ∀ i n m, evs !! i = Some (Submit n) →
           n ∉ ready_set tasks D → m ∈ ready_set tasks D →
           ∃ k, k < i ∧ evs !! k = Some (Done m).
Proof.
  destruct 1 as [D HD|D R pre x post HR Hsplit Hpre Hx
                |D R pi pre n0 post e HR Hdecl Hperm Hsplit Hpre Hn0
                |D R pi evs r HR Hperm Hall Hrest]; intros i n m Hi Hn Hm.
  - done.
  - round_cases Hi as k.
    destruct Hn. apply HR. rewrite Hsplit. apply elem_of_app. left.
    by eapply list_elem_of_lookup_2.
  - round_cases Hi as k.
    destruct Hn. apply HR. by eapply list_elem_of_lookup_2.
  - round_cases Hi as k.
    + destruct Hn. apply HR. by eapply list_elem_of_lookup_2.
    + apply HR in Hm. rewrite <- Hperm in Hm.
      apply list_elem_of_lookup_1 in Hm as [p Hp].
      exists (1 + length R + p). split.
      * apply lookup_lt_Some in Hp. lia.
      * by apply lookup_round_done.
Qed.
End traces.

Section outcomes.
Variable tasks : list Task.
Variable w : world.

Lemma returns_raises n v e :
  returns tasks w n v → raises tasks w n e → False.
Proof. intros (t & Ht & Hv) (t' & Ht' & He). congruence. Qed.

(** A failing action ends the run. *)
Lemma loop_spec_failure D evs r :
  loop_spec tasks w D evs r →
  ∀ i n e, evs !! i = Some (Submit n) → raises tasks w n e →
    (∃ e', r = Raise e') ∧
    (∀ k, evs !! k ≠ Some (Done n)) ∧
    (∀ k R', i < k → evs !! k ≠ Some (GetReady R')).
Proof.
  induction 1 as [D HD|D R pre x post HR Hsplit Hpre Hx
                 |D R pi pre n0 post e0 HR Hdecl Hperm Hsplit Hpre Hn0
                 |D R pi evs r HR Hperm Hall Hrest IH]; intros i n e Hi Hn.
  - done.
  - split_and!; [by eexists| |].
    + intros p Hp. round_cases Hp as q.
    + intros p R' Hlt Hp. round_cases Hp as q. lia.
  - split_and!; [by eexists| |].
    + intros p Hp. round_cases Hp as q.
      apply list_elem_of_lookup_2 in Hp.
      rewrite Forall_forall in Hpre. destruct (Hpre n Hp) as [v Hv].
      by eapply returns_raises.
    + intros p R' Hlt Hp. round_cases Hp as q. lia.
  - rewrite Forall_forall in Hall.
    round_cases Hi as k.
    { apply list_elem_of_lookup_2 in Hi. destruct (Hall n Hi) as [v Hv].
      destruct (returns_raises n v e Hv Hn). }
    destruct (IH k n e Hi Hn) as (Hr & Hdone & Hready).
    split_and!; [done| |].
    + intros p Hp. round_cases Hp as q.
      * apply list_elem_of_lookup_2 in Hp. rewrite Hperm in Hp.
        destruct (Hall n Hp) as [v Hv]. by eapply returns_raises.
      * by eapply Hdone.
    + intros p R' Hlt Hp. round_cases Hp as q; [lia|].
      eapply (Hready q); [|done]. lia.
Qed.

(** With every dependency declared and no failing action, the loop ends
    normally. *)
Lemma loop_spec_no_raise D evs r :
  closed tasks → all_succeed tasks w →
  loop_spec tasks w D evs r → ∃ D', r = Ok D'.
Proof.
  intros Hc Hs.
  induction 1 as [D HD|D R pre x post HR Hsplit Hpre Hx
                 |D R pi pre n0 post e0 HR Hdecl Hperm Hsplit Hpre Hn0
                 |D R pi evs r HR Hperm Hall Hrest IH].
  - by eexists.
  - destruct Hx. apply (task_nodes_closed tasks x Hc).
    apply (ready_batch_elem tasks D R x HR). rewrite Hsplit.
    apply elem_of_app. right. left.
  - destruct Hn0 as (t & Ht & He).
    apply by_name_of_lookup in Ht as [Ht <-].
    destruct (Hs t Ht) as [v Hv]. congruence.
  - done.
Qed.

Lemma submitted_round R S P rest :
  submitted (GetReady R :: map Submit S ++ map Done P ++ rest)
  = S ++ submitted rest.
Proof.
  unfold submitted. cbn. rewrite !omap_app. f_equal.
  - induction S as [|s S IH]; [done|]. cbn. by rewrite IH.
  - assert (omap (λ e, match e with Submit n => Some n | _ => None end)
                 (map Done P) = []) as ->; [|done].
    induction P as [|p P IH]; [done|]. done.
Qed.

Lemma completed_round R S P rest :
  completed (GetReady R :: map Submit S ++ map Done P ++ rest)
  = P ++ completed rest.
Proof.
  unfold completed. cbn. rewrite !omap_app.
  assert (omap (λ e, match e with Done n => Some n | _ => None end)
               (map Submit S) = []) as ->.
  { induction S as [|s S IH]; [done|]. done. }
  cbn. f_equal. induction P as [|p P IH]; [done|]. cbn. by rewrite IH.
Qed.

Lemma drained_round R S P rest :
  drained (GetReady R :: map Submit S ++ map Done P ++ rest)
  = list_to_set R :: drained rest.
Proof.
  unfold drained. cbn. f_equal. rewrite !omap_app.
  assert (∀ l, omap (λ e, match e with
                          | GetReady r => Some (list_to_set r : gset string)
                          | _ => None end) (map Submit l) = []) as ->.
  { induction l as [|s l IH]; [done|]. done. }
  assert (∀ l, omap (λ e, match e with
                          | GetReady r => Some (list_to_set r : gset string)
                          | _ => None end) (map Done l) = []) as ->.
  { induction l as [|s l IH]; [done|]. done. }
  done.
Qed.

(** A normal end of the loop: every task of [D'] outside [D] was submitted
    and marked done exactly once, and nothing is ready any more. *)
Lemma loop_spec_ok D evs r :
  loop_spec tasks w D evs r →
  ∀ D', r = Ok D' →
    D ⊆ D' ∧ D' ⊆ D ∪ task_nodes tasks ∧ ready_set tasks D' = ∅ ∧
    NoDup (submitted evs) ∧
    (∀ n, n ∈ submitted evs ↔ n ∈ D' ∧ n ∉ D) ∧
    completed evs ≡ₚ submitted evs.
Proof.
  induction 1 as [D HD|D R pre x post HR Hsplit Hpre Hx
                 |D R pi pre n0 post e0 HR Hdecl Hperm Hsplit Hpre Hn0
                 |D R pi evs r HR Hperm Hall Hrest IH]; intros D' Hr;
    try done.
  - injection Hr as <-. split_and!; try done.
    + clear. set_solver.
    + constructor.
    + cbn. intros n. split; [by intros ?%elem_of_nil|]. by intros [? ?].
  - destruct (IH D' Hr) as (Hsub & Hnodes & Hrs & Hnd & Hel & Hcp).
    assert (HRel : ∀ n, n ∈ R → n ∈ task_nodes tasks ∧ n ∉ D).
    { intros n Hn. destruct (ready_batch_elem tasks D R n HR Hn) as (? & ? & _).
      done. }
    rewrite submitted_round, completed_round.
    split_and!.
    + clear -Hsub. set_solver.
    + intros n Hn. apply Hnodes in Hn.
      apply elem_of_union in Hn as [[?|Hn%elem_of_list_to_set]%elem_of_union|?];
        [set_solver| |set_solver].
      apply elem_of_union. right. by apply HRel.
    + done.
    + apply NoDup_app. split_and!; [apply HR| |done].
      intros n Hn Hn'%Hel. destruct Hn' as [_ Hn']. apply Hn'.
      apply elem_of_union. right. by apply elem_of_list_to_set.
    + intros n. rewrite elem_of_app, Hel. split.
      * intros [Hn|[Hn Hn']].
        -- split; [|by apply HRel]. apply Hsub, elem_of_union. right.
           by apply elem_of_list_to_set.
        -- split; [done|]. intros ?. apply Hn', elem_of_union. by left.
      * intros [Hn Hn']. destruct (decide (n ∈ R)); [by left|right].
        split; [done|]. intros [?|?%elem_of_list_to_set]%elem_of_union; done.
    + by rewrite Hperm, Hcp.
Qed.

(** The batches drained are the layers of the graph. *)
Lemma loop_spec_layers D evs r :
  loop_spec tasks w D evs r →
  ∀ D' fuel, r = Ok D' → D ⊆ task_nodes tasks →
    size (task_nodes tasks ∖ D) ≤ fuel →
    drained evs = layers_from fuel tasks D.
Proof.
  induction 1 as [D HD|D R pre x post HR Hsplit Hpre Hx
                 |D R pi pre n0 post e0 HR Hdecl Hperm Hsplit Hpre Hn0
                 |D R pi evs r HR Hperm Hall Hrest IH];
    intros D' fuel Hr HD' Hfuel; try done.
  - destruct fuel; [done|]. cbn. by rewrite decide_True.
  - rewrite drained_round.
    pose proof (ready_batch_set tasks D R HR) as Hset.
    assert (Hne : ready_set tasks D ≠ ∅).
    { destruct HR as (Hne & _ & HR). destruct R as [|r0 R]; [done|].
      intros Hemp. assert (Hin : r0 ∈ ready_set tasks D) by (apply HR; left).
      rewrite Hemp in Hin. by apply not_elem_of_empty in Hin. }
    assert (Hlt : task_nodes tasks ∖ (D ∪ ready_set tasks D)
                  ⊂ task_nodes tasks ∖ D).
    { apply set_choose_L in Hne as [x Hx].
      pose proof Hx as Hx'. apply elem_of_ready_set in Hx' as (? & ? & _).
      split; [clear; set_solver|]. intros Hsb. specialize (Hsb x).
      clear -Hsb Hx H H0. set_solver. }
    apply subset_size in Hlt.
    destruct fuel as [|fuel]; [lia|]. cbn.
    rewrite decide_False by done. rewrite Hset. f_equal.
    rewrite Hset in IH. eapply IH; [done| |lia].
    intros n [?|Hn]%elem_of_union; [by apply HD'|].
    by apply elem_of_ready_set in Hn as (? & _).
Qed.

(** A dependency on an undeclared name stops the run in the first round,
    at the lookup of that name. *)
Lemma loop_spec_unknown evs r d :
  loop_spec tasks w ∅ evs r →
  d ∈ task_nodes tasks → ¬ declared tasks d →
  ∃ R pre x post,
    R = pre ++ x :: post ∧ ready_batch tasks ∅ R ∧
    Forall (declared tasks) pre ∧ ¬ declared tasks x ∧
    evs = GetReady R :: map Submit pre ∧ r = Raise (KeyError x).
Proof.
  intros Hspec Hd Hnd.
  assert (Hready : d ∈ ready_set tasks ∅).
  { apply elem_of_ready_set. split_and!; [done|apply not_elem_of_empty|].
    by rewrite task_deps_undeclared. }
  inversion Hspec as [D HD|D R pre x post HR Hsplit Hpre Hx
                     |D R pi pre n0 post e0 HR Hdecl Hperm Hsplit Hpre Hn0
                     |D R pi evs' r' HR Hperm Hall Hrest]; subst.
  - rewrite HD in Hready. by apply not_elem_of_empty in Hready.
  - exists (pre ++ x :: post), pre, x, post. done.
  - apply HR in Hready. rewrite Forall_forall in Hdecl.
    destruct Hnd. by apply Hdecl.
  - apply HR in Hready. rewrite Forall_forall in Hall.
    destruct (Hall d Hready) as [v Hv]. destruct Hnd.
    by eapply returns_declared.
Qed.
End outcomes.

(** ** Acyclic graphs are exhausted *)

Lemma tc_sub {A} (R R' : relation A) x y :
  (∀ a b, R' a b → tc R a b) → tc R' x y → tc R x y.
Proof.
  intros Hsub. induction 1 as [x y H|x z y H _ IH].
  - by apply Hsub.
  - etrans; [by apply Hsub|done].
Qed.

(** A non-empty finite set in which every element is related to another
    element of the set contains a cycle. *)
Lemma finite_descent_cycle (X : gset string) :
  ∀ R : relation string,
    X ≠ ∅ → (∀ a, a ∈ X → ∃ b, b ∈ X ∧ R a b) → ∃ z, tc R z z.
Proof.
  induction X as [|x X Hx IH] using set_ind_L; intros R Hne Hstep; [done|].
  destruct (Hstep x) as (b & Hb & Hxb); [set_solver|].
  destruct (decide (b = x)) as [->|Hbx]; [exists x; by apply tc_once|].
  assert (HbX : b ∈ X) by set_solver.
  set (R' := λ a c, R a c ∨ (R a x ∧ R x c)).
  destruct (IH R') as [z Hz].
  - intros ->. by apply not_elem_of_empty in HbX.
  - intros a Ha. destruct (Hstep a) as (c & Hc & Hac); [set_solver|].
    destruct (decide (c = x)) as [->|Hcx].
    + exists b. split; [done|]. right. done.
    + exists c. split; [set_solver|]. by left.
  - exists z. eapply tc_sub; [|done]. intros a c [Hac|[Hax Hxc]].
    + by apply tc_once.
    + eapply tc_l; [done|]. by apply tc_once.
Qed.

Lemma acyclic_exhausted tasks D :
  acyclic tasks → ready_set tasks D = ∅ → task_nodes tasks ⊆ D.
Proof.
  intros Hac Hrs.
  destruct (decide (task_nodes tasks ∖ D = ∅)) as [He|Hne]; [set_solver|].
  destruct (finite_descent_cycle (task_nodes tasks ∖ D) (depends_on tasks) Hne)
    as [z Hz]; [|by destruct (Hac z)].
  intros a [Ha HaD]%elem_of_difference.
  destruct (decide (task_deps tasks a ∖ D = ∅)) as [He|Hne'].
  - assert (a ∈ ready_set tasks D).
    { apply elem_of_ready_set. split_and!; [done|done|]. clear -He. set_solver. }
    rewrite Hrs in H. by apply not_elem_of_empty in H.
  - apply set_choose_L in Hne' as [b [Hb HbD]%elem_of_difference].
    exists b. split; [|done]. apply elem_of_difference. split; [|done].
    apply elem_of_task_nodes. right. by exists a.
Qed.

(** The exception that ends the loop is the one of a failed action, or the
    lookup failure of an undeclared name. *)
Lemma loop_spec_raise tasks w D evs r :
  loop_spec tasks w D evs r →
  ∀ e, r = Raise e →
       (∃ n, raises tasks w n e) ∨ (∃ x, e = KeyError x ∧ ¬ declared tasks x).
Proof.
  induction 1 as [D HD|D R pre x post HR Hsplit Hpre Hx
                 |D R pi pre n0 post e0 HR Hdecl Hperm Hsplit Hpre Hn0
                 |D R pi evs r HR Hperm Hall Hrest IH]; intros e Hr; try done.
  - injection Hr as <-. right. eauto.
  - injection Hr as <-. left. eauto.
  - by apply IH.
Qed.

(** ** Checks that discharge hypotheses on concrete task lists *)

Lemma closed_check tasks :
  task_nodes tasks ⊆ dom (by_name_of tasks) → closed tasks.
Proof.
  intros Hsub n d Hd. apply elem_of_dom, Hsub, elem_of_task_nodes. eauto.
Qed.

Lemma returns_unique tasks w t :
  unique_names tasks → t ∈ tasks →
  ∀ v, returns tasks w (name t) v ↔ action t (env w (name t)) = Returns v.
Proof.
  intros Hu Ht v. unfold returns. rewrite (by_name_of_unique tasks t Hu Ht).
  split; [by intros (? & [= <-] & ?)|eauto].
Qed.

Lemma all_succeed_returns tasks w n :
  all_succeed tasks w → declared tasks n → ∃ v, returns tasks w n v.
Proof.
  intros Hs [t Ht]. pose proof Ht as [Hin <-]%by_name_of_lookup.
  destruct (Hs t Hin) as [v Hv]. exists v, t. done.
Qed.

(** ** The claims *)

(** C2.  In every execution of [run], a task's action is submitted to the pool
    only after every dependency declared by that task has been marked done:
    whenever [Submit n] occurs at position [i] of the events and [d] is a
    dependency of the task run under the name [n], [Done d] occurs at an
    earlier position. *)
Theorem dependencies_done_before_dispatch tasks mw w i n t d :
  events (run tasks mw w) !! i = Some (Submit n) →
  by_name_of tasks !! n = Some t →
  d ∈ deps t →
  ∃ j, j < i ∧ events (run tasks mw w) !! j = Some (Done d).
Proof.
  intros Hi Ht Hd.
  destruct (run_spec tasks mw w) as [[_ [c Hr]]|[(_ & _ & Hr)|(_ & _ & r & Hspec & _)]].
  - by rewrite Hr in Hi.
  - by rewrite Hr in Hi.
  - rewrite <- (task_deps_declared tasks n t Ht) in Hd.
    destruct (loop_spec_deps tasks w ∅ _ r Hspec i n d Hi Hd) as [Hin|Hj]; [|done].
    by apply not_elem_of_empty in Hin.
Qed.

Lemma dependencies_done_before_dispatch_witness :
  events (run join_scenario None fifo) !! 6 = Some (Submit "C") ∧
  by_name_of join_scenario !! "C" = Some (ok_task "C" ["A"; "B"]) ∧
  "B" ∈ deps (ok_task "C" ["A"; "B"]) ∧
  ∃ j, j < 6 ∧ events (run join_scenario None fifo) !! j = Some (Done "B").
Proof.
  assert (H1 : events (run join_scenario None fifo) !! 6 = Some (Submit "C"))
    by (vm_compute; reflexivity).
  assert (H2 : by_name_of join_scenario !! "C" = Some (ok_task "C" ["A"; "B"]))
    by (vm_compute; reflexivity).
  assert (H3 : "B" ∈ deps (ok_task "C" ["A"; "B"]))
    by (compute_done).
  split_and!; [exact H1|exact H2|exact H3|].
  exact (dependencies_done_before_dispatch join_scenario None fifo 6 "C"
           (ok_task "C" ["A"; "B"]) "B" H1 H2 H3).
Defined.

(** C4.  When the dependency relation of the task set contains a cycle, [run]
    fails with a [CycleError]; nothing is printed, no action is submitted and
    no node is marked done. *)
Theorem cycle_rejected tasks mw w :
  cyclic tasks →
  ∃ c, run tasks mw w
         = mkExecution [] [] (Raise (CycleError "nodes are in a cycle" c)).
Proof.
  intros [n Hn].
  destruct (run_spec tasks mw w) as [[_ Hr]|[(Hac & _)|(Hac & _)]].
  - done.
  - destruct (Hac n Hn).
  - destruct (Hac n Hn).
Qed.

Lemma cycle_rejected_witness :
  cyclic cycle_scenario ∧
  ∃ c, run cycle_scenario None fifo
         = mkExecution [] [] (Raise (CycleError "nodes are in a cycle" c)).
Proof.
  assert (H : cyclic cycle_scenario).
  { exists "A". eapply (tc_l _ "A" "B" "A"); [|apply tc_once].
    - compute_done.
    - compute_done. }
  split; [exact H|]. exact (cycle_rejected cycle_scenario None fifo H).
Defined.

(** C9.  [run] on an empty collection of tasks succeeds: it submits no action
    and returns the empty mapping. *)
Theorem run_empty mw w :
  valid_max_workers mw →
  run [] mw w = mkExecution [RanTasks []; DoneTasks []] [] (Ok ∅).
Proof.
  intros Hv. unfold run.
  destruct (pool_valid mw (cpu_count w) Hv) as [nw Hnw]. rewrite Hnw.
  vm_compute. reflexivity.
Qed.

Lemma run_empty_witness :
  valid_max_workers (Some 4%Z) ∧
  run [] (Some 4%Z) fifo = mkExecution [RanTasks []; DoneTasks []] [] (Ok ∅).
Proof.
  assert (H : valid_max_workers (Some 4%Z)) by (cbn; lia).
  split; [exact H|]. exact (run_empty (Some 4%Z) fifo H).
Defined.

(** C1 (as amended).  A failing action aborts the run: when the action of a
    submitted task raises, [run] raises instead of returning a mapping (the
    exception of a failed action, or the [KeyError] of an undeclared name
    met in the same batch); the failed task is never marked done, none of
    its direct or transitive dependents is ever submitted, and the ready set
    is never drained again, so no task of a later batch runs either. *)
Theorem failure_aborts_run tasks mw w i n e :
  events (run tasks mw w) !! i = Some (Submit n) →
  raises tasks w n e →
  (∃ e', returned (run tasks mw w) = Raise e' ∧
         ((∃ m, raises tasks w m e') ∨
          (∃ x, e' = KeyError x ∧ ¬ declared tasks x))) ∧
  (∀ k, events (run tasks mw w) !! k ≠ Some (Done n)) ∧
  (∀ m k, tc (depends_on tasks) m n →
          events (run tasks mw w) !! k ≠ Some (Submit m)) ∧
  (∀ k R, i < k → events (run tasks mw w) !! k ≠ Some (GetReady R)).
Proof.
  intros Hi Hn.
  destruct (run_spec tasks mw w)
    as [[_ [c Hr]]|[(_ & _ & Hr)|(_ & _ & r & Hspec & Hret)]].
  - by rewrite Hr in Hi.
  - by rewrite Hr in Hi.
  - destruct (loop_spec_failure tasks w ∅ _ r Hspec i n e Hi Hn)
      as ([e' ->] & Hdone & Hready).
    split_and!; [| done | | done].
    + exists e'. split; [done|]. by eapply loop_spec_raise.
    + intros m k Htc. revert k.
      induction Htc as [m n Hdep|m y n Hdep _ IH]; intros k Hk.
      * destruct (loop_spec_deps tasks w ∅ _ _ Hspec k m n Hk Hdep)
          as [Hin|(j & _ & Hj)].
        -- by apply not_elem_of_empty in Hin.
        -- by apply Hdone in Hj.
      * destruct (loop_spec_deps tasks w ∅ _ _ Hspec k m y Hk Hdep)
          as [Hin|(j & _ & Hj)].
        -- by apply not_elem_of_empty in Hin.
        -- destruct (loop_spec_done_submitted tasks w ∅ _ _ Hspec j y Hj)
             as (j' & _ & Hj').
           by apply (IH Hi Hn Hdone j').
Qed.

Lemma failure_aborts_run_witness :
  events (run failure_scenario None fifo) !! 1 = Some (Submit "A") ∧
  raises failure_scenario fifo "A" (Exception "A") ∧
  ∃ e', returned (run failure_scenario None fifo) = Raise e'.
Proof.
  assert (H1 : events (run failure_scenario None fifo) !! 1 = Some (Submit "A"))
    by (vm_compute; reflexivity).
  assert (H2 : raises failure_scenario fifo "A" (Exception "A")).
  { exists (failing_task "A" []). split; vm_compute; reflexivity. }
  split_and!; [exact H1|exact H2|].
  destruct (failure_aborts_run failure_scenario None fifo 1 "A" (Exception "A")
              H1 H2) as [[e' [He' _]] _].
  exists e'. exact He'.
Defined.

(** C1 as stated fails: in the scenario [A], [B -> A], [C] independent with [A]
    failing, [run] returns no mapping at all; the exception of [A] leaves
    [run] after [A] and [C] were submitted. *)
Lemma failure_is_not_recorded :
  run failure_scenario None fifo
  = mkExecution [RunLine "A"; RunLine "C"]
                [GetReady ["A"; "C"]; Submit "A"; Submit "C"]
                (Raise (Exception "A")).
Proof. vm_compute. reflexivity. Qed.

(** C3 (as amended).  With an acyclic graph and a valid pool size, a
    dependency on an undeclared name makes [run] fail with the [KeyError] of
    an undeclared name [x], raised in the first round when the loop over the
    first ready batch reaches [x]: the actions of the tasks that precede [x]
    in that batch (declared tasks without dependencies) have been submitted,
    nothing else happens, and nothing is returned. *)
Theorem unknown_dependency_key_error tasks mw w n d :
  acyclic tasks →
  valid_max_workers mw →
  depends_on tasks n d →
  ¬ declared tasks d →
  ∃ R pre x post,
    R = pre ++ x :: post ∧ ready_batch tasks ∅ R ∧
    Forall (declared tasks) pre ∧ ¬ declared tasks x ∧
    events (run tasks mw w) = GetReady R :: map Submit pre ∧
    returned (run tasks mw w) = Raise (KeyError x).
Proof.
  intros Hac Hv Hdep Hd.
  destruct (run_spec tasks mw w)
    as [[[z Hz] _]|[(_ & Hnv & _)|(_ & _ & r & Hspec & Hret)]].
  - destruct (Hac z Hz).
  - done.
  - destruct (loop_spec_unknown tasks w _ r d Hspec)
      as (R & pre & x & post & HR & Hb & Hpre & Hx & Hev & ->); [|done|].
    { apply elem_of_task_nodes. right. by exists n. }
    exists R, pre, x, post. done.
Qed.

Lemma unknown_dependency_key_error_witness :
  acyclic unknown_dependency_scenario ∧
  valid_max_workers None ∧
  depends_on unknown_dependency_scenario "B" "X" ∧
  ¬ declared unknown_dependency_scenario "X" ∧
  ∃ R pre x post,
    R = pre ++ x :: post ∧ ready_batch unknown_dependency_scenario ∅ R ∧
    Forall (declared unknown_dependency_scenario) pre ∧
    ¬ declared unknown_dependency_scenario x ∧
    events (run unknown_dependency_scenario None fifo)
      = GetReady R :: map Submit pre ∧
    returned (run unknown_dependency_scenario None fifo) = Raise (KeyError x).
Proof.
  assert (H1 : acyclic unknown_dependency_scenario).
  { eapply construct_ok_acyclic. vm_compute. reflexivity. }
  assert (H2 : valid_max_workers None) by exact I.
  assert (H3 : depends_on unknown_dependency_scenario "B" "X") by compute_done.
  assert (H4 : ¬ declared unknown_dependency_scenario "X") by compute_done.
  split_and!; [exact H1|exact H2|exact H3|exact H4|].
  exact (unknown_dependency_key_error unknown_dependency_scenario None fifo
           "B" "X" H1 H2 H3 H4).
Defined.

(** C3 as stated fails: with [A] a root and [B] depending on the undeclared
    [X], the action of [A] is submitted before [run] fails, and the failure
    is the [KeyError] of the lookup [by_name["X"]]. *)
Lemma unknown_dependency_after_dispatch :
  depends_on unknown_dependency_scenario "B" "X" ∧
  ¬ declared unknown_dependency_scenario "X" ∧
  run unknown_dependency_scenario None fifo
  = mkExecution [RunLine "A"; RunLine "X"]
                [GetReady ["A"; "X"]; Submit "A"]
                (Raise (KeyError "X")).
Proof. split_and!; [compute_done|compute_done|vm_compute; reflexivity]. Qed.

(** C7 (as amended).  The loop waits for the whole batch: whenever the ready
    set is drained again, every action submitted so far has completed and
    its task has been marked done.  A task unlocked by one completion is
    therefore submitted only once every task of the running batch is done. *)
Theorem drain_waits_for_whole_batch tasks mw w i R j m :
  events (run tasks mw w) !! i = Some (GetReady R) →
  j < i →
  events (run tasks mw w) !! j = Some (Submit m) →
  ∃ k, j < k ∧ k < i ∧ events (run tasks mw w) !! k = Some (Done m).
Proof.
  intros Hi Hji Hj.
  destruct (run_spec tasks mw w)
    as [[_ [c Hr]]|[(_ & _ & Hr)|(_ & _ & r & Hspec & _)]].
  - by rewrite Hr in Hi.
  - by rewrite Hr in Hi.
  - by eapply loop_spec_barrier.
Qed.

Lemma drain_waits_for_whole_batch_witness :
  events (run race_scenario None fifo) !! 5 = Some (GetReady ["C"]) ∧
  2 < 5 ∧
  events (run race_scenario None fifo) !! 2 = Some (Submit "B") ∧
  ∃ k, 2 < k ∧ k < 5 ∧ events (run race_scenario None fifo) !! k = Some (Done "B").
Proof.
  assert (H1 : events (run race_scenario None fifo) !! 5 = Some (GetReady ["C"]))
    by (vm_compute; reflexivity).
  assert (H2 : 2 < 5) by lia.
  assert (H3 : events (run race_scenario None fifo) !! 2 = Some (Submit "B"))
    by (vm_compute; reflexivity).
  split_and!; [exact H1|exact H2|exact H3|].
  exact (drain_waits_for_whole_batch race_scenario None fifo 5 ["C"] 2 "B"
           H1 H2 H3).
Defined.

(** C7 as stated fails: with roots [A], [B] and [C] depending on [A] only, no
    execution submits [C] while [B] is still running; in every world [B] is
    marked done before [C] is submitted. *)
Lemma no_dispatch_while_batch_runs :
  ¬ ∃ w i,
      events (run race_scenario None w) !! i = Some (Submit "C") ∧
      ∀ k, k < i → events (run race_scenario None w) !! k ≠ Some (Done "B").
Proof.
  intros (w & i & Hi & Hno).
  destruct (run_spec race_scenario None w)
    as [[_ [c Hr]]|[(_ & _ & Hr)|(_ & _ & r & Hspec & _)]].
  - by rewrite Hr in Hi.
  - by rewrite Hr in Hi.
  - destruct (loop_spec_first_batch race_scenario w ∅ _ r Hspec i "C" "B" Hi)
      as (k & Hk & Hdone).
    + compute_done.
    + compute_done.
    + by apply (Hno k).
Qed.

Lemma declared_iff_name tasks n : declared tasks n ↔ n ∈ name <$> tasks.
Proof.
  split.
  - intros [t [Ht <-]%by_name_of_lookup]. by apply list_elem_of_fmap_2.
  - intros (t & -> & Ht)%list_elem_of_fmap. by apply by_name_of_declared.
Qed.

Lemma results_for_dom tasks w D results :
  results_for tasks w D results → dom results = D.
Proof.
  intros Hr. apply set_eq. intros n. rewrite elem_of_dom. specialize (Hr n).
  destruct (results !! n).
  - split; [tauto|eauto].
  - split; [by intros [? ?]|done].
Qed.

(** What [run] does on a well-formed task set whose actions all succeed. *)
Lemma run_success tasks mw w :
  closed tasks → acyclic tasks → all_succeed tasks w → valid_max_workers mw →
  ∃ results,
    returned (run tasks mw w) = Ok results ∧
    results_for tasks w (task_nodes tasks) results ∧
    loop_spec tasks w ∅ (events (run tasks mw w)) (Ok (task_nodes tasks)).
Proof.
  intros Hcl Hac Hs Hv.
  destruct (run_spec tasks mw w)
    as [[[z Hz] _]|[(_ & Hnv & _)|(_ & _ & r & Hspec & Hret)]].
  - destruct (Hac z Hz).
  - done.
  - destruct (loop_spec_no_raise tasks w ∅ _ r Hcl Hs Hspec) as [D' ->].
    destruct Hret as (results & Hret & Hres).
    destruct (loop_spec_ok tasks w ∅ _ _ Hspec D' eq_refl)
      as (_ & Hnodes & Hrs & _).
    assert (D' = task_nodes tasks) as ->.
    { apply set_eq. intros n. split.
      - intros Hn%Hnodes. clear -Hn. set_solver.
      - by apply acyclic_exhausted. }
    exists results. done.
Qed.

(** C5.  On an acyclic task set (unique names, every dependency declared,
    positive pool size) in which no action fails, [run] submits the action of
    each task exactly once, marks each task done exactly once and after its
    submission, and returns a mapping with exactly one entry per task, keyed
    by the task's name and holding the value its action returned. *)
Theorem every_task_runs_once tasks mw w :
  unique_names tasks → closed tasks → acyclic tasks →
  all_succeed tasks w → valid_max_workers mw →
  ∃ results,
    returned (run tasks mw w) = Ok results ∧
    submitted (events (run tasks mw w)) ≡ₚ name <$> tasks ∧
    completed (events (run tasks mw w)) ≡ₚ name <$> tasks ∧
    (∀ i n, events (run tasks mw w) !! i = Some (Done n) →
            ∃ j, j < i ∧ events (run tasks mw w) !! j = Some (Submit n)) ∧
    dom results = list_to_set (name <$> tasks) ∧
    size results = length tasks ∧
    ∀ t, t ∈ tasks →
         ∃ v, results !! name t = Some v ∧
              action t (env w (name t)) = Returns v.
Proof.
  intros Hu Hcl Hac Hs Hv.
  destruct (run_success tasks mw w Hcl Hac Hs Hv) as (results & Hret & Hres & Hspec).
  destruct (loop_spec_ok tasks w ∅ _ _ Hspec _ eq_refl)
    as (_ & _ & _ & Hnd & Hel & Hcp).
  assert (Hnames : ∀ n, n ∈ task_nodes tasks ↔ n ∈ name <$> tasks).
  { intros n. by rewrite (task_nodes_closed tasks n Hcl), declared_iff_name. }
  assert (Hsub : submitted (events (run tasks mw w)) ≡ₚ name <$> tasks).
  { apply NoDup_Permutation; [done|done|]. intros n. rewrite Hel, Hnames.
    split; [tauto|]. intros ?. split; [done|apply not_elem_of_empty]. }
  assert (Hdom : dom results = list_to_set (name <$> tasks)).
  { rewrite (results_for_dom _ _ _ _ Hres). apply set_eq. intros n.
    by rewrite elem_of_list_to_set, Hnames. }
  exists results. split_and!; try done.
  - by rewrite Hcp.
  - by apply (loop_spec_done_submitted tasks w ∅ _ _ Hspec).
  - rewrite <- size_dom, Hdom, size_list_to_set by done. by rewrite length_fmap.
  - intros t Ht. specialize (Hres (name t)).
    destruct (results !! name t) as [v|].
    + exists v. split; [done|]. by apply (returns_unique tasks w t Hu Ht), Hres.
    + destruct Hres. apply Hnames. by apply list_elem_of_fmap_2.
Qed.

Lemma every_task_runs_once_witness :
  unique_names join_scenario ∧ closed join_scenario ∧ acyclic join_scenario ∧
  all_succeed join_scenario lifo ∧ valid_max_workers (Some 2%Z) ∧
  ∃ results,
    returned (run join_scenario (Some 2%Z) lifo) = Ok results ∧
    submitted (events (run join_scenario (Some 2%Z) lifo)) ≡ₚ name <$> join_scenario ∧
    completed (events (run join_scenario (Some 2%Z) lifo)) ≡ₚ name <$> join_scenario ∧
    (∀ i n, events (run join_scenario (Some 2%Z) lifo) !! i = Some (Done n) →
            ∃ j, j < i ∧
                 events (run join_scenario (Some 2%Z) lifo) !! j = Some (Submit n)) ∧
    dom results = list_to_set (name <$> join_scenario) ∧
    size results = length join_scenario ∧
    ∀ t, t ∈ join_scenario →
         ∃ v, results !! name t = Some v ∧
              action t (env lifo (name t)) = Returns v.
Proof.
  assert (H1 : unique_names join_scenario) by compute_done.
  assert (H2 : closed join_scenario) by (apply closed_check; compute_done).
  assert (H3 : acyclic join_scenario).
  { eapply construct_ok_acyclic. vm_compute. reflexivity. }
  assert (H4 : all_succeed join_scenario lifo).
  { unfold all_succeed. apply Forall_forall.
    repeat (constructor; [eexists; reflexivity|]). constructor. }
  assert (H5 : valid_max_workers (Some 2%Z)) by (cbn; lia).
  split_and!; [exact H1|exact H2|exact H3|exact H4|exact H5|].
  exact (every_task_runs_once join_scenario (Some 2%Z) lifo H1 H2 H3 H4 H5).
Defined.

(** C10.  On an acyclic task set (every dependency declared, positive pool
    size) whose actions are deterministic and all succeed, any two
    executions return the same mapping, whatever the order in which the
    actions of a batch finish; and the ready sets drained by the loop are
    the layers of the graph, each layer holding the tasks all of whose
    dependencies lie in earlier layers. *)
Theorem outcome_independent_of_completion_order tasks mw w1 w2 :
  acyclic tasks → closed tasks → deterministic tasks →
  all_succeed tasks w1 → valid_max_workers mw →
  (∃ results, returned (run tasks mw w1) = Ok results ∧
              returned (run tasks mw w2) = Ok results) ∧
  drained (events (run tasks mw w1)) = layers tasks ∧
  drained (events (run tasks mw w2)) = layers tasks.
Proof.
  intros Hac Hcl Hdet Hs1 Hv.
  assert (Hs2 : all_succeed tasks w2).
  { intros t Ht. destruct (Hs1 t Ht) as [v Hv1]. exists v.
    by rewrite (Hdet t Ht _ (env w1 (name t))). }
  destruct (run_success tasks mw w1 Hcl Hac Hs1 Hv) as (r1 & Hret1 & Hres1 & Hspec1).
  destruct (run_success tasks mw w2 Hcl Hac Hs2 Hv) as (r2 & Hret2 & Hres2 & Hspec2).
  assert (Hlayers : ∀ w evs,
    loop_spec tasks w ∅ evs (Ok (task_nodes tasks)) → drained evs = layers tasks).
  { intros w evs Hspec. unfold layers.
    eapply loop_spec_layers; [done|done|apply empty_subseteq|].
    by rewrite difference_empty_L. }
  split_and!; [|by eapply Hlayers|by eapply Hlayers].
  exists r1. split; [done|]. rewrite Hret2. f_equal.
  apply map_eq. intros n. specialize (Hres1 n). specialize (Hres2 n).
  destruct (r1 !! n) as [v1|], (r2 !! n) as [v2|]; try tauto.
  destruct Hres1 as [_ (t & Ht & Hv1)], Hres2 as [_ (t' & Ht' & Hv2)].
  assert (t' = t) as -> by congruence.
  pose proof Ht as [Hin _]%by_name_of_lookup.
  rewrite (Hdet t Hin _ (env w1 n)) in Hv2. congruence.
Qed.

Lemma outcome_independent_of_completion_order_witness :
  acyclic example_dag ∧ closed example_dag ∧ deterministic example_dag ∧
  all_succeed example_dag fifo ∧ valid_max_workers (Some 8%Z) ∧
  (∃ results, returned (run example_dag (Some 8%Z) fifo) = Ok results ∧
              returned (run example_dag (Some 8%Z) lifo) = Ok results) ∧
  drained (events (run example_dag (Some 8%Z) fifo)) = layers example_dag ∧
  drained (events (run example_dag (Some 8%Z) lifo)) = layers example_dag.
Proof.
  assert (H1 : acyclic example_dag).
  { eapply construct_ok_acyclic. vm_compute. reflexivity. }
  assert (H2 : closed example_dag) by (apply closed_check; compute_done).
  assert (H3 : deterministic example_dag).
  { unfold deterministic.
    apply (Forall_forall (λ t, ∀ e e', action t e = action t e')).
    repeat (constructor; [intros; reflexivity|]). constructor. }
  assert (H4 : all_succeed example_dag fifo).
  { unfold all_succeed. apply Forall_forall.
    repeat (constructor; [eexists; reflexivity|]). constructor. }
  assert (H5 : valid_max_workers (Some 8%Z)) by (cbn; lia).
  refine (conj H1 (conj H2 (conj H3 (conj H4 (conj H5 _))))).
  exact (outcome_independent_of_completion_order example_dag (Some 8%Z)
           fifo lifo H1 H2 H3 H4 H5).
Defined.

(** ** Duplicate names *)

Lemma dict_eq {V} (d1 d2 : dict V) :
  dkeys d1 = dkeys d2 → ditems d1 = ditems d2 → d1 = d2.
Proof. destruct d1, d2. cbn. congruence. Qed.

Lemma graph_of_keys_gen (l : list Task) (d : dict (gset string)) :
  dict_wf d →
  (∀ t, t ∈ l → name t ∉ dkeys d) →
  NoDup (name <$> l) →
  dkeys (foldl (λ d t, dict_set (name t) (deps t) d) d l) = dkeys d ++ (name <$> l).
Proof.
  revert d. induction l as [|t l IH]; intros d Hwf Hfresh Hnd.
  - cbn. by rewrite app_nil_r.
  - cbn in *. apply NoDup_cons in Hnd as [Ht Hnd].
    assert (Hnone : ditems d !! name t = None).
    { destruct (ditems d !! name t) eqn:E; [|done].
      destruct (Hfresh t); [left|]. apply Hwf. eauto. }
    rewrite IH; [| by apply dict_wf_set | | done].
    + unfold dict_set. rewrite Hnone. cbn. by rewrite <- app_assoc.
    + intros t' Ht'. unfold dict_set. rewrite Hnone. cbn.
      intros [Hin|Heq%list_elem_of_singleton]%elem_of_app.
      * apply (Hfresh t'); [by right|done].
      * apply Ht. rewrite <- Heq. by apply list_elem_of_fmap_2.
Qed.

Lemma graph_of_keys_unique l :
  unique_names l → dkeys (graph_of l) = name <$> l.
Proof.
  intros Hu. unfold graph_of. rewrite graph_of_keys_gen; try done.
  - apply dict_wf_empty.
  - intros t _. cbn. by intros ?%elem_of_nil.
Qed.

Lemma graph_of_key_declared tasks n :
  n ∈ dkeys (graph_of tasks) ↔ declared tasks n.
Proof.
  pose proof (graph_of_wf tasks) as [_ Hk]. rewrite Hk, graph_of_items.
  unfold task_graph, declared. rewrite lookup_fmap. by rewrite fmap_is_Some.
Qed.

Lemma last_wins_names tasks :
  name <$> last_wins tasks = dkeys (graph_of tasks).
Proof.
  unfold last_wins.
  assert (Hall : ∀ n, n ∈ dkeys (graph_of tasks) → declared tasks n)
    by (intros n; apply graph_of_key_declared).
  induction (dkeys (graph_of tasks)) as [|k ks IH]; [done|].
  cbn. destruct (Hall k) as [t Ht]; [left|]. rewrite Ht. cbn.
  apply by_name_of_lookup in Ht as [_ ->]. f_equal.
  apply IH. intros n Hn. apply Hall. by right.
Qed.

Lemma last_wins_unique tasks : unique_names (last_wins tasks).
Proof.
  unfold unique_names. rewrite last_wins_names. apply (graph_of_wf tasks).
Qed.

Lemma elem_of_last_wins tasks t :
  t ∈ last_wins tasks ↔ by_name_of tasks !! name t = Some t.
Proof.
  unfold last_wins. rewrite list_elem_of_omap. split.
  - intros (n & _ & Hn). by pose proof Hn as [_ <-]%by_name_of_lookup.
  - intros Ht. exists (name t). split; [|done].
    apply graph_of_key_declared. by exists t.
Qed.

Lemma by_name_of_last_wins tasks :
  by_name_of (last_wins tasks) = by_name_of tasks.
Proof.
  apply map_eq. intros n. apply option_eq. intros t. split.
  - intros [Ht <-]%by_name_of_lookup. by apply elem_of_last_wins.
  - intros Ht. pose proof Ht as [_ <-]%by_name_of_lookup.
    apply by_name_of_unique; [apply last_wins_unique|].
    by apply elem_of_last_wins.
Qed.

Lemma graph_of_last_wins tasks :
  graph_of (last_wins tasks) = graph_of tasks.
Proof.
  apply dict_eq.
  - rewrite graph_of_keys_unique by apply last_wins_unique.
    apply last_wins_names.
  - rewrite !graph_of_items. unfold task_graph. by rewrite by_name_of_last_wins.
Qed.

Lemma by_name_of_last tasks pre t post :
  tasks = pre ++ t :: post → name t ∉ name <$> post →
  by_name_of tasks !! name t = Some t.
Proof.
  intros -> Hn. unfold by_name_of. rewrite foldl_app. cbn.
  rewrite by_name_fold_notin by done. by rewrite lookup_insert_eq.
Qed.

(** C6 (as amended).  Descriptors sharing a name raise no error: the last
    descriptor of each name silently replaces the earlier ones.  [run]
    behaves exactly as on [last_wins tasks], the collection with unique names
    that keeps, for each name, its last descriptor. *)
Theorem duplicate_names_last_wins tasks mw w :
  unique_names (last_wins tasks) ∧
  (∀ pre t post, tasks = pre ++ t :: post → name t ∉ name <$> post →
                 t ∈ last_wins tasks) ∧
  (∀ t, t ∈ last_wins tasks → t ∈ tasks) ∧
  run tasks mw w = run (last_wins tasks) mw w.
Proof.
  split_and!.
  - apply last_wins_unique.
  - intros pre t post Hsplit Hn. apply elem_of_last_wins.
    by eapply by_name_of_last.
  - intros t Ht%elem_of_last_wins. by apply by_name_of_lookup in Ht as [? _].
  - unfold run, construct.
    by rewrite by_name_of_last_wins, graph_of_last_wins.
Qed.

(** C6 as stated fails: two descriptors named [A] are accepted; the action of
    the second one runs and its value is returned. *)
Lemma duplicate_names_accepted :
  run duplicate_scenario None fifo
  = mkExecution [RunLine "A"; DoneLine "A"; RanTasks ["A"]; DoneTasks ["A"]]
                [GetReady ["A"]; Submit "A"; Done "A"]
                (Ok {[ "A" := PyInt 2 ]}).
Proof. vm_compute. reflexivity. Qed.

(** ** Graph construction *)

Lemma by_name_of_unique_iff tasks n t :
  unique_names tasks →
  by_name_of tasks !! n = Some t ↔ t ∈ tasks ∧ name t = n.
Proof.
  intros Hu. split; [apply by_name_of_lookup|].
  intros [Ht <-]. by apply by_name_of_unique.
Qed.

(** Reordering a collection with unique names does not change [by_name]. *)
Lemma by_name_of_perm tasks tasks' :
  unique_names tasks → tasks ≡ₚ tasks' → by_name_of tasks = by_name_of tasks'.
Proof.
  intros Hu Hp.
  assert (Hu' : unique_names tasks') by (unfold unique_names; by rewrite <- Hp).
  apply map_eq. intros n. apply option_eq. intros t.
  rewrite !by_name_of_unique_iff by done. by rewrite Hp.
Qed.

Lemma initial_ready_set_graph tasks d :
  init_ok (task_graph tasks) d →
  list_to_set (graphlib.initial_ready d) = ready_set tasks ∅.
Proof.
  intros Hok%prepare_inv. apply set_eq. intros m.
  rewrite elem_of_list_to_set.
  apply (ready_characterised tasks ∅ d _ m Hok).
Qed.

Lemma successor_set_graph tasks d n m :
  init_ok (task_graph tasks) d →
  m ∈ (list_to_set (succ_of d n) : gset string) ↔ depends_on tasks m n.
Proof.
  intros [Hs _]. rewrite elem_of_list_to_set.
  apply (edge_gdeps (task_graph tasks) d n m Hs).
Qed.

(** C8.  Graph construction depends on the task set only.  For two
    collections that map the same names to the same descriptors (the same
    collection twice, or a collection with unique names and any reordering
    of it), the two sorters built have the same initial ready set and the
    same successor set for every node; and [prepare] treats them alike: both
    constructions fail with a [CycleError], or both succeed with those ready
    and successor sets. *)
Theorem construction_determined_by_task_set tasks tasks' :
  by_name_of tasks = by_name_of tasks' →
  (∃ ts ts',
     graphlib.init (graph_of tasks) = Ok ts ∧
     graphlib.init (graph_of tasks') = Ok ts' ∧
     list_to_set (graphlib.initial_ready (graphlib.node2info ts))
       =@{gset string} list_to_set (graphlib.initial_ready (graphlib.node2info ts')) ∧
     ∀ n, successor_set ts n = successor_set ts' n) ∧
  match construct tasks, construct tasks' with
  | Ok ts, Ok ts' =>
      initial_ready_set ts = initial_ready_set ts' ∧
      ∀ n, successor_set ts n = successor_set ts' n
  | Raise (CycleError _ _), Raise (CycleError _ _) => True
  | _, _ => False
  end.
Proof.
  intros Heq.
  assert (Hg : task_graph tasks = task_graph tasks')
    by (unfold task_graph; by rewrite Heq).
  assert (Hdep : ∀ a b, depends_on tasks a b ↔ depends_on tasks' a b).
  { intros a b. unfold depends_on, task_deps. by rewrite Hg. }
  destruct (run_init tasks) as (d & Hinit & Hok).
  destruct (run_init tasks') as (d' & Hinit' & Hok').
  assert (Hready : list_to_set (graphlib.initial_ready d)
                   =@{gset string} list_to_set (graphlib.initial_ready d')).
  { rewrite (initial_ready_set_graph tasks d Hok).
    rewrite (initial_ready_set_graph tasks' d' Hok').
    unfold ready_set, task_nodes, task_deps. by rewrite Hg. }
  assert (Hsucc : ∀ n, list_to_set (succ_of d n)
                       =@{gset string} list_to_set (succ_of d' n)).
  { intros n. apply set_eq. intros m.
    rewrite (successor_set_graph tasks d n m Hok).
    rewrite (successor_set_graph tasks' d' n m Hok'). apply Hdep. }
  split.
  { eexists _, _. split_and!; [exact Hinit|exact Hinit'|exact Hready|exact Hsucc]. }
  unfold construct. rewrite Hinit, Hinit'. cbn [bind].
  destruct (prepare_spec (task_graph tasks) d Hok)
    as [(c & -> & z & Hz)|[-> Hac]],
     (prepare_spec (task_graph tasks') d' Hok')
    as [(c' & -> & z' & Hz')|[-> Hac']].
  - done.
  - destruct (Hac' z). eapply tc_sub; [|exact Hz].
    intros a b Hab. apply tc_once. by apply Hdep.
  - destruct (Hac z'). eapply tc_sub; [|exact Hz'].
    intros a b Hab. apply tc_once. by apply Hdep.
  - split; [exact Hready|exact Hsucc].
Qed.

Lemma construction_determined_by_task_set_witness :
  by_name_of join_scenario = by_name_of (reverse join_scenario) ∧
  (∃ ts ts',
     graphlib.init (graph_of join_scenario) = Ok ts ∧
     graphlib.init (graph_of (reverse join_scenario)) = Ok ts' ∧
     list_to_set (graphlib.initial_ready (graphlib.node2info ts))
       =@{gset string} list_to_set (graphlib.initial_ready (graphlib.node2info ts')) ∧
     ∀ n, successor_set ts n = successor_set ts' n) ∧
  match construct join_scenario, construct (reverse join_scenario) with
  | Ok ts, Ok ts' =>
      initial_ready_set ts = initial_ready_set ts' ∧
      ∀ n, successor_set ts n = successor_set ts' n
  | Raise (CycleError _ _), Raise (CycleError _ _) => True
  | _, _ => False
  end.
Proof.
  assert (H : by_name_of join_scenario = by_name_of (reverse join_scenario))
    by (vm_compute; reflexivity).
  split; [exact H|].
  exact (construction_determined_by_task_set join_scenario
           (reverse join_scenario) H).
Defined.

(** * Further properties of [run] *)

(** ** Which exceptions leave [run] *)

Lemma loop_spec_raise_submitted tasks w D evs r :
  loop_spec tasks w D evs r →
  ∀ e, r = Raise e →
       (∃ n, raises tasks w n e ∧ n ∈ submitted evs) ∨
       (∃ x, e = KeyError x ∧ ¬ declared tasks x ∧ x ∈ task_nodes tasks).
Proof.
  induction 1 as [D HD|D R pre x post HR Hsplit Hpre Hx
                 |D R pi pre n0 post e0 HR Hdecl Hperm Hsplit Hpre Hn0
                 |D R pi evs r HR Hperm Hall Hrest IH]; intros e Hr; try done.
  - injection Hr as <-. right. exists x. split_and!; [done|done|].
    apply (ready_batch_elem tasks D R x HR). rewrite Hsplit.
    apply elem_of_app. right. left.
  - injection Hr as <-. left. exists n0. split; [done|].
    rewrite round_failure, submitted_round. apply elem_of_app. left.
    rewrite <- Hperm, Hsplit. apply elem_of_app. right. left.
  - destruct (IH e Hr) as [(n & Hn & Hin)|Hk]; [left|by right].
    exists n. split; [done|]. rewrite submitted_round. apply elem_of_app. by right.
Qed.

(** X1.  An exception that leaves [run] is one of four: the [CycleError] of
    [prepare] on a cyclic graph, the [ValueError] of the pool for a
    non-positive [max_workers], the [KeyError] of the lookup of a dependency
    name that no task carries, or the exception raised by the action of a
    task that was submitted.  In the first two cases nothing was printed or
    submitted. *)
Theorem run_raises_only tasks mw w e :
  returned (run tasks mw w) = Raise e →
  (cyclic tasks ∧ (∃ c, e = CycleError "nodes are in a cycle" c) ∧
   printed (run tasks mw w) = [] ∧ events (run tasks mw w) = [])
  ∨ (acyclic tasks ∧ ¬ valid_max_workers mw ∧
     e = ValueError "max_workers must be greater than 0" ∧
     printed (run tasks mw w) = [] ∧ events (run tasks mw w) = [])
  ∨ (acyclic tasks ∧ valid_max_workers mw ∧
     ∃ x, e = KeyError x ∧ ¬ declared tasks x ∧ x ∈ task_nodes tasks)
  ∨ (acyclic tasks ∧ valid_max_workers mw ∧
     ∃ n, raises tasks w n e ∧ n ∈ submitted (events (run tasks mw w))).
Proof.
  intros Hret.
  destruct (run_spec tasks mw w)
    as [[Hcyc [c Hr]]|[(Hac & Hnv & Hr)|(Hac & Hv & r & Hspec & Hpost)]].
  - left. rewrite Hr in Hret |- *. cbn in *. injection Hret as <-. eauto.
  - right. left. rewrite Hr in Hret |- *. cbn in *. injection Hret as <-. eauto.
  - right. right. destruct r as [D'|e'|]; [|  |done].
    + destruct Hpost as (results & Hres & _). congruence.
    + assert (e' = e) as -> by congruence.
      destruct (loop_spec_raise_submitted tasks w ∅ _ _ Hspec e eq_refl)
        as [Hn|Hx]; [right|left]; done.
Qed.

Lemma run_raises_only_witness :
  returned (run failure_scenario None fifo) = Raise (Exception "A") ∧
  ((cyclic failure_scenario ∧ (∃ c, Exception "A" = CycleError "nodes are in a cycle" c) ∧
    printed (run failure_scenario None fifo) = [] ∧
    events (run failure_scenario None fifo) = [])
   ∨ (acyclic failure_scenario ∧ ¬ valid_max_workers None ∧
      Exception "A" = ValueError "max_workers must be greater than 0" ∧
      printed (run failure_scenario None fifo) = [] ∧
      events (run failure_scenario None fifo) = [])
   ∨ (acyclic failure_scenario ∧ valid_max_workers None ∧
      ∃ x, Exception "A" = KeyError x ∧ ¬ declared failure_scenario x ∧
           x ∈ task_nodes failure_scenario)
   ∨ (acyclic failure_scenario ∧ valid_max_workers None ∧
      ∃ n, raises failure_scenario fifo n (Exception "A") ∧
           n ∈ submitted (events (run failure_scenario None fifo)))).
Proof.
  assert (H : returned (run failure_scenario None fifo) = Raise (Exception "A"))
    by (vm_compute; reflexivity).
  split; [exact H|].
  exact (run_raises_only failure_scenario None fifo (Exception "A") H).
Defined.

(** X2.  A non-positive [max_workers] is rejected by the pool after the graph
    was accepted: on an acyclic task set [run] fails with the pool's
    [ValueError], and nothing is printed, submitted or returned. *)
Theorem nonpositive_max_workers_rejected tasks n w :
  acyclic tasks →
  (n ≤ 0)%Z →
  run tasks (Some n) w
  = mkExecution [] [] (Raise (ValueError "max_workers must be greater than 0")).
Proof.
  intros Hac Hn.
  destruct (run_spec tasks (Some n) w) as [[[z Hz] _]|[(_ & _ & Hr)|(_ & Hv & _)]].
  - destruct (Hac z Hz).
  - done.
  - cbn in Hv. lia.
Qed.

Lemma nonpositive_max_workers_rejected_witness :
  acyclic join_scenario ∧ (0 ≤ 0)%Z ∧
  run join_scenario (Some 0%Z) fifo
  = mkExecution [] [] (Raise (ValueError "max_workers must be greater than 0")).
Proof.
  assert (H1 : acyclic join_scenario).
  { eapply construct_ok_acyclic. vm_compute. reflexivity. }
  assert (H2 : (0 ≤ 0)%Z) by lia.
  split_and!; [exact H1|exact H2|].
  exact (nonpositive_max_workers_rejected join_scenario 0%Z fifo H1 H2).
Defined.

(** ** Every run ends, and submits nothing twice *)

Lemma ready_batch_shrinks tasks D R :
  ready_batch tasks D R →
  size (task_nodes tasks ∖ (D ∪ list_to_set R)) < size (task_nodes tasks ∖ D).
Proof.
  intros HR. apply subset_size.
  destruct HR as (Hne & _ & HR). destruct R as [|x R]; [done|].
  assert (Hx : x ∈ ready_set tasks D) by (apply HR; left).
  apply elem_of_ready_set in Hx as (Hx1 & Hx2 & _).
  split; [clear; set_solver|].
  intros Hsb. specialize (Hsb x). clear -Hsb Hx1 Hx2. set_solver.
Qed.

Lemma drained_length_round tasks D R (n : nat) :
  ready_batch tasks D R →
  n ≤ size (task_nodes tasks ∖ (D ∪ list_to_set R)) →
  S n ≤ size (task_nodes tasks ∖ D).
Proof. intros HR%ready_batch_shrinks ?. lia. Qed.

Lemma loop_spec_bounds tasks w D evs r :
  loop_spec tasks w D evs r →
  r ≠ OutOfFuel ∧
  NoDup (submitted evs) ∧
  (∀ n, n ∈ submitted evs → n ∈ task_nodes tasks ∧ (n ∉ D) ∧ declared tasks n) ∧
  NoDup (completed evs) ∧
  (∀ n, n ∈ completed evs → n ∈ submitted evs ∧ ∃ v, returns tasks w n v) ∧
  (∀ i R, evs !! i = Some (GetReady R) → R ≠ []) ∧
  length (drained evs) ≤ size (task_nodes tasks ∖ D).
Proof.
  induction 1 as [D HD|D R pre x post HR Hsplit Hpre Hx
                 |D R pi pre n0 post e0 HR Hdecl Hperm Hsplit Hpre Hn0
                 |D R pi evs r HR Hperm Hall Hrest IH].
  - split_and!; try done; cbn;
      first [lia|by intros ? ?%elem_of_nil|constructor].
  - assert (Hnd : NoDup pre).
    { destruct HR as (_ & Hnd & _). rewrite Hsplit in Hnd.
      by apply NoDup_app in Hnd as (? & _). }
    rewrite round_key_error, submitted_round, completed_round, drained_round.
    rewrite <- round_key_error, !app_nil_r.
    split_and!; try done.
    + intros n Hn.
      destruct (ready_batch_elem tasks D R n HR) as (? & ? & _).
      { rewrite Hsplit. apply elem_of_app. by left. }
      rewrite Forall_forall in Hpre. split_and!; [done|done|by apply Hpre].
    + constructor.
    + by intros ? ?%elem_of_nil.
    + intros i R' Hi. round_cases Hi as k. apply HR.
    + cbn. eapply drained_length_round; [done|lia].
  - assert (Hpre' : NoDup pre ∧ ∀ n, n ∈ pre → n ∈ R).
    { assert (Hnd : NoDup pi) by (rewrite Hperm; apply HR).
      rewrite Hsplit in Hnd. apply NoDup_app in Hnd as (? & _).
      split; [done|]. intros n Hn. rewrite <- Hperm, Hsplit.
      apply elem_of_app. by left. }
    rewrite round_failure, submitted_round, completed_round, drained_round.
    rewrite <- round_failure, !app_nil_r.
    split_and!; try done.
    + apply HR.
    + intros n Hn.
      destruct (ready_batch_elem tasks D R n HR Hn) as (? & ? & _).
      rewrite Forall_forall in Hdecl. split_and!; [done|done|by apply Hdecl].
    + apply Hpre'.
    + intros n Hn. split; [by apply Hpre'|].
      rewrite Forall_forall in Hpre. by apply Hpre.
    + intros i R' Hi. round_cases Hi as k. apply HR.
    + cbn. eapply drained_length_round; [done|lia].
  - destruct IH as (Hr & Hnd & Hel & Hndc & Hc & Hne & Hlen).
    rewrite submitted_round, completed_round, drained_round.
    rewrite Forall_forall in Hall.
    split_and!; try done.
    + apply NoDup_app. split_and!; [apply HR| |done].
      intros n Hn Hn'%Hel. destruct Hn' as (_ & Hn' & _). apply Hn'.
      apply elem_of_union. right. by apply elem_of_list_to_set.
    + intros n [Hn|Hn]%elem_of_app.
      * destruct (ready_batch_elem tasks D R n HR Hn) as (? & ? & _).
        destruct (Hall n Hn) as [v Hv].
        split_and!; [done|done|by eapply returns_declared].
      * destruct (Hel n Hn) as (? & Hn' & ?). split_and!; [done| |done].
        intros ?. apply Hn', elem_of_union. by left.
    + apply NoDup_app. split_and!; [rewrite Hperm; apply HR| |done].
      intros n Hn Hn'. rewrite Hperm in Hn.
      destruct (Hc n Hn') as [Hs _]. destruct (Hel n Hs) as (_ & Hn'' & _).
      apply Hn'', elem_of_union. right. by apply elem_of_list_to_set.
    + intros n [Hn|Hn]%elem_of_app.
      * rewrite Hperm in Hn. split; [|by apply Hall].
        apply elem_of_app. by left.
      * destruct (Hc n Hn). split; [|done]. apply elem_of_app. by right.
    + intros i R' Hi. round_cases Hi as k; [apply HR|]. by eapply Hne.
    + cbn. eapply drained_length_round; done.
Qed.

Lemma run_loop_facts tasks mw w :
  (run tasks mw w = mkExecution [] [] (returned (run tasks mw w)) ∧
   ∃ e, returned (run tasks mw w) = Raise e)
  ∨ ∃ r, loop_spec tasks w ∅ (events (run tasks mw w)) r ∧
         match r with
         | Ok D => ∃ results, returned (run tasks mw w) = Ok results ∧
                              results_for tasks w D results
         | Raise e => returned (run tasks mw w) = Raise e
         | OutOfFuel => False
         end.
Proof.
  destruct (run_spec tasks mw w)
    as [[_ [c Hr]]|[(_ & _ & Hr)|(_ & _ & Hout)]].
  - left. rewrite Hr. cbn. eauto.
  - left. rewrite Hr. cbn. eauto.
  - by right.
Qed.

(** X3.  Every call of [run] ends: it returns or raises after at most as
    many rounds of the loop as the graph has nodes, and [get_ready] never
    hands the loop an empty batch. *)
Theorem run_ends_within_node_count tasks mw w :
  returned (run tasks mw w) ≠ OutOfFuel ∧
  length (drained (events (run tasks mw w))) ≤ size (task_nodes tasks) ∧
  ∀ i R, events (run tasks mw w) !! i = Some (GetReady R) → R ≠ [].
Proof.
  destruct (run_loop_facts tasks mw w) as [[Hr [e He]]|(r & Hspec & Hout)].
  - rewrite Hr. cbn. split_and!; [congruence|lia|done].
  - destruct (loop_spec_bounds tasks w ∅ _ r Hspec)
      as (Hr & _ & _ & _ & _ & Hne & Hlen).
    rewrite difference_empty_L in Hlen. split_and!; [|done|done].
    destruct r as [D'|e|]; [|congruence|done].
    destruct Hout as (results & -> & _). done.
Qed.

(** X4.  In every run, also one that ends in an exception, no name is
    submitted twice and none is marked done twice; what is submitted is the
    name of a task, and what is marked done was submitted before and its
    action returned. *)
Theorem no_task_runs_twice tasks mw w :
  NoDup (submitted (events (run tasks mw w))) ∧
  NoDup (completed (events (run tasks mw w))) ∧
  (∀ n, n ∈ submitted (events (run tasks mw w)) → declared tasks n) ∧
  (∀ n, n ∈ completed (events (run tasks mw w)) →
        n ∈ submitted (events (run tasks mw w)) ∧ ∃ v, returns tasks w n v) ∧
  (∀ i n, events (run tasks mw w) !! i = Some (Done n) →
          ∃ j, j < i ∧ events (run tasks mw w) !! j = Some (Submit n)).
Proof.
  destruct (run_loop_facts tasks mw w) as [[Hr [e He]]|(r & Hspec & Hout)].
  - rewrite Hr. cbn.
    split_and!; first [apply NoDup_nil_2|by intros ? ?%elem_of_nil|done].
  - destruct (loop_spec_bounds tasks w ∅ _ r Hspec)
      as (_ & Hnd & Hel & Hndc & Hc & _).
    split_and!; try done.
    + intros n Hn. by apply Hel.
    + by apply (loop_spec_done_submitted tasks w ∅ _ r Hspec).
Qed.

(** ** When [run] returns, and what *)

Lemma returns_functional tasks w n v v' :
  returns tasks w n v → returns tasks w n v' → v = v'.
Proof. intros (t & Ht & Hv) (t' & Ht' & Hv'). congruence. Qed.

Lemma loop_spec_all_return tasks w D evs r :
  closed tasks → all_return tasks w →
  loop_spec tasks w D evs r → ∃ D', r = Ok D'.
Proof.
  intros Hc Hs.
  induction 1 as [D HD|D R pre x post HR Hsplit Hpre Hx
                 |D R pi pre n0 post e0 HR Hdecl Hperm Hsplit Hpre Hn0
                 |D R pi evs r HR Hperm Hall Hrest IH].
  - by eexists.
  - destruct Hx. apply (task_nodes_closed tasks x Hc).
    apply (ready_batch_elem tasks D R x HR). rewrite Hsplit.
    apply elem_of_app. right. left.
  - destruct (Hs n0) as [v Hv].
    { destruct Hn0 as (t & Ht & _). by exists t. }
    destruct (returns_raises tasks w n0 v e0 Hv Hn0).
  - done.
Qed.

(** What a normal return of [run] tells: the graph is acyclic, the tasks
    done are exactly its nodes, and each of them was marked done. *)
Lemma run_returned tasks mw w results :
  returned (run tasks mw w) = Ok results →
  acyclic tasks ∧ valid_max_workers mw ∧
  results_for tasks w (task_nodes tasks) results ∧
  loop_spec tasks w ∅ (events (run tasks mw w)) (Ok (task_nodes tasks)).
Proof.
  intros Hret.
  destruct (run_spec tasks mw w)
    as [[_ [c Hr]]|[(_ & _ & Hr)|(Hac & Hv & r & Hspec & Hout)]].
  - rewrite Hr in Hret. done.
  - rewrite Hr in Hret. done.
  - destruct r as [D'|e|]; [|congruence|done].
    destruct Hout as (results' & Hret' & Hres).
    assert (results' = results) as -> by congruence.
    destruct (loop_spec_ok tasks w ∅ _ _ Hspec D' eq_refl)
      as (_ & Hnodes & Hrs & _).
    assert (D' = task_nodes tasks) as ->; [|done].
    apply set_eq. intros n. split.
    + intros Hn%Hnodes. clear -Hn. set_solver.
    + by apply acyclic_exhausted.
Qed.

(** X5.  [run] returns a mapping exactly when the graph has no cycle, the
    pool size is valid, every dependency is the name of a task, and the
    action of every task that [by_name] holds returns; in every other case
    it raises. *)
Theorem run_returns_iff tasks mw w :
  (∃ results, returned (run tasks mw w) = Ok results)
  ↔ acyclic tasks ∧ valid_max_workers mw ∧ closed tasks ∧ all_return tasks w.
Proof.
  split.
  - intros [results Hret].
    destruct (run_returned tasks mw w results Hret) as (Hac & Hv & Hres & Hspec).
    destruct (loop_spec_ok tasks w ∅ _ _ Hspec _ eq_refl)
      as (_ & _ & _ & _ & Hel & Hcp).
    destruct (loop_spec_bounds tasks w ∅ _ _ Hspec) as (_ & _ & Hsub & _ & Hc & _).
    assert (Hnode : ∀ n, n ∈ task_nodes tasks →
                         declared tasks n ∧ ∃ v, returns tasks w n v).
    { intros n Hn.
      assert (Hs : n ∈ submitted (events (run tasks mw w))).
      { apply Hel. split; [done|apply not_elem_of_empty]. }
      split; [by apply Hsub|]. rewrite <- Hcp in Hs. by apply Hc. }
    split_and!; [done|done| |].
    + intros n d Hd. apply Hnode, elem_of_task_nodes. right. by exists n.
    + intros n Hn. apply Hnode, elem_of_task_nodes. by left.
  - intros (Hac & Hv & Hcl & Hall).
    destruct (run_spec tasks mw w)
      as [[[z Hz] _]|[(_ & Hnv & _)|(_ & _ & r & Hspec & Hout)]].
    + destruct (Hac z Hz).
    + done.
    + destruct (loop_spec_all_return tasks w ∅ _ r Hcl Hall Hspec) as [D' ->].
      destruct Hout as (results & Hret & _). by exists results.
Qed.

(** X6.  The mapping [run] returns holds, under each task name that
    [by_name] holds, the value the action of that task returned, and nothing
    else. *)
Theorem returned_mapping_exact tasks mw w results :
  returned (run tasks mw w) = Ok results →
  ∀ n v, results !! n = Some v ↔ returns tasks w n v.
Proof.
  intros Hret n v.
  destruct (run_returned tasks mw w results Hret) as (_ & _ & Hres & _).
  specialize (Hres n). split.
  - intros Hn. rewrite Hn in Hres. apply Hres.
  - intros Hv. destruct (results !! n) as [v'|].
    + f_equal. eapply returns_functional; [apply Hres|done].
    + destruct Hres. apply elem_of_task_nodes. left. by eapply returns_declared.
Qed.

Lemma returned_mapping_exact_witness :
  returned (run duplicate_scenario None fifo) = Ok {[ "A" := PyInt 2 ]} ∧
  ∀ n v, ({[ "A" := PyInt 2 ]} : gmap string object) !! n = Some v
         ↔ returns duplicate_scenario fifo n v.
Proof.
  assert (H : returned (run duplicate_scenario None fifo)
              = Ok {[ "A" := PyInt 2 ]})
    by (vm_compute; reflexivity).
  split; [exact H|].
  exact (returned_mapping_exact duplicate_scenario None fifo _ H).
Defined.

(** ** What [run] prints *)

Lemma progress_snoc evs e :
  progress (evs ++ [e])
  = progress evs ++ match e with
                    | Submit n => [RunLine n]
                    | Done n => [DoneLine n]
                    | GetReady _ => []
                    end.
Proof. unfold progress. rewrite omap_app. by destruct e. Qed.

Lemma submitted_snoc evs e :
  submitted (evs ++ [e])
  = submitted evs ++ match e with Submit n => [n] | _ => [] end.
Proof. unfold submitted. rewrite omap_app. by destruct e. Qed.

Lemma completed_snoc evs e :
  completed (evs ++ [e])
  = completed evs ++ match e with Done n => [n] | _ => [] end.
Proof. unfold completed. rewrite omap_app. by destruct e. Qed.

Lemma submit_all_logged w bn ready futs st st' futs' :
  logged st →
  submit_all w bn ready futs st = (st', Ok futs') →
  logged st'.
Proof.
  revert futs st. induction ready as [|n rest IH]; intros futs st Hlog; cbn.
  { by intros [= <- _]. }
  destruct (bn !! n) as [t|]; [|done].
  apply IH. destruct Hlog as (Hout & Hran & Hdone).
  unfold logged. cbn.
  rewrite progress_snoc, submitted_snoc, completed_snoc, app_nil_r.
  by rewrite Hout, Hran, Hdone.
Qed.

Lemma collect_logged futs st st' :
  logged st →
  collect futs st = (st', Ok tt) →
  logged st'.
Proof.
  revert st. induction futs as [|[fut n] rest IH]; intros st Hlog; cbn.
  { by intros [= <-]. }
  destruct fut as [v|e]; [|done].
  destruct (graphlib.done n (ts st)) as [ts'|e|]; [|done|done].
  apply IH. destruct Hlog as (Hout & Hran & Hdone).
  unfold logged. cbn.
  rewrite progress_snoc, submitted_snoc, completed_snoc, app_nil_r.
  by rewrite Hout, Hran, Hdone.
Qed.

Lemma run_loop_logged fuel w bn st st' :
  logged st →
  run_loop fuel w bn st = (st', Ok tt) →
  logged st'.
Proof.
  revert st. induction fuel as [|fuel IH]; intros st Hlog; cbn; [done|].
  destruct (graphlib.is_active (ts st)) as [[]|e|]; [| |done|done].
  2:{ by intros [= <-]. }
  destruct (graphlib.get_ready (ts st)) as [[ready ts']|e|]; [|done|done].
  destruct (submit_all _ _ _ _ _) as [st1 [futs|e|]] eqn:Hsub; [|done|done].
  destruct (collect _ _) as [st2 [[]|e|]] eqn:Hcol; [|done|done].
  apply IH. eapply collect_logged; [|done].
  eapply submit_all_logged; [|done].
  destruct Hlog as (Hout & Hran & Hdone). unfold logged. cbn.
  rewrite progress_snoc, submitted_snoc, completed_snoc, !app_nil_r.
  by rewrite Hout, Hran, Hdone.
Qed.

(** X7.  When [run] returns, it has printed a line [run  n] for each
    submission and a line [done n] for each completion, in the order in
    which these happened, followed by the two summary lines, which list the
    names in the order of their submission and of their completion. *)
Theorem printed_on_return tasks mw w results :
  returned (run tasks mw w) = Ok results →
  printed (run tasks mw w)
  = progress (events (run tasks mw w))
    ++ [RanTasks (submitted (events (run tasks mw w)));
        DoneTasks (completed (events (run tasks mw w)))].
Proof.
  unfold run.
  destruct (construct tasks) as [ts1|e|]; [|done|done].
  destruct (ThreadPoolExecutor mw (cpu_count w)) as [nw|e|]; [|done|done].
  destruct (run_loop _ _ _ _) as [st [[]|e|]] eqn:Hloop; [|done|done].
  intros _. cbn.
  apply run_loop_logged in Hloop as (Hout & Hran & Hdone); [|done].
  by rewrite Hout, Hran, Hdone.
Qed.

Lemma printed_on_return_witness :
  returned (run race_scenario None lifo)
  = Ok {[ "A" := PyStr "A"; "B" := PyStr "B"; "C" := PyStr "C" ]} ∧
  printed (run race_scenario None lifo)
  = progress (events (run race_scenario None lifo))
    ++ [RanTasks (submitted (events (run race_scenario None lifo)));
        DoneTasks (completed (events (run race_scenario None lifo)))].
Proof.
  assert (H : returned (run race_scenario None lifo)
              = Ok {[ "A" := PyStr "A"; "B" := PyStr "B"; "C" := PyStr "C" ]})
    by (vm_compute; reflexivity).
  split; [exact H|].
  exact (printed_on_return race_scenario None lifo _ H).
Defined.

(** ** The cycle that [CycleError] reports *)

Lemma last_rev {A} (l : list A) : last (rev l) = head l.
Proof. destruct l as [|x l]; [done|]. cbn. by rewrite last_snoc. Qed.

Lemma linked_drop_snoc {A} (E : relation A) (l : list A) i b :
  linked E l →
  (∀ t, last l = Some t → E t b) →
  linked E (drop i l ++ [b]).
Proof.
  intros Hl Hb j x y Hx Hy.
  apply lookup_app_Some in Hy as [Hy|[Hlen Hy]].
  - rewrite lookup_app_l in Hx by (apply lookup_lt_Some in Hy; lia).
    rewrite lookup_drop in Hx, Hy.
    apply (Hl (i + j)); [done|]. by replace (S (i + j)) with (i + S j) by lia.
  - apply list_lookup_singleton_Some in Hy as [Hj <-].
    rewrite lookup_app_l in Hx by lia.
    apply Hb. rewrite last_lookup. rewrite lookup_drop in Hx.
    rewrite length_drop in Hlen, Hj. rewrite <- Hx. f_equal.
    apply lookup_lt_Some in Hx. lia.
Qed.

Lemma linked_snoc {A} (E : relation A) (l : list A) b :
  linked E l → (∀ t, last l = Some t → E t b) → linked E (l ++ [b]).
Proof. intros Hl Hb. by apply (linked_drop_snoc E l 0 b). Qed.

Section cycle_found.
Import graphlib.
Variable n2i : dict NodeInfo.
Hypothesis n2i_wf : dict_wf n2i.
Hypothesis n2i_closed : ∀ x y, edge n2i x y → is_Some (ditems n2i !! y).

(** The stack, read from the bottom, is a path, and the node in hand is a
    successor of its top. *)
Lemma chain_linked B c stk its :
  chain n2i B c stk its →
  linked (edge n2i) (rev stk) ∧
  ∀ y top, c = Some y → head stk = Some top → edge n2i top y.
Proof.
  induction 1 as [c|c x stk it its consumed Hsucc Hcons Hc Hch [IH1 IH2]].
  - split; [|done]. by intros j a b ?.
  - split.
    + cbn [rev]. apply linked_snoc; [done|]. intros t Ht.
      rewrite last_rev in Ht. by apply IH2.
    + intros y top -> [= <-]. unfold edge. rewrite Hsucc.
      apply elem_of_app. left. by apply Hc.
Qed.

Lemma index_ok_push n stk n2s :
  index_ok stk n2s → index_ok (n :: stk) (<[n := length stk]> n2s).
Proof.
  intros Hok x i. cbn [rev]. destruct (decide (x = n)) as [-> |Hne].
  - rewrite lookup_insert_eq. intros [= <-].
    rewrite lookup_app_r by (rewrite length_rev; lia).
    rewrite length_rev. by replace (length stk - length stk) with 0 by lia.
  - rewrite lookup_insert_ne by done. intros Hx%Hok.
    by apply lookup_app_l_Some.
Qed.

Lemma index_ok_backtrack stk its n2s sn :
  index_ok stk n2s →
  index_ok (stack (backtrack stk its n2s sn).2)
           (node2stacki (backtrack stk its n2s sn).2).
Proof.
  revert its n2s. induction stk as [|top stk IH]; intros its n2s Hok; [done|].
  destruct its as [|[|nxt it] its]; cbn; [done| |done].
  apply IH. intros x i Hx.
  apply lookup_delete_Some in Hx as [Hne Hx]. apply Hok in Hx. cbn [rev] in Hx.
  apply lookup_app_Some in Hx as [Hx|[_ Hx]]; [done|].
  apply list_lookup_singleton_Some in Hx as [_ ->]. done.
Qed.

Lemma index_ok_empty n2s sn :
  dfs_inv n2i None [] [] n2s sn → index_ok [] n2s.
Proof.
  intros (_ & Hn2s & _) x i Hx.
  assert (Hin : x ∈ @nil string) by (apply Hn2s; eauto).
  by apply elem_of_nil in Hin.
Qed.

(** The list that the search returns is a cycle of the graph. *)
Lemma explore_cycle fuel : ∀ n s c s',
  dfs_inv n2i (Some n) (stack s) (itstack s) (node2stacki s) (seen s) →
  index_ok (stack s) (node2stacki s) →
  explore fuel n2i n s = Ok (Some c, s') →
  cycle_path (edge n2i) c.
Proof.
  induction fuel as [|fuel IH]; intros n s c s' Hinv Hidx; [done|].
  cbn [explore].
  assert (Hstep : ∀ stk its n2s sn,
    dfs_inv n2i None stk its n2s sn →
    index_ok stk n2s →
    match backtrack stk its n2s sn with
    | (Some n', s1) => explore fuel n2i n' s1
    | (None, s1) => Ok (None, s1)
    end = Ok (Some c, s') →
    cycle_path (edge n2i) c).
  { intros stk its n2s sn Hi Hix.
    pose proof (backtrack_spec n2i n2i_wf n2i_closed stk its n2s sn Hi) as Hb.
    pose proof (index_ok_backtrack stk its n2s sn Hix) as Hix'.
    destruct (backtrack stk its n2s sn) as [[n'|] s1]; [|done].
    destruct Hb as (Hi1 & _). by apply IH. }
  destruct (decide (n ∈ seen s)) as [Hseen|Hseen].
  - destruct (node2stacki s !! n) as [i|] eqn:Hi.
    + intros [= <- <-].
      pose proof (Hidx n i Hi) as Hn.
      destruct Hinv as (_ & _ & _ & Hch & _).
      destruct (chain_linked _ _ _ _ Hch) as [Hlink Htop].
      rewrite (drop_S _ _ _ Hn). split_and!.
      * cbn. rewrite length_app. cbn. lia.
      * cbn [head app]. rewrite app_comm_cons. by rewrite last_snoc.
      * rewrite <- (drop_S _ _ _ Hn). apply linked_drop_snoc; [done|].
        intros t Ht. rewrite last_rev in Ht. by apply Htop.
    + apply Hstep; [|done].
      destruct Hinv as (Hnd & Hn2s & Hsub & Hch & Hcl & Hac).
      split_and!; try done.
      eapply chain_child_black; [|done]. intros y [= <-].
      unfold black. apply elem_of_difference. split; [done|].
      rewrite elem_of_list_to_set. intros Hin. apply Hn2s in Hin.
      rewrite Hi in Hin. by destruct Hin.
  - unfold dict_get. destruct (ditems n2i !! n) as [info|] eqn:Hinfo; [|done].
    apply Hstep.
    + by apply dfs_inv_push.
    + by apply index_ok_push.
Qed.

Lemma find_cycle_from_cycle roots : ∀ s c,
  stack s = [] → itstack s = [] →
  dfs_inv n2i None [] [] (node2stacki s) (seen s) →
  (∀ r, r ∈ roots → is_Some (ditems n2i !! r)) →
  find_cycle_from (S (nedges n2i)) n2i roots s = Ok (Some c) →
  cycle_path (edge n2i) c.
Proof.
  induction roots as [|n roots IH]; intros s c Hstk Hits Hinv Hroots; [done|].
  cbn [find_cycle_from].
  assert (Hrest : ∀ r, r ∈ roots → is_Some (ditems n2i !! r))
    by (intros; apply Hroots; by right).
  destruct (decide (n ∈ seen s)) as [Hseen|Hseen]; [by apply IH|].
  destruct (explore_spec n2i n2i_wf n2i_closed (S (nedges n2i)) n s)
    as (r & s' & Hr & Hpost).
  - rewrite Hstk, Hits. by apply dfs_inv_root.
  - apply Hroots. left.
  - unfold remaining_edges. rewrite Hits. cbn.
    assert (unseen_edges n2i (seen s) ≤ nedges n2i)
      by (by apply unseen_edges_le).
    lia.
  - rewrite Hr. cbn [bind]. destruct r as [c'|].
    + intros [= <-]. eapply (explore_cycle _ n s c' s'); [| |done].
      * rewrite Hstk, Hits. by apply dfs_inv_root.
      * rewrite Hstk. by eapply index_ok_empty.
    + destruct Hpost as (Hstk' & Hits' & Hinv' & _). by apply IH.
Qed.
End cycle_found.

Lemma construct_cycle tasks msg c :
  construct tasks = Raise (CycleError msg c) →
  msg = "nodes are in a cycle" ∧
  cycle_path (λ a b, depends_on tasks b a) c.
Proof.
  unfold construct.
  destruct (run_init tasks) as (d & Hinit & [Hs Hnp]). rewrite Hinit. cbn [bind].
  unfold graphlib.prepare. cbn.
  pose proof (structure_closed (task_graph tasks) d) as Hcl.
  destruct (find_cycle_spec d (proj1 Hs) (λ x y, Hcl x y Hs)
              (Some (graphlib.initial_ready d)) 0 0) as (r & Hr & _).
  rewrite Hr. cbn [bind]. destruct r as [[|c0 c']|]; [done| |done].
  intros [= <- <-]. split; [done|].
  unfold graphlib.find_cycle in Hr. cbn in Hr.
  apply (find_cycle_from_cycle d (proj1 Hs) (λ x y, Hcl x y Hs)) in Hr.
  - destruct Hr as (Hlen & Hends & Hlink). split_and!; [done|done|].
    intros j a b Ha Hb. apply (edge_gdeps (task_graph tasks) d a b Hs).
    by apply (Hlink j).
  - done.
  - done.
  - cbn. apply dfs_inv_initial; [apply Hs|by intros x y; apply Hcl].
  - intros k Hk. by apply (proj1 Hs).
Qed.

(** X8.  The list that the [CycleError] of a cyclic task set carries is a
    cycle of the graph: its first and last names are the same, and each name
    is a dependency of the name that follows it. *)
Theorem cycle_error_carries_cycle tasks mw w :
  cyclic tasks →
  ∃ c, returned (run tasks mw w)
       = Raise (CycleError "nodes are in a cycle" c) ∧
       cycle_path (λ a b, depends_on tasks b a) c.
Proof.
  intros [n Hn].
  destruct (construct_spec tasks) as (d & _ & [[_ [c Hc]]|[Hac _]]).
  - exists c. split.
    + unfold run. by rewrite Hc.
    + by apply (construct_cycle tasks _ c Hc).
  - destruct (Hac n Hn).
Qed.

Lemma cycle_error_carries_cycle_witness :
  cyclic cycle_scenario ∧
  ∃ c, returned (run cycle_scenario None fifo)
       = Raise (CycleError "nodes are in a cycle" c) ∧
       cycle_path (λ a b, depends_on cycle_scenario b a) c.
Proof.
  assert (H : cyclic cycle_scenario).
  { exists "A". eapply (tc_l _ "A" "B" "A"); [|apply tc_once].
    - compute_done.
    - compute_done. }
  split; [exact H|]. exact (cycle_error_carries_cycle cycle_scenario None fifo H).
Defined.

(** ** The sorter that [run] builds *)

(** X9.  When the construction succeeds, the sorter holds one node for each
    task name and each dependency name, also for a dependency name that no
    task carries; a node's predecessor count is the number of its
    dependencies, its successor list enumerates once each the tasks that
    depend on it, the ready list enumerates once each the nodes without
    dependencies, and nothing is passed out or finished. *)
Theorem sorter_built_from_tasks tasks ts :
  construct tasks = Ok ts →
  acyclic tasks ∧
  NoDup (dkeys (graphlib.node2info ts)) ∧
  (∀ n, n ∈ dkeys (graphlib.node2info ts) ↔ n ∈ task_nodes tasks) ∧
  (∀ n, n ∈ task_nodes tasks →
     ∃ info, dict_get n (graphlib.node2info ts) = Some info ∧
             graphlib.node info = n ∧
             graphlib.npredecessors info = Z.of_nat (size (task_deps tasks n)) ∧
             NoDup (graphlib.successors info) ∧
             ∀ m, m ∈ graphlib.successors info ↔ depends_on tasks m n) ∧
  (∃ ready, graphlib.ready_nodes ts = Some ready ∧ NoDup ready ∧
            ∀ m, m ∈ ready ↔ m ∈ task_nodes tasks ∧ task_deps tasks m = ∅) ∧
  graphlib.npassedout ts = 0 ∧ graphlib.nfinished ts = 0.
Proof.
  intros Hc.
  destruct (construct_spec tasks) as (d & Hok & [[_ [c Hr]]|[Hac Hts]]);
    [congruence|].
  assert (ts = graphlib.mkSorter d (Some (graphlib.initial_ready d)) 0 0)
    as -> by congruence.
  pose proof (prepare_inv (task_graph tasks) d Hok)
    as (_ & _ & Hnd & Hready & _).
  destruct Hok as [([Hndk Hk] & Hkeys & Hinfo) Hnp]. cbn.
  split_and!; try done.
  - intros n. by rewrite Hk, Hkeys.
  - intros n Hn. apply Hkeys in Hn as [info Hi]. exists info.
    destruct (Hinfo n info Hi) as (? & ? & ?).
    split_and!; try done. by apply Hnp.
  - exists (graphlib.initial_ready d). split_and!; [done|done|].
    intros m. rewrite Hready. unfold task_nodes, task_deps. split.
    + intros (? & _ & _ & Hsub & _). split; [done|].
      apply set_eq. intros x. split; [apply Hsub|by intros ?%not_elem_of_empty].
    + intros [? ->]. split_and!; try done; try apply not_elem_of_empty.
      by intros ?%elem_of_nil.
Qed.

Lemma sorter_built_from_tasks_witness :
  ∃ ts,
    construct unknown_dependency_scenario = Ok ts ∧
    acyclic unknown_dependency_scenario ∧
    NoDup (dkeys (graphlib.node2info ts)) ∧
    (∀ n, n ∈ dkeys (graphlib.node2info ts)
          ↔ n ∈ task_nodes unknown_dependency_scenario) ∧
    (∀ n, n ∈ task_nodes unknown_dependency_scenario →
       ∃ info, dict_get n (graphlib.node2info ts) = Some info ∧
               graphlib.node info = n ∧
               graphlib.npredecessors info
               = Z.of_nat (size (task_deps unknown_dependency_scenario n)) ∧
               NoDup (graphlib.successors info) ∧
               ∀ m, m ∈ graphlib.successors info
                    ↔ depends_on unknown_dependency_scenario m n) ∧
    (∃ ready, graphlib.ready_nodes ts = Some ready ∧ NoDup ready ∧
              ∀ m, m ∈ ready ↔ m ∈ task_nodes unknown_dependency_scenario ∧
                                task_deps unknown_dependency_scenario m = ∅) ∧
    graphlib.npassedout ts = 0 ∧ graphlib.nfinished ts = 0.
Proof.
  eexists. split; [vm_compute; reflexivity|].
  apply (sorter_built_from_tasks unknown_dependency_scenario).
  vm_compute. reflexivity.
Defined.

(** ** The batches of any run *)

Lemma ready_batch_layer tasks D R fuel :
  ready_batch tasks D R →
  size (task_nodes tasks ∖ D) ≤ fuel →
  ∃ fuel', fuel = S fuel' ∧
    size (task_nodes tasks ∖ (D ∪ list_to_set R)) ≤ fuel' ∧
    layers_from fuel tasks D
    = list_to_set R :: layers_from fuel' tasks (D ∪ list_to_set R).
Proof.
  intros HR Hfuel. pose proof (ready_batch_shrinks tasks D R HR) as Hlt.
  destruct fuel as [|fuel']; [lia|]. exists fuel'. split_and!; [done|lia|].
  pose proof (ready_batch_set tasks D R HR) as Hset. cbn.
  rewrite decide_False; [by rewrite Hset|].
  intros Hemp. destruct HR as (Hne & _ & HR). destruct R as [|x R]; [done|].
  assert (Hx : x ∈ ready_set tasks D) by (apply HR; left).
  rewrite Hemp in Hx. by apply not_elem_of_empty in Hx.
Qed.

Lemma loop_spec_layers_prefix tasks w D evs r :
  loop_spec tasks w D evs r →
  ∀ fuel, size (task_nodes tasks ∖ D) ≤ fuel →
          drained evs `prefix_of` layers_from fuel tasks D.
Proof.
  induction 1 as [D HD|D R pre x post HR Hsplit Hpre Hx
                 |D R pi pre n0 post e0 HR Hdecl Hperm Hsplit Hpre Hn0
                 |D R pi evs r HR Hperm Hall Hrest IH]; intros fuel Hfuel.
  - apply prefix_nil.
  - destruct (ready_batch_layer tasks D R fuel HR Hfuel) as (f & -> & _ & ->).
    rewrite round_key_error, drained_round. apply prefix_cons, prefix_nil.
  - destruct (ready_batch_layer tasks D R fuel HR Hfuel) as (f & -> & _ & ->).
    rewrite round_failure, drained_round. apply prefix_cons, prefix_nil.
  - destruct (ready_batch_layer tasks D R fuel HR Hfuel) as (f & -> & Hf & ->).
    rewrite drained_round. apply prefix_cons. by apply IH.
Qed.

(** X10.  Whatever the completion order and however the run ends, the
    batches that [get_ready] hands out are the first layers of the graph, in
    order: the k-th batch holds the nodes all of whose dependencies lie in
    earlier batches. *)
Theorem batches_are_leading_layers tasks mw w :
  drained (events (run tasks mw w)) `prefix_of` layers tasks.
Proof.
  destruct (run_loop_facts tasks mw w) as [[Hr _]|(r & Hspec & _)].
  - rewrite Hr. cbn. apply prefix_nil.
  - apply (loop_spec_layers_prefix tasks w ∅ _ r Hspec).
    by rewrite difference_empty_L.
Qed.

(** ** Tasks that return their label *)

Lemma run_returns tasks mw w :
  acyclic tasks → valid_max_workers mw → closed tasks → all_return tasks w →
  ∃ results, returned (run tasks mw w) = Ok results.
Proof.
  intros Hac Hv Hcl Hall.
  destruct (run_spec tasks mw w)
    as [[[z Hz] _]|[(_ & Hnv & _)|(_ & _ & r & Hspec & Hout)]].
  - destruct (Hac z Hz).
  - done.
  - destruct (loop_spec_all_return tasks w ∅ _ r Hcl Hall Hspec) as [D' ->].
    destruct Hout as (results & Hret & _). by exists results.
Qed.

Lemma labels_lookup names n :
  labels names !! n = if decide (n ∈ names) then Some (PyStr n) else None.
Proof.
  unfold labels. induction names as [|m names IH]; cbn.
  { rewrite lookup_empty. by rewrite decide_False by (by intros ?%elem_of_nil). }
  destruct (decide (n = m)) as [-> |Hne].
  - rewrite lookup_insert_eq. rewrite decide_True; [done|left].
  - rewrite lookup_insert_ne by done. rewrite IH.
    destruct (decide (n ∈ names)) as [Hin|Hin].
    + rewrite decide_True; [done|by right].
    + rewrite decide_False; [done|]. by intros [?|?]%elem_of_cons.
Qed.

(** X11.  With actions built by [sleep_task] from the tasks' own names, as
    in the [__main__] block, [run] on an acyclic task set whose dependencies
    are all declared returns the mapping from each task name to that name,
    whatever the completion order. *)
Theorem sleep_tasks_return_labels tasks mw w :
  Forall (λ t, action t = sleep_task (name t)) tasks →
  closed tasks → acyclic tasks → valid_max_workers mw →
  returned (run tasks mw w) = Ok (labels (name <$> tasks)).
Proof.
  intros Hact Hcl Hac Hv. rewrite Forall_forall in Hact.
  assert (Hret : ∀ n v, returns tasks w n v → v = PyStr n).
  { intros n v (t & [Ht <-]%by_name_of_lookup & Hv').
    rewrite (Hact t Ht) in Hv'. unfold sleep_task, const_action in Hv'.
    congruence. }
  assert (Hall : all_return tasks w).
  { intros n [t Ht]. exists (PyStr n), t. split; [done|].
    apply by_name_of_lookup in Ht as [Ht <-]. by rewrite (Hact t Ht). }
  destruct (run_returns tasks mw w Hac Hv Hcl Hall) as [results Hres].
  rewrite Hres. f_equal. apply map_eq. intros n. rewrite labels_lookup.
  destruct (run_returned tasks mw w results Hres) as (_ & _ & Hfor & _).
  specialize (Hfor n). destruct (results !! n) as [v|].
  - destruct Hfor as [_ Hn]. rewrite (Hret n v Hn).
    rewrite decide_True; [done|].
    apply declared_iff_name. by eapply returns_declared.
  - rewrite decide_False; [done|]. intros Hn%declared_iff_name.
    apply Hfor, elem_of_task_nodes. by left.
Qed.

Lemma sleep_tasks_return_labels_witness :
  Forall (λ t, action t = sleep_task (name t)) example_dag ∧
  closed example_dag ∧ acyclic example_dag ∧ valid_max_workers (Some 8%Z) ∧
  returned (main lifo) = Ok (labels (name <$> example_dag)).
Proof.
  assert (H1 : Forall (λ t, action t = sleep_task (name t)) example_dag).
  { repeat constructor. }
  assert (H2 : closed example_dag) by (apply closed_check; compute_done).
  assert (H3 : acyclic example_dag).
  { eapply construct_ok_acyclic. vm_compute. reflexivity. }
  assert (H4 : valid_max_workers (Some 8%Z)) by (cbn; lia).
  split_and!; [exact H1|exact H2|exact H3|exact H4|].
  exact (sleep_tasks_return_labels example_dag (Some 8%Z) lifo H1 H2 H3 H4).
Defined.

(** ** What a failing run has printed *)


Section printed.
Variable tasks : list Task.
Variable w : world.


End printed.


